(** * ai-image-finder: the text scorer and the top-K ranking kernel

    A shallow embedding of [internal/textmatch] (tokenizer, scorer,
    sequential ranker) and of [internal/parallel/{bsp,pipeline,ws}]
    (the three parallel rankers), with the properties of the design
    document stated and proved over it. *)

From Stdlib Require Import Reals Lra Lia ZArith NArith List Permutation.
From Stdlib Require Import Ascii String.
From stdpp Require Import base decidable option numbers list sorting
  countable gmap fin_sets.

Local Open Scope Z_scope.

(** ** Go strings

    A Go string is a byte sequence holding UTF-8 text.  The code under
    study looks at strings in three ways: by code point
    ([strings.ToLower], the regular expression [\pL+]), by byte length
    ([len(word) > 1]) and by comparison ([==], [<], map keys).  A string
    is modelled by its sequence of code points; [len] adds up the UTF-8
    widths, and comparison is lexicographic on code points, which for
    UTF-8 text coincides with Go's bytewise comparison. *)

Abbreviation rune := N (only parsing).
Abbreviation gostring := (list N) (only parsing).

(** [utf8.RuneLen]: bytes taken by the UTF-8 encoding of a code point. *)
Definition RuneLen (r : rune) : nat :=
  if (r <? 0x80)%N then 1%nat
  else if (r <? 0x800)%N then 2%nat
  else if (r <? 0x10000)%N then 3%nat
  else 4%nat.

(** Go's builtin [len] on a string: its length in bytes. *)
Fixpoint len (s : gostring) : nat :=
  match s with
  | [] => 0%nat
  | r :: s' => (RuneLen r + len s')%nat
  end.

(** An ASCII literal as a Go string. *)
Definition str (s : string) : gostring :=
  List.map N_of_ascii (list_ascii_of_string s).

(** Go's [a < b] on strings. *)
Fixpoint strlt (a b : gostring) : bool :=
  match a, b with
  | _, [] => false
  | [], _ :: _ => true
  | x :: a', y :: b' => (x <? y)%N || ((x =? y)%N && strlt a' b')
  end.

(** [s == ""] *)
Definition isEmpty (s : gostring) : bool :=
  match s with [] => true | _ => false end.

(** ** [meta.PhotoMetadata]

    The string fields and the download counter of the record; the two
    floating-point coordinates play no part in scoring or ranking and
    are left out. *)

Record PhotoMetadata := mkPhoto {
  PhotoID : gostring;
  PhotoSubmittedAt : gostring;
  PhotoLocationCountry : gostring;
  PhotoLocationCity : gostring;
  PhotographerUsername : gostring;
  PhotographerFirstName : gostring;
  PhotographerLastName : gostring;
  PhotoDescription : gostring;
  AiDescription : gostring;
  ExifCameraMake : gostring;
  ExifCameraModel : gostring;
  StatsDownloads : Z
}.

(** ** The tokenizer ([textmatch/tokenize.go]) *)

(** The stopword table of the source, entry by entry. *)
Definition stopword_list : list string :=
  [ "a"; "an"; "the"; "is"; "are"; "was"; "were";
    "of"; "in"; "on"; "at"; "for"; "to"; "by"; "with";
    "picture"; "photo"; "image"; "photograph"; "view";
    "camera"; "lens"; "shot"; "taken"; "exposure";
    "and"; "but"; "or"; "as"; "if"; "it"; "its";
    "this"; "that"; "these"; "those"; "my"; "your";
    "he"; "she"; "him"; "her"; "they"; "them";
    "i"; "you"; "me"; "us"; "we";
    "be"; "have"; "do"; "say"; "get"; "make"; "go";
    "know"; "take"; "see"; "come"; "think"; "look";
    "want"; "give"; "use"; "find"; "tell"; "ask";
    "work"; "seem"; "feel"; "try"; "leave"; "call" ]%string.

(** [var stopwords = map[string]bool{...}], every entry [true]. *)
Definition stopwords : gmap gostring bool :=
  list_to_map (List.map (fun w => (str w, true)) stopword_list).

(** [stopwords[word]]: a missing key reads as [false]. *)
Definition isStopword (word : gostring) : bool :=
  default false (stopwords !! word).

Arguments isStopword : simpl never.

Module Tokenizer.
Section Tokenizer.

(** What the tokenizer takes from outside the repository: the
    Unicode tables behind [\pL] and [strings.ToLower], the Porter
    stemmer of [github.com/reiver/go-porterstemmer], and the synonym
    table unmarshalled from the two embedded JSON files. *)
Variable IsLetter : rune -> bool.
Variable ToLowerRune : rune -> rune.
Variable StemString : gostring -> gostring.
Variable loadedSynonymMap : gmap gostring (list gostring).

(** [strings.ToLower] *)
Definition ToLower (s : gostring) : gostring := ToLowerRune <$> s.

(** Closing the letter run read so far (kept in reverse). *)
Definition flush (run : gostring) : list gostring :=
  match run with [] => [] | _ => [List.rev run] end.

(** [wordRegex.FindAllString(s, -1)] for [wordRegex = \pL+]: the
    successive maximal runs of letters, left to right. *)
Fixpoint scanWords (run : gostring) (s : gostring) : list gostring :=
  match s with
  | [] => flush run
  | r :: s' =>
      if IsLetter r then scanWords (r :: run) s'
      else flush run ++ scanWords [] s'
  end.

Definition FindAllString (s : gostring) : list gostring := scanWords [] s.

(** [!stopwords[word] && len(word) > 1] *)
Definition keep (word : gostring) : bool :=
  negb (isStopword word) && (1 <? len word)%nat.

(** The inner loop over the synonyms of one word. *)
Definition addSynonyms (setT : gset gostring) (synonyms : list gostring)
  : gset gostring :=
  fold_left
    (fun acc syn => if keep syn then {[ StemString syn ]} ∪ acc else acc)
    synonyms setT.

(** One iteration of the loop over [rawWords]. *)
Definition addWord (expandSynonyms : bool) (setT : gset gostring)
    (word : gostring) : gset gostring :=
  if keep word then
    let setT1 := {[ StemString word ]} ∪ setT in
    if expandSynonyms then
      match loadedSynonymMap !! word with
      | Some synonyms => addSynonyms setT1 synonyms
      | None => setT1
      end
    else setT1
  else setT.

(** [getStemmedTokensSet] *)
Definition getStemmedTokensSet (s : gostring) (expandSynonyms : bool)
  : gset gostring :=
  if isEmpty s then ∅
  else
    let lowerS := ToLower s in
    let rawWords := FindAllString lowerS in
    fold_left (addWord expandSynonyms) rawWords ∅.

(** [Tokens]: the expanded token set as a slice, in map iteration
    order; an empty set gives [nil]. *)
Definition Tokens (s : gostring) : list gostring :=
  elements (getStemmedTokensSet s true).

End Tokenizer.
End Tokenizer.

(** ** The scorer ([textmatch/score.go], [Score])

    [float32]/[float64] arithmetic is idealised as arithmetic on the
    reals: [math.Log] is [ln], and the sums of 10.0 and 1.5 are exact. *)

Module Scorer.
Section Scorer.

Variable IsLetter : rune -> bool.
Variable ToLowerRune : rune -> rune.
Variable StemString : gostring -> gostring.
Variable loadedSynonymMap : gmap gostring (list gostring).

Local Abbreviation getStemmedTokensSet :=
  (Tokenizer.getStemmedTokensSet IsLetter ToLowerRune StemString
     loadedSynonymMap).

Definition originalWordMatchBonus : R := 10%R.
Definition synonymMatchBonus : R := (3 / 2)%R.

(** [if f != "" { sb.WriteString(f); sb.WriteString(" ") }] *)
Definition writeField (f : gostring) : gostring :=
  if isEmpty f then [] else f ++ str " ".

(** [photoText := sb.String()] *)
Definition photoText (photo : PhotoMetadata) : gostring :=
  writeField (PhotoDescription photo) ++
  writeField (AiDescription photo) ++
  writeField (PhotoLocationCountry photo) ++
  writeField (PhotoLocationCity photo).

Definition photoOriginalsSet (photo : PhotoMetadata) : gset gostring :=
  getStemmedTokensSet (photoText photo) false.

(** What one iteration of the loop over [photoOriginalsSet] adds. *)
Definition bonus (originalQueryTokenSet allQueryTokensSet : gset gostring)
    (pOrigToken : gostring) : R :=
  if decide (pOrigToken ∈ originalQueryTokenSet) then originalWordMatchBonus
  else if decide (pOrigToken ∈ allQueryTokensSet) then synonymMatchBonus
  else 0%R.

(** The loop [for pOrigToken := range photoOriginalsSet], run over
    the tokens in the iteration order [order]. *)
Definition accumulate (originalQueryTokenSet allQueryTokensSet : gset gostring)
    (order : list gostring) : R :=
  fold_left
    (fun rawScore t =>
       (rawScore + bonus originalQueryTokenSet allQueryTokensSet t)%R)
    order 0%R.

(** [rawScore] at the end of the loop. *)
Definition rawScore (query : gostring) (photo : PhotoMetadata) : R :=
  accumulate (getStemmedTokensSet query false) (getStemmedTokensSet query true)
    (elements (photoOriginalsSet photo)).

(** [math.Log(1.0 + float64(numPhotoOriginalTokens))] *)
Definition normalizationFactor (photo : PhotoMetadata) : R :=
  ln (1 + INR (size (photoOriginalsSet photo))).

Definition Score (query : gostring) (photo : PhotoMetadata) : R :=
  if decide (size (photoOriginalsSet photo) = 0%nat) then 0%R
  else
    let rawScore := rawScore query photo in
    if Req_dec_T rawScore 0%R then 0%R
    else
      let normalizationFactor := normalizationFactor photo in
      if Rle_dec normalizationFactor (1 / 1000000)%R then rawScore
      else (rawScore / normalizationFactor)%R.

End Scorer.
End Scorer.

(** ** The top-K heap ([photoHeap] over [container/heap])

    The four packages each carry their own copy of [scoredPhoto] and
    [photoHeap]; the copies are the same text and are modelled once.
    The score type is a parameter: the rankers only compare scores
    ([<], [>], [==], [!=]) and never compute with them. *)

Record scoredPhoto (F : Type) := mkScored { photo : PhotoMetadata; score : F }.
Arguments mkScored {F} _ _.
Arguments photo {F} _.
Arguments score {F} _.

Module Heap.
Section Heap.

Context {F : Type}.
Variable flt : F -> F -> bool.   (* [a < b] on scores *)
Variable feq : F -> F -> bool.   (* [a == b] on scores *)

Local Abbreviation photoHeap := (list (scoredPhoto F)).

(** [photoHeap.Less], on the two elements compared. *)
Definition Less (a b : scoredPhoto F) : bool :=
  if negb (feq (score a) (score b)) then flt (score a) (score b)
  else if negb (StatsDownloads (photo a) =? StatsDownloads (photo b))
  then StatsDownloads (photo a) <? StatsDownloads (photo b)
  else strlt (PhotoID (photo b)) (PhotoID (photo a)).

(** [h.Less(i, j)]; the callers below keep both indices in range
    (out of range Go panics). *)
Definition LessAt (h : photoHeap) (i j : nat) : bool :=
  match h !! i, h !! j with
  | Some a, Some b => Less a b
  | _, _ => false
  end.

(** [h.Swap(i, j)] *)
Definition Swap (h : photoHeap) (i j : nat) : photoHeap :=
  match h !! i, h !! j with
  | Some a, Some b => <[i := b]> (<[j := a]> h)
  | _, _ => h
  end.

(** [heap.up]; [fuel] bounds the loop, which runs at most [j] times
    since [j] moves to its parent each time round. *)
Fixpoint up (fuel : nat) (h : photoHeap) (j : nat) : photoHeap :=
  match fuel with
  | O => h
  | S fuel' =>
      let i := ((j - 1) / 2)%nat in   (* parent *)
      if (i =? j)%nat || negb (LessAt h j i) then h
      else up fuel' (Swap h i j) i
  end.

(** [heap.down] (the position it returns is not used by [Pop]). *)
Fixpoint down (fuel : nat) (h : photoHeap) (i n : nat) : photoHeap :=
  match fuel with
  | O => h
  | S fuel' =>
      let j1 := (2 * i + 1)%nat in
      if (n <=? j1)%nat then h
      else
        let j2 := (j1 + 1)%nat in
        let j := if (j2 <? n)%nat && LessAt h j2 j1 then j2 else j1 in
        if negb (LessAt h j i) then h
        else down fuel' (Swap h i j) j n
  end.

(** [heap.Push(h, x)]: append, then [up(h, h.Len()-1)]. *)
Definition Push (h : photoHeap) (x : scoredPhoto F) : photoHeap :=
  let h' := h ++ [x] in
  up (length h') h' (length h' - 1).

(** [heap.Pop(h)]: swap the root to the end, [down(h, 0, n)], then
    cut the last element off and return it.  [None] on an empty heap,
    where Go panics. *)
Definition Pop (h : photoHeap) : option (scoredPhoto F * photoHeap) :=
  match h with
  | [] => None
  | _ :: _ =>
      let n := (length h - 1)%nat in
      let h1 := down n (Swap h 0 n) 0 n in
      match last h1 with
      | Some x => Some (x, take n h1)
      | None => None
      end
  end.

(** The replacement test written out at every insertion site:
    [sp] is strictly better than [root]. *)
Definition shouldReplace (sp root : scoredPhoto F) : bool :=
  if flt (score root) (score sp) then true
  else if feq (score sp) (score root) then
    if StatsDownloads (photo sp) >? StatsDownloads (photo root) then true
    else if StatsDownloads (photo sp) =? StatsDownloads (photo root)
    then strlt (PhotoID (photo sp)) (PhotoID (photo root))
    else false
  else false.

(** The insertion step shared by [Rank], the BSP workers and
    reduction, [collectResults] and [Collector.Push]:
    push while fewer than [k] are held, else replace the root when
    the newcomer is strictly better. *)
Definition offer (k : Z) (h : photoHeap) (sp : scoredPhoto F) : photoHeap :=
  if Z.of_nat (length h) <? k then Push h sp
  else
    match h with
    | root :: _ =>
        if shouldReplace sp root then
          match Pop h with
          | Some (_, h') => Push h' sp
          | None => h
          end
        else h
    | [] => h
    end.

(** Popping until the heap is empty, in pop order. *)
Fixpoint popAll (fuel : nat) (h : photoHeap) : list (scoredPhoto F) :=
  match fuel with
  | O => []
  | S fuel' =>
      match Pop h with
      | Some (x, h') => x :: popAll fuel' h'
      | None => []
      end
  end.

Definition drain (h : photoHeap) : list (scoredPhoto F) :=
  popAll (length h) h.

(** The comparison closure handed to [sort.Slice]. *)
Definition sortLess (a b : scoredPhoto F) : bool :=
  if negb (feq (score a) (score b)) then flt (score b) (score a)
  else if negb (StatsDownloads (photo a) =? StatsDownloads (photo b))
  then StatsDownloads (photo a) >? StatsDownloads (photo b)
  else strlt (PhotoID (photo a)) (PhotoID (photo b)).

(** [insertionSortLessFunc] of package [sort], which is all that
    [sort.Slice] runs on a slice of at most 12 elements. *)
Fixpoint sink (less : scoredPhoto F -> scoredPhoto F -> bool)
    (x : scoredPhoto F) (sortedRev : list (scoredPhoto F))
  : list (scoredPhoto F) :=
  match sortedRev with
  | [] => [x]
  | y :: rest => if less x y then y :: sink less x rest else x :: sortedRev
  end.

Definition insertionSort (less : scoredPhoto F -> scoredPhoto F -> bool)
    (data : list (scoredPhoto F)) : list (scoredPhoto F) :=
  rev (fold_left (fun sortedRev x => sink less x sortedRev) data []).

End Heap.
End Heap.

(** ** The rankers *)

(** [s[lo:hi]]: [None] where Go panics with "slice bounds out of
    range", that is unless [0 <= lo <= hi <= len(s)]. *)
Definition slice {A} (s : list A) (lo hi : Z) : option (list A) :=
  if (0 <=? lo) && (lo <=? hi) && (hi <=? Z.of_nat (length s))
  then Some (take (Z.to_nat (hi - lo)) (drop (Z.to_nat lo) s))
  else None.

Module Rankers.
Section Rankers.

Context {F : Type}.
Variable flt : F -> F -> bool.
Variable feq : F -> F -> bool.

(** [textmatch.Score], as the rankers see it: a function they call. *)
Variable Score : gostring -> PhotoMetadata -> F.

(** [sort.Slice(data, less)]. *)
Variable sort_Slice :
  (scoredPhoto F -> scoredPhoto F -> bool) ->
  list (scoredPhoto F) -> list (scoredPhoto F).

Local Abbreviation offer := (Heap.offer flt feq).
Local Abbreviation drain := (Heap.drain flt feq).
Local Abbreviation sortLess := (Heap.sortLess flt feq).

(** [scoredPhoto{photo: p, score: Score(query, p)}] *)
Definition scored (query : gostring) (p : PhotoMetadata) : scoredPhoto F :=
  mkScored p (Score query p).

(** The loop that scores photos one by one and offers them to a heap. *)
Definition scoreInto (query : gostring) (k : Z)
    (h : list (scoredPhoto F)) (photos : list PhotoMetadata)
  : list (scoredPhoto F) :=
  fold_left (fun h p => offer k h (scored query p)) photos h.

(** [textmatch.Rank].  The popped elements fill [scored] from the
    front. *)
Definition Rank (query : gostring) (photos : list PhotoMetadata) (k : Z)
  : list PhotoMetadata :=
  if (k <=? 0) || (length photos =? 0)%nat then []
  else
    let h := scoreInto query k [] photos in
    let scored := drain h in
    photo <$> sort_Slice sortLess scored.

(** The tail shared by the three parallel rankers: the popped
    elements fill [scoredResults] from the back, then [sort.Slice]. *)
Definition rankedPhotos (h : list (scoredPhoto F)) : list PhotoMetadata :=
  let scoredResults := rev (drain h) in
  photo <$> sort_Slice sortLess scoredResults.

(** *** BSP ([bsp.RankBSP]) *)

(** The worker count after the two clamps. *)
Definition clampWorkers (dflt numWorkers : Z) (n : nat) : Z :=
  let numWorkers := if numWorkers <=? 0 then dflt else numWorkers in
  if numWorkers >? Z.of_nat n then Z.of_nat n else numWorkers.

(** [photos[start:end]] for worker [i]. *)
Definition photoChunk (photos : list PhotoMetadata) (chunkSize i : Z)
  : option (list PhotoMetadata) :=
  let start := i * chunkSize in
  let end_ := (i + 1) * chunkSize in
  let end_ := if end_ >? Z.of_nat (length photos)
              then Z.of_nat (length photos) else end_ in
  slice photos start end_.

(** The reduction: every local heap, in worker order, is popped
    empty into [finalHeap]. *)
Definition reduceHeaps (k : Z) (localHeaps : list (list (scoredPhoto F)))
  : list (scoredPhoto F) :=
  fold_left
    (fun finalHeap localH => fold_left (offer k) (drain localH) finalHeap)
    localHeaps [].

(** [RankBSP].  The workers touch disjoint heaps and the barrier and
    the wait group only order them before the reduction, so the
    result is that of running the workers one after the other.
    [t0] and [t1] are the clock readings at [time.Now()] and at
    [time.Since(startTime)]; [None] stands for a run-time panic. *)
Definition RankBSP (t0 t1 : Z) (query : gostring)
    (photos : list PhotoMetadata) (k numWorkers : Z)
  : option (list PhotoMetadata * Z) :=
  if (k <=? 0) || (length photos =? 0)%nat then Some ([], t1 - t0)
  else
    let numWorkers := clampWorkers 1 numWorkers (length photos) in
    let chunkSize :=
      (Z.of_nat (length photos) + numWorkers - 1) `quot` numWorkers in
    chunks ← mapM (fun i => photoChunk photos chunkSize (Z.of_nat i))
                  (seq 0 (Z.to_nat numWorkers));
    let localHeaps := scoreInto query k [] <$> chunks in
    let finalHeap := reduceHeaps k localHeaps in
    Some (rankedPhotos finalHeap, t1 - t0).

(** *** Pipeline ([pipeline.collectResults]) *)


(** *** Work stealing ([ws.Collector]) *)

(** [Collector.Push] on the heap the collector holds. *)
Definition Collector_Push (topK : Z) (h : list (scoredPhoto F))
    (sp : scoredPhoto F) : list (scoredPhoto F) :=
  if topK <=? 0 then h else offer topK h sp.

(** [Collector.GetRankedPhotos] *)
Definition GetRankedPhotos (h : list (scoredPhoto F)) : list PhotoMetadata :=
  if (length h =? 0)%nat then [] else rankedPhotos h.

End Rankers.
End Rankers.

(** ** Work stealing: tasks and deques ([ws.Task], [ws.Deque]) *)

Record Task := mkTask { Photo : PhotoMetadata; Query : gostring }.

(** A deque is its [tasks] slice; every method holds the deque's mutex
    from entry to return, so each is one atomic step on that slice. *)
Definition NewDeque : list Task := [].

Definition PushBottom (tasks : list Task) (task : Task) : list Task :=
  tasks ++ [task].

(** [PopBottom]: [None] is [(Task{}, false)]. *)
Definition PopBottom (tasks : list Task) : option (Task * list Task) :=
  match last tasks with
  | None => None
  | Some task => Some (task, take (length tasks - 1) tasks)
  end.

(** [PopTop] *)
Definition PopTop (tasks : list Task) : option (Task * list Task) :=
  match tasks with
  | [] => None
  | task :: rest => Some (task, rest)
  end.

(** The distribution loop of [RankWS]:
    [deques[i%numWorkers].PushBottom(task)] for every photo. *)
Definition distribute (numWorkers : nat) (queryString : gostring)
    (photos : list PhotoMetadata) : list (list Task) :=
  fold_left
    (fun deques ip =>
       alter (fun d => PushBottom d (mkTask ip.2 queryString))
             (ip.1 mod numWorkers)%nat deques)
    (imap (fun i photo => (i, photo)) photos)
    (replicate numWorkers NewDeque).

Module WS.
Section WS.

Context {F : Type}.
Variable flt : F -> F -> bool.
Variable feq : F -> F -> bool.
Variable Score : gostring -> PhotoMetadata -> F.
Variable sort_Slice :
  (scoredPhoto F -> scoredPhoto F -> bool) ->
  list (scoredPhoto F) -> list (scoredPhoto F).
(** [runtime.NumCPU()] *)
Variable NumCPU : Z.

(** Where a worker goroutine stands in its loop. *)
Inductive worker :=
| Seeking                 (* at the top of the loop, no task in hand *)
| Holding (task : Task)   (* [found]: about to score and push *)
| Pushed                  (* after [collector.Push], before [tasksWg.Done] *)
| Exited.                 (* returned on [<-quitSignal] *)

(** The shared state of one run of [RankWS] once the workers are
    launched.  [log], [decrements] and [zeroHits] are bookkeeping
    added for the proofs: the tasks pushed to the collector so far in
    push order, the number of [tasksWg.Done()] calls, and the number
    of those calls that brought the counter to zero. *)
Record state := mkState {
  deques : list (list Task);
  workers : list worker;
  collector : list (scoredPhoto F);
  tasksWg : Z;
  quitSignal : bool;       (* closed? *)
  log : list Task;
  decrements : nat;
  zeroHits : nat
}.

Definition sPhoto (task : Task) : scoredPhoto F :=
  mkScored (Photo task) (Score (Query task) (Photo task)).

(** The atomic steps.  An iteration of a worker's loop that finds no
    task and no quit signal changes nothing shared and is not a step. *)
Inductive step (topK : Z) : state -> state -> Prop :=
| step_pop i d task d' s :
    workers s !! i = Some Seeking ->
    deques s !! i = Some d ->
    PopBottom d = Some (task, d') ->
    step topK s
      (mkState (<[i := d']> (deques s)) (<[i := Holding task]> (workers s))
         (collector s) (tasksWg s) (quitSignal s)
         (log s) (decrements s) (zeroHits s))
| step_steal i j d task d' s :
    workers s !! i = Some Seeking ->
    deques s !! i = Some [] ->
    j <> i ->
    deques s !! j = Some d ->
    PopTop d = Some (task, d') ->
    step topK s
      (mkState (<[j := d']> (deques s)) (<[i := Holding task]> (workers s))
         (collector s) (tasksWg s) (quitSignal s)
         (log s) (decrements s) (zeroHits s))
| step_push i task s :
    workers s !! i = Some (Holding task) ->
    step topK s
      (mkState (deques s) (<[i := Pushed]> (workers s))
         (Rankers.Collector_Push flt feq topK (collector s) (sPhoto task))
         (tasksWg s) (quitSignal s)
         (log s ++ [task]) (decrements s) (zeroHits s))
| step_done i s :
    workers s !! i = Some Pushed ->
    step topK s
      (mkState (deques s) (<[i := Seeking]> (workers s))
         (collector s) (tasksWg s - 1) (quitSignal s)
         (log s) (S (decrements s))
         (if tasksWg s - 1 =? 0 then S (zeroHits s) else zeroHits s))
| step_close s :
    tasksWg s = 0 ->
    quitSignal s = false ->
    step topK s
      (mkState (deques s) (workers s) (collector s) (tasksWg s) true
         (log s) (decrements s) (zeroHits s))
| step_exit i s :
    workers s !! i = Some Seeking ->
    deques s !! i = Some [] ->
    quitSignal s = true ->
    step topK s
      (mkState (deques s) (<[i := Exited]> (workers s))
         (collector s) (tasksWg s) (quitSignal s)
         (log s) (decrements s) (zeroHits s)).

(** The state when the worker goroutines start. *)
Definition init (queryString : gostring) (photos : list PhotoMetadata)
    (numWorkers : nat) : state :=
  mkState (distribute numWorkers queryString photos)
          (replicate numWorkers Seeking)
          [] (Z.of_nat (length photos)) false [] 0 0.

(** [workerPoolWg.Wait()] returns: every worker has exited. *)
Definition finished (s : state) : Prop :=
  Forall (fun w => w = Exited) (workers s).

(** [RankWS] returns [(out, dur)]. *)
Definition RankWS_returns (t0 t1 : Z) (queryString : gostring)
    (photos : list PhotoMetadata) (topK numWorkers : Z)
    (out : list PhotoMetadata) (dur : Z) : Prop :=
  dur = t1 - t0 /\
  if (topK <=? 0) || (length photos =? 0)%nat then out = []
  else
    let numWorkers :=
      Z.to_nat (Rankers.clampWorkers NumCPU numWorkers (length photos)) in
    exists s,
      rtc (step topK) (init queryString photos numWorkers) s /\
      finished s /\
      out = Rankers.GetRankedPhotos flt feq sort_Slice (collector s).

End WS.
End WS.

(** ** The scoring pipeline ([pipeline.RankScoringPipeline]) *)

Module Pipeline.
Section Pipeline.

Context {F : Type}.
Variable flt : F -> F -> bool.
Variable feq : F -> F -> bool.
Variable Score : gostring -> PhotoMetadata -> F.
Variable sort_Slice :
  (scoredPhoto F -> scoredPhoto F -> bool) ->
  list (scoredPhoto F) -> list (scoredPhoto F).
Variable NumCPU : Z.

(** Where a scorer goroutine of [runScorerWorkers] stands. *)
Inductive scorer :=
| Receiving                         (* at [range candidatesCh] *)
| Sending (sp : scoredPhoto F)      (* at [resultsCh <- ...] *)
| Returned.                         (* [candidatesCh] closed and drained *)

(** The channels, the goroutines and the collector's heap.  A channel
    is the queue of values it holds and a closed flag; [received] is
    proof bookkeeping: what the collector has taken from [resultsCh]
    so far, in order. *)
Record state := mkState {
  toSend : list PhotoMetadata;          (* what the feeding loop has left *)
  photosToScoreCh : list PhotoMetadata;
  photosClosed : bool;
  scorers : list scorer;
  resultsCh : list (scoredPhoto F);
  resultsClosed : bool;
  h : list (scoredPhoto F);             (* the heap of [collectResults] *)
  final : option (list PhotoMetadata);  (* sent on [finalRankedPhotosCh] *)
  received : list (scoredPhoto F)
}.

(** The atomic steps for [topK > 0]; a blocked channel operation is
    simply not enabled. *)
Inductive step (queryString : gostring) (topK : Z) (numScorers : nat)
  : state -> state -> Prop :=
| step_feed p rest s :
    toSend s = p :: rest ->
    step queryString topK numScorers s
      (mkState rest (photosToScoreCh s ++ [p]) (photosClosed s) (scorers s)
         (resultsCh s) (resultsClosed s) (h s) (final s) (received s))
| step_close_photos s :
    toSend s = [] ->
    photosClosed s = false ->
    step queryString topK numScorers s
      (mkState (toSend s) (photosToScoreCh s) true (scorers s)
         (resultsCh s) (resultsClosed s) (h s) (final s) (received s))
| step_score i p rest s :
    scorers s !! i = Some Receiving ->
    photosToScoreCh s = p :: rest ->
    step queryString topK numScorers s
      (mkState (toSend s) rest (photosClosed s)
         (<[i := Sending (mkScored p (Score queryString p))]> (scorers s))
         (resultsCh s) (resultsClosed s) (h s) (final s) (received s))
| step_send i sp s :
    scorers s !! i = Some (Sending sp) ->
    (length (resultsCh s) < numScorers * 2)%nat ->
    step queryString topK numScorers s
      (mkState (toSend s) (photosToScoreCh s) (photosClosed s)
         (<[i := Receiving]> (scorers s))
         (resultsCh s ++ [sp]) (resultsClosed s) (h s) (final s)
         (received s))
| step_return i s :
    scorers s !! i = Some Receiving ->
    photosToScoreCh s = [] ->
    photosClosed s = true ->
    step queryString topK numScorers s
      (mkState (toSend s) (photosToScoreCh s) (photosClosed s)
         (<[i := Returned]> (scorers s))
         (resultsCh s) (resultsClosed s) (h s) (final s) (received s))
| step_close_results s :
    Forall (fun w => w = Returned) (scorers s) ->
    resultsClosed s = false ->
    step queryString topK numScorers s
      (mkState (toSend s) (photosToScoreCh s) (photosClosed s) (scorers s)
         (resultsCh s) true (h s) (final s) (received s))
| step_collect sp rest s :
    resultsCh s = sp :: rest ->
    final s = None ->
    step queryString topK numScorers s
      (mkState (toSend s) (photosToScoreCh s) (photosClosed s) (scorers s)
         rest (resultsClosed s) (Heap.offer flt feq topK (h s) sp)
         (final s) (received s ++ [sp]))
| step_final s :
    resultsCh s = [] ->
    resultsClosed s = true ->
    final s = None ->
    step queryString topK numScorers s
      (mkState (toSend s) (photosToScoreCh s) (photosClosed s) (scorers s)
         (resultsCh s) (resultsClosed s) (h s)
         (Some (Rankers.rankedPhotos flt feq sort_Slice (h s)))
         (received s)).

Definition init (candidatePhotos : list PhotoMetadata) (numScorers : nat)
  : state :=
  mkState candidatePhotos [] false (replicate numScorers Receiving)
          [] false [] None [].

(** [RankScoringPipeline] returns [out]. *)
Definition RankScoringPipeline_returns (queryString : gostring)
    (candidatePhotos : list PhotoMetadata) (topK numScorers : Z)
    (out : list PhotoMetadata) : Prop :=
  if (topK <=? 0) || (length candidatePhotos =? 0)%nat then out = []
  else
    let numScorers :=
      Z.to_nat
        (Rankers.clampWorkers NumCPU numScorers (length candidatePhotos)) in
    exists s,
      rtc (step queryString topK numScorers) (init candidatePhotos numScorers) s /\
      final s = Some out.

End Pipeline.
End Pipeline.

(** ** What is assumed of the score comparisons

    On [float32] values other than NaN (and with one zero), [<] is a
    strict total order and [==] is equality. *)

Class ScoreOrder {F : Type} (flt feq : F -> F -> bool) : Prop := {
  feq_eq : forall x y, feq x y = true <-> x = y;
  flt_irrefl : forall x, flt x x = false;
  flt_trans : forall x y z, flt x y = true -> flt y z = true -> flt x z = true;
  flt_total : forall x y, flt x y = true \/ x = y \/ flt y x = true
}.

(** What is assumed of [sort.Slice]: it permutes its argument and,
    for a [less] that is a strict weak order, leaves no element
    before one that is less than it. *)
Class SortContract {A : Type}
    (sort_Slice : (A -> A -> bool) -> list A -> list A) : Prop := {
  sort_Slice_perm : forall less data, sort_Slice less data ≡ₚ data;
  sort_Slice_sorted : forall less data,
    (forall x, less x x = false) ->
    (forall x y z, less x y = true -> less y z = true -> less x z = true) ->
    (forall x y z, less x y = false -> less y z = false -> less x z = false) ->
    StronglySorted (fun a b => less b a = false) (sort_Slice less data)
}.

(** ** [strings.Join] and the instances used in the examples *)

(** [strings.Join(elems, sep)] *)
Fixpoint stringsJoin (elems : list gostring) (sep : gostring) : gostring :=
  match elems with
  | [] => []
  | [e] => e
  | e :: rest => e ++ sep ++ stringsJoin rest sep
  end.

Definition inRange (lo hi r : N) : bool := ((lo <=? r) && (r <=? hi))%N.

(** The letters ([\pL]) among the code points below 256. *)
Definition latin1IsLetter (r : rune) : bool :=
  inRange 0x41 0x5A r || inRange 0x61 0x7A r
  || (r =? 0xAA)%N || (r =? 0xB5)%N || (r =? 0xBA)%N
  || inRange 0xC0 0xD6 r || inRange 0xD8 0xF6 r || inRange 0xF8 0xFF r.

(** [unicode.ToLower] on the code points below 256. *)
Definition latin1ToLower (r : rune) : rune :=
  if inRange 0x41 0x5A r || inRange 0xC0 0xD6 r || inRange 0xD8 0xDE r
  then (r + 32)%N else r.

Definition isVowel (r : rune) : bool :=
  (r =? 0x61)%N || (r =? 0x65)%N || (r =? 0x69)%N || (r =? 0x6F)%N
  || (r =? 0x75)%N.

(** A stemmer that knows one rule of Porter's step 1b: a final "ing"
    goes when what is left holds a vowel.  On the words of the
    examples below it does what the Porter stemmer does. *)
Definition ingStem (word : gostring) : gostring :=
  let n := length word in
  let stemPart := take (n - 3) word in
  if (3 <? n)%nat && bool_decide (drop (n - 3) word = str "ing")
     && existsb isVowel stemPart
  then stemPart else word.

(** A two-entry synonym table (scenario S2 of the design document). *)
Definition demoSynonyms : gmap gostring (list gostring) :=
  list_to_map [ (str "big", [str "large"; str "huge"]);
                (str "car", [str "automobile"]) ].

Definition demoTokens (s : gostring) (expand : bool) : gset gostring :=
  Tokenizer.getStemmedTokensSet latin1IsLetter latin1ToLower ingStem
    demoSynonyms s expand.

(** The scorer over these tables. *)
Definition demoScore : gostring -> PhotoMetadata -> R :=
  Scorer.Score latin1IsLetter latin1ToLower ingStem demoSynonyms.

(** [<] and [==] on scores idealised as reals. *)
Definition Rltb (x y : R) : bool := if Rlt_dec x y then true else false.
Definition Reqb (x y : R) : bool := if Req_dec_T x y then true else false.

(** A photo with an id, two descriptions, a photographer and a
    download count. *)
Definition demoPhoto (id desc ai user : string) (downloads : Z)
  : PhotoMetadata :=
  mkPhoto (str id) [] [] [] (str user) [] [] (str desc) (str ai) [] []
          downloads.

(** The photos of scenario S1. *)
Definition photoA := demoPhoto "A" "foo bar baz" "object foo" "ann" 1.
Definition photoB := demoPhoto "B" "foo qux" "item foo" "bob" 10.
Definition photoC := demoPhoto "C" "baz quux" "detail baz" "cy" 100.
Definition scenarioS1 : list PhotoMetadata := [photoA; photoB; photoC].


(** Five candidates. *)
Definition fivePhotos : list PhotoMetadata :=
  [ photoA; photoB; photoC;
    demoPhoto "D" "foo only" "another foo" "dee" 5;
    demoPhoto "E" "nothing relevant" "empty" "eve" 20 ].

(** ** Properties of the tokenizer *)

Section TokenizerSpec.
Variable IsLetter : rune -> bool.
Variable ToLowerRune : rune -> rune.
Variable StemString : gostring -> gostring.
Variable loadedSynonymMap : gmap gostring (list gostring).

(** [w] is a maximal run of letters of [x]. *)
Definition maximalRun (x w : gostring) : Prop :=
exists pre post,
  x = pre ++ w ++ post /\ w <> [] /\
  Forall (fun r => IsLetter r = true) w /\
  (pre = [] \/ exists c, last pre = Some c /\ IsLetter c = false) /\
  (post = [] \/ exists c, head post = Some c /\ IsLetter c = false).

(** What a surface word [word] puts into the token set: its stem and,
  under expansion, the stems of its synonyms that pass the filter. *)
Definition contributes (expand : bool) (word t : gostring) : Prop :=
t = StemString word \/
(expand = true /\
 exists synonyms syn,
   loadedSynonymMap !! word = Some synonyms /\ syn ∈ synonyms /\
   isStopword syn = false /\ (1 < len syn)%nat /\ t = StemString syn).

(** A token that reads back as itself: a word of lower-case letters,
  longer than one byte, not a stopword, and its own stem. *)
Definition selfStemmed (t : gostring) : Prop :=
StemString t = t /\ isStopword t = false /\ (1 < len t)%nat /\
Forall (fun r => IsLetter r = true) t /\
Tokenizer.ToLower ToLowerRune t = t.

End TokenizerSpec.

(** ** The score as the design document words it

    The document builds the photo text itself (step 3: the non-empty
    ones among the description, the AI description, the country and
    the city, in this order, separated by spaces), tokenizes it
    without expansion, counts the literal and the synonym-only
    matches, and divides the weighted count by [ln (1 + n)]. *)

Section ScorerSpec.
Variable IsLetter : rune -> bool.
Variable ToLowerRune : rune -> rune.
Variable StemString : gostring -> gostring.
Variable loadedSynonymMap : gmap gostring (list gostring).

Local Abbreviation Tokenize :=
  (Tokenizer.getStemmedTokensSet IsLetter ToLowerRune StemString
     loadedSynonymMap).

Definition photoText_spec (photo : PhotoMetadata) : gostring :=
  stringsJoin
    (filter (fun f => f <> [])
       [ PhotoDescription photo; AiDescription photo;
         PhotoLocationCountry photo; PhotoLocationCity photo ])
    (str " ").

Definition Score_spec (query : gostring) (photo : PhotoMetadata) : R :=
  let Q_orig := Tokenize query false in
  let Q_all := Tokenize query true in
  let P_orig := Tokenize (photoText_spec photo) false in
  let raw := (10 * INR (size (P_orig ∩ Q_orig))
              + 3 / 2 * INR (size (P_orig ∩ (Q_all ∖ Q_orig))))%R in
  if decide (P_orig ∩ (Q_orig ∪ Q_all) = ∅) then 0%R
  else (raw / ln (1 + INR (size P_orig)))%R.

End ScorerSpec.

(** ** Heap order and top-K selection *)

Section HeapSpec.
Context {F : Type}.
Variable flt : F -> F -> bool.
Variable feq : F -> F -> bool.
Variable Score : gostring -> PhotoMetadata -> F.
Implicit Types h S D X : list (scoredPhoto F).

(** The heap order on the first [n] slots: no element is less than
  its parent. *)
Definition heapUpto (n : nat) h : Prop :=
forall c a b, (0 < c < n)%nat ->
  h !! c = Some a -> h !! ((c - 1) / 2)%nat = Some b ->
  Heap.Less flt feq a b = false.

Definition isHeap h : Prop := heapUpto (length h) h.

(** Heap order but for the element at [j], which may be less than
  its parent: the loop invariant of [up]. *)
Definition upInv h (j : nat) : Prop :=
(forall c a b, (0 < c)%nat -> c <> j ->
   h !! c = Some a -> h !! ((c - 1) / 2)%nat = Some b ->
   Heap.Less flt feq a b = false) /\
(forall c a b, (0 < c)%nat -> (0 < j)%nat -> ((c - 1) / 2)%nat = j ->
   h !! c = Some a -> h !! ((j - 1) / 2)%nat = Some b ->
   Heap.Less flt feq a b = false).

(** Heap order on the first [n] slots but for the element at [i],
  which may be greater than its children: the loop invariant of
  [down]. *)
Definition downInv h (i n : nat) : Prop :=
(forall c a b, (0 < c < n)%nat -> ((c - 1) / 2)%nat <> i ->
   h !! c = Some a -> h !! ((c - 1) / 2)%nat = Some b ->
   Heap.Less flt feq a b = false) /\
(forall c a b, (0 < c < n)%nat -> (0 < i)%nat -> ((c - 1) / 2)%nat = i ->
   h !! c = Some a -> h !! ((i - 1) / 2)%nat = Some b ->
   Heap.Less flt feq a b = false).

(** [S] holds the best [k] of [X], and [D] the rest: nothing left out
  is better than anything kept. *)
Definition sel (k : nat) S D X : Prop :=
S ++ D ≡ₚ X /\
length S = Nat.min k (length X) /\
forall s d, s ∈ S -> d ∈ D -> Heap.Less flt feq s d = false.

(** The order the results are put in: no element is less than a
  later one. *)
Definition descending S : Prop :=
StronglySorted (fun a b => Heap.Less flt feq a b = false) S.

(** What every ranker is to return: the photos of a descending list
  that holds the best [k] of the scored candidates. *)
Definition topKOutput (query : gostring) (k : Z)
  (photos out : list PhotoMetadata) : Prop :=
exists S D,
  out = photo <$> S /\ descending S /\
  sel (Z.to_nat k) S D (Rankers.scored Score query <$> photos).

(** Photos that tie on score, downloads and id are the same record. *)
Definition tiesAreEqual (query : gostring) (photos : list PhotoMetadata)
: Prop :=
forall p1 p2, p1 ∈ photos -> p2 ∈ photos ->
  Score query p1 = Score query p2 ->
  StatsDownloads p1 = StatsDownloads p2 ->
  PhotoID p1 = PhotoID p2 ->
  p1 = p2.

(** The rank order on photos: [a] comes strictly before [b]. *)
Definition outranks (query : gostring) (a b : PhotoMetadata) : Prop :=
flt (Score query b) (Score query a) = true \/
(Score query a = Score query b /\
 (StatsDownloads b < StatsDownloads a \/
  (StatsDownloads a = StatsDownloads b /\
   strlt (PhotoID a) (PhotoID b) = true))).

(** [out] is the [min(k, |photos|)] best of [photos]: it leaves out
  nothing that outranks a photo it holds. *)
Definition bestK (query : gostring) (k : Z)
  (photos out : list PhotoMetadata) : Prop :=
exists excluded,
  out ++ excluded ≡ₚ photos /\
  length out = Nat.min (Z.to_nat k) (length photos) /\
  forall p d, p ∈ out -> d ∈ excluded -> ~ outranks query d p.

(** [out] is in rank order: score never goes up; among equal scores,
  downloads never go up; among equal scores and downloads, ids never
  go down. *)
Definition rankSorted (query : gostring) (out : list PhotoMetadata) : Prop :=
forall i j a b, (i < j)%nat -> out !! i = Some a -> out !! j = Some b ->
  flt (Score query a) (Score query b) = false /\
  (Score query a = Score query b ->
   StatsDownloads b <= StatsDownloads a /\
   (StatsDownloads a = StatsDownloads b ->
    strlt (PhotoID b) (PhotoID a) = false)).

End HeapSpec.

(** The slice expressions of all BSP workers are in range exactly when
    the last worker's is. *)
Definition chunksInRange (n : nat) (numWorkers : Z) : Prop :=
  let W := Rankers.clampWorkers 1 numWorkers n in
  (W - 1) * ((Z.of_nat n + W - 1) `quot` W) <= Z.of_nat n.

(** ** Invariants of the work-stealing run *)

Section WSSpec.
Context {F : Type}.
Variable flt : F -> F -> bool.
Variable feq : F -> F -> bool.
Variable Score : gostring -> PhotoMetadata -> F.
Implicit Types s : @WS.state F.
Implicit Types w : WS.worker.

(** The task a worker has in hand, if any. *)
Definition held w : list Task :=
match w with WS.Holding task => [task] | _ => [] end.

(** Popped but not yet counted off. *)
Definition inflight w : nat :=
match w with WS.Holding _ | WS.Pushed => 1 | _ => 0 end.

Definition weight w : nat :=
match w with WS.Holding _ => 2 | WS.Pushed => 1 | _ => 0 end.

Definition active w : nat :=
match w with WS.Exited => 0 | _ => 1 end.

(** The number of tasks still in the deques. *)
Definition queued s : nat := length (concat (WS.deques s)).

(** The number of steps a run still has before it. *)
Definition measure s : nat :=
3 * queued s + sum_list (weight <$> WS.workers s)
+ (if WS.quitSignal s then 0 else 1)
+ sum_list (active <$> WS.workers s).

(** What holds of every state of a run over [tasks]. *)
Record inv (tasks : list Task) (topK : Z) s : Prop := mkInv {
inv_lens : length (WS.deques s) = length (WS.workers s);
inv_perm : concat (WS.deques s) ++ concat (held <$> WS.workers s) ++ WS.log s
           ≡ₚ tasks;
inv_count : WS.tasksWg s =
            Z.of_nat (queued s + sum_list (inflight <$> WS.workers s));
inv_decr : (WS.decrements s + queued s
            + sum_list (inflight <$> WS.workers s) = length tasks)%nat;
inv_coll : WS.collector s =
           fold_left (Rankers.Collector_Push flt feq topK)
                     (WS.sPhoto Score <$> WS.log s) [];
inv_quit : WS.quitSignal s = true -> WS.tasksWg s = 0;
inv_exit : WS.Exited ∈ WS.workers s -> WS.quitSignal s = true;
inv_zero : WS.zeroHits s = if WS.tasksWg s =? 0 then 1%nat else 0%nat
}.

End WSSpec.

(** ** Invariants of the pipeline run *)

Section PipelineSpec.
Context {F : Type}.
Variable flt : F -> F -> bool.
Variable feq : F -> F -> bool.
Variable Score : gostring -> PhotoMetadata -> F.
Variable sort_Slice :
(scoredPhoto F -> scoredPhoto F -> bool) ->
list (scoredPhoto F) -> list (scoredPhoto F).
Implicit Types s : @Pipeline.state F.
Implicit Types w : @Pipeline.scorer F.

(** The result a scorer is waiting to send, if any. *)
Definition sending w : list (scoredPhoto F) :=
match w with Pipeline.Sending sp => [sp] | _ => [] end.

Definition sendWeight w : nat :=
match w with Pipeline.Sending _ => 2 | _ => 0 end.

Definition running w : nat :=
match w with Pipeline.Returned => 0 | _ => 1 end.

(** The number of steps a run still has before it. *)
Definition pmeasure s : nat :=
4 * length (Pipeline.toSend s) + 3 * length (Pipeline.photosToScoreCh s)
+ sum_list (sendWeight <$> Pipeline.scorers s)
+ length (Pipeline.resultsCh s)
+ (if Pipeline.photosClosed s then 0 else 1)
+ sum_list (running <$> Pipeline.scorers s)
+ (if Pipeline.resultsClosed s then 0 else 1)
+ (match Pipeline.final s with Some _ => 0 | None => 1 end).

(** What holds of every state of a run over [candidates]. *)
Record pinv (query : gostring) (topK : Z) (numScorers : nat)
  (candidates : list PhotoMetadata) s : Prop := mkPinv {
pinv_len : length (Pipeline.scorers s) = numScorers;
pinv_perm :
  (Rankers.scored Score query <$> Pipeline.toSend s)
  ++ (Rankers.scored Score query <$> Pipeline.photosToScoreCh s)
  ++ concat (sending <$> Pipeline.scorers s)
  ++ Pipeline.resultsCh s ++ Pipeline.received s
  ≡ₚ Rankers.scored Score query <$> candidates;
pinv_heap : Pipeline.h s =
            fold_left (Heap.offer flt feq topK) (Pipeline.received s) [];
pinv_closed : Pipeline.photosClosed s = true -> Pipeline.toSend s = [];
pinv_returned : Pipeline.Returned ∈ Pipeline.scorers s ->
                Pipeline.photosClosed s = true /\
                Pipeline.photosToScoreCh s = [];
pinv_rclosed : Pipeline.resultsClosed s = true ->
               Forall (fun w => w = Pipeline.Returned) (Pipeline.scorers s);
pinv_final : forall out, Pipeline.final s = Some out ->
             out = Rankers.rankedPhotos flt feq sort_Slice (Pipeline.h s) /\
             Pipeline.received s ≡ₚ Rankers.scored Score query <$> candidates
}.

End PipelineSpec.

(** * More of the code *)

(** ** The rest of [ws.Deque] *)

Module Deque.

(** [IsEmpty] *)
Definition IsEmpty (tasks : list Task) : bool := (length tasks =? 0)%nat.

(** [Size] *)
Definition Size (tasks : list Task) : Z := Z.of_nat (length tasks).

End Deque.

(** The elements of [l] at the indices [j], [j + W], [j + 2W], ..., in
    order. *)
Definition stride {A} (W j : nat) (l : list A) : list A :=
  snd <$> filter (fun ip => (ip.1 mod W)%nat = j) (imap (fun i x => (i, x)) l).

(** ** The barrier ([bsp.Barrier])

    [Wait] holds the barrier's mutex from its first line until it
    either parks in [cond.Wait()] (which gives the mutex up) or has
    broadcast and reset the counter, so that stretch is one atomic
    step.  A goroutine woken by the broadcast only takes the mutex
    again and unlocks it.  [parked] lists the goroutines suspended in
    [cond.Wait()], oldest first. *)

Module Barrier.

Record Barrier := mkBarrier {
  n : Z;                 (* how many goroutines must call Wait *)
  count : Z;
  parked : list nat
}.

(** [New]: [None] stands for the panic. *)
Definition New (n : Z) : option Barrier :=
  if n <=? 0 then None else Some (mkBarrier n 0 []).

(** [b.Wait()] called by goroutine [g]: the barrier afterwards and the
    goroutines that return from [Wait] as a result, in the order in
    which they had called it. *)
Definition Wait (b : Barrier) (g : nat) : Barrier * list nat :=
  let count := count b + 1 in
  if count <? n b then (mkBarrier (n b) count (parked b ++ [g]), [])
  else (mkBarrier (n b) 0 [], parked b ++ [g]).

(** One more call to [Wait], by [g]: the barrier and the goroutines
    that have returned from [Wait] so far. *)
Definition arrive (st : Barrier * list nat) (g : nat) : Barrier * list nat :=
  let '(b', released) := Wait st.1 g in (b', st.2 ++ released).

(** The goroutines [gs] call [Wait] one after the other. *)
Definition arrivals (b : Barrier) (gs : list nat) : Barrier * list nat :=
  fold_left arrive gs (b, []).

End Barrier.

(** ** Loading the synonym table ([init] of [textmatch/tokenize.go])

    The two embedded JSON files are unmarshalled into two maps (this
    is left to [encoding/json]); each is then ranged over, in an order
    Go does not fix, and its entries are appended key by key. *)

(** [loadedSynonymMap[key] = append(loadedSynonymMap[key], values...)] *)
Definition appendSynonyms (m : gmap gostring (list gostring))
    (kv : gostring * list gostring) : gmap gostring (list gostring) :=
  <[kv.1 := default [] (m !! kv.1) ++ kv.2]> m.

(** The two range loops of [init], in the orders [baseOrder] and
    [gloveOrder] in which they visit the entries. *)
Definition mergeSynonyms (baseOrder gloveOrder : list (gostring * list gostring))
  : gmap gostring (list gostring) :=
  fold_left appendSynonyms gloveOrder (fold_left appendSynonyms baseOrder ∅).

(** A score for the examples that run: the download count. *)
Definition downloadsScore (_ : gostring) (p : PhotoMetadata) : Z :=
  StatsDownloads p.

(** * Proofs *)

(** ** The order on strings and on scored photos *)

Lemma strlt_irrefl a : strlt a a = false.
Proof.
  induction a as [|x a IH]; simpl; [done|].
  rewrite N.ltb_irrefl, N.eqb_refl, IH. done.
Qed.

Lemma strlt_trans a b c : strlt a b = true -> strlt b c = true -> strlt a c = true.
Proof.
  revert b c. induction a as [|x a IH]; intros [|y b] [|z c]; simpl; try done.
  rewrite !orb_true_iff, !andb_true_iff, !N.ltb_lt, !N.eqb_eq.
  intros [Hxy|[-> Hab]] [Hyz|[-> Hbc]]; eauto with lia.
Qed.

Lemma strlt_total a b : strlt a b = false -> strlt b a = false -> a = b.
Proof.
  revert b. induction a as [|x a IH]; intros [|y b]; simpl; try done.
  rewrite !orb_false_iff, !andb_false_iff, !N.ltb_ge, !N.eqb_neq.
  intros [Hxy H1] [Hyx H2].
  assert (x = y) as -> by lia.
  f_equal. apply IH; [destruct H1 | destruct H2]; done.
Qed.

Section Order.
Context {F : Type} (flt feq : F -> F -> bool) `{!ScoreOrder flt feq}.
Local Abbreviation Less := (Heap.Less flt feq).

Lemma feq_refl x : feq x x = true.
Proof. by apply feq_eq. Qed.

Lemma feq_false x y : feq x y = false <-> x <> y.
Proof.
  rewrite <- (feq_eq (flt:=flt) x y). destruct (feq x y); split; congruence.
Qed.

Lemma flt_asym x y : flt x y = true -> flt y x = false.
Proof.
  intros H. destruct (flt y x) eqn:E; [|done].
  rewrite <- (flt_irrefl (feq:=feq) x). symmetry. eapply flt_trans; eauto.
Qed.

(** [Less a b] unfolded into the three-level comparison. *)
Lemma Less_true a b :
  Less a b = true <->
  flt (score a) (score b) = true \/
  (score a = score b /\
   (StatsDownloads (photo a) < StatsDownloads (photo b) \/
    (StatsDownloads (photo a) = StatsDownloads (photo b) /\
     strlt (PhotoID (photo b)) (PhotoID (photo a)) = true))).
Proof.
  unfold Heap.Less.
  destruct (feq (score a) (score b)) eqn:E; simpl.
  - apply feq_eq in E. rewrite E, (flt_irrefl (feq:=feq)).
    destruct (Z.eqb_spec (StatsDownloads (photo a)) (StatsDownloads (photo b)));
      simpl; rewrite ?Z.ltb_lt; intuition (try lia; try congruence).
  - apply feq_false in E. intuition congruence.
Qed.

Lemma Less_irrefl a : Less a a = false.
Proof.
  destruct (Less a a) eqn:E; [|done]. apply Less_true in E.
  rewrite (flt_irrefl (feq:=feq)), strlt_irrefl in E. intuition (try lia; congruence).
Qed.

Lemma Less_trans a b c : Less a b = true -> Less b c = true -> Less a c = true.
Proof.
  rewrite !Less_true.
  intros [H1|[E1 H1]] [H2|[E2 H2]].
  - left. eapply flt_trans; eauto.
  - left. congruence.
  - left. congruence.
  - right. split; [congruence|].
    destruct H1 as [H1|[D1 H1]], H2 as [H2|[D2 H2]]; try (left; lia).
    right. split; [lia|]. eapply strlt_trans; eauto.
Qed.

Lemma Less_asym a b : Less a b = true -> Less b a = false.
Proof.
  intros H. destruct (Less b a) eqn:E; [|done].
  rewrite <- (Less_irrefl a). symmetry. eapply Less_trans; eauto.
Qed.

(** Two elements neither of which is less than the other agree on
    score, downloads and id. *)
Lemma Less_tied a b :
  Less a b = false -> Less b a = false ->
  score a = score b /\
  StatsDownloads (photo a) = StatsDownloads (photo b) /\
  PhotoID (photo a) = PhotoID (photo b).
Proof.
  intros H1 H2.
  assert (N1 : ~ Less a b = true) by congruence.
  assert (N2 : ~ Less b a = true) by congruence.
  rewrite Less_true in N1, N2.
  destruct (flt_total (flt:=flt) (feq:=feq) (score a) (score b)) as [H|[H|H]];
    [tauto| |tauto].
  split; [done|].
  assert (StatsDownloads (photo a) = StatsDownloads (photo b)) as D.
  { destruct (Z.lt_trichotomy (StatsDownloads (photo a)) (StatsDownloads (photo b)))
      as [?|[?|?]]; [tauto|done|]. exfalso. apply N2. right. split; [done|]. left. lia. }
  split; [done|].
  apply strlt_total.
  - apply not_true_is_false. intros E. apply N2. right. split; [done|]. right. done.
  - apply not_true_is_false. intros E. apply N1. right. split; [done|]. right. done.
Qed.

Lemma Less_tied_iff a b :
  (Less a b = false /\ Less b a = false) <->
  (score a = score b /\
   StatsDownloads (photo a) = StatsDownloads (photo b) /\
   PhotoID (photo a) = PhotoID (photo b)).
Proof.
  split; [intros [??]; by apply Less_tied|].
  intros (Hs & Hd & Hi).
  split; apply not_true_is_false; rewrite Less_true, Hs, Hd, Hi, (flt_irrefl (feq:=feq)), strlt_irrefl;
    intuition (try lia; congruence).
Qed.

Lemma Less_negtrans a b c :
  Less a b = false -> Less b c = false -> Less a c = false.
Proof.
  intros H1 H2. destruct (Less a c) eqn:E; [|done]. exfalso.
  (* a < c, not a < b, not b < c *)
  destruct (Less b a) eqn:Eba.
  - (* b < a < c *) rewrite (Less_trans b a c) in H2; congruence.
  - destruct (Less_tied a b H1 Eba) as (Hs & Hd & Hi).
    assert (Less b c = true); [|congruence].
    apply Less_true in E. apply Less_true. rewrite <- Hs, <- Hd, <- Hi. done.
Qed.

Lemma shouldReplace_Less sp root :
  Heap.shouldReplace flt feq sp root = Less root sp.
Proof.
  unfold Heap.shouldReplace, Heap.Less.
  destruct (feq (score root) (score sp)) eqn:E.
  - apply feq_eq in E. rewrite E, (flt_irrefl (feq:=feq)), feq_refl. simpl.
    rewrite Z.gtb_ltb, (Z.eqb_sym (StatsDownloads (photo root))).
    destruct (Z.eqb_spec (StatsDownloads (photo sp)) (StatsDownloads (photo root))); simpl.
    + rewrite e, Z.ltb_irrefl. done.
    + destruct (_ <? _); done.
  - simpl. destruct (flt (score root) (score sp)) eqn:E2; [done|].
    apply feq_false in E. destruct (feq (score sp) (score root)) eqn:E3; [|done].
    apply feq_eq in E3. congruence.
Qed.

Lemma sortLess_Less a b : Heap.sortLess flt feq a b = Less b a.
Proof.
  unfold Heap.sortLess, Heap.Less.
  destruct (feq (score a) (score b)) eqn:E.
  - apply feq_eq in E. rewrite E, feq_refl. simpl.
    rewrite Z.gtb_ltb, (Z.eqb_sym (StatsDownloads (photo b))). done.
  - apply feq_false in E. destruct (feq (score b) (score a)) eqn:E3; [|done].
    apply feq_eq in E3. congruence.
Qed.
End Order.

(** ** [container/heap] keeps the heap order *)

Ltac parent_facts :=
  repeat match goal with
  | |- context [((?c - 1) / 2)%nat] =>
      lazymatch goal with
      | _ : (c - 1 = 2 * ((c - 1) / 2) + (c - 1) mod 2)%nat |- _ => fail
      | _ => pose proof (Nat.div_mod_eq (c - 1) 2);
             pose proof (Nat.mod_upper_bound (c - 1) 2 ltac:(lia))
      end
  | _ : context [((?c - 1) / 2)%nat] |- _ =>
      lazymatch goal with
      | _ : (c - 1 = 2 * ((c - 1) / 2) + (c - 1) mod 2)%nat |- _ => fail
      | _ => pose proof (Nat.div_mod_eq (c - 1) 2);
             pose proof (Nat.mod_upper_bound (c - 1) 2 ltac:(lia))
      end
  end.

Section HeapFacts.
Context {F : Type} (flt feq : F -> F -> bool) `{!ScoreOrder flt feq}.
Local Abbreviation Less := (Heap.Less flt feq).
Local Abbreviation Swap := (@Heap.Swap F).
Local Abbreviation up := (Heap.up flt feq).
Local Abbreviation down := (Heap.down flt feq).
Local Abbreviation heapUpto := (heapUpto flt feq).
Local Abbreviation isHeap := (isHeap flt feq).
Local Abbreviation upInv := (upInv flt feq).
Local Abbreviation downInv := (downInv flt feq).
Implicit Types h : list (scoredPhoto F).

Lemma Swap_length h i j : length (Swap h i j) = length h.
Proof.
  unfold Heap.Swap. destruct (h !! i), (h !! j); try done.
  by rewrite !length_insert.
Qed.

Lemma Swap_lookup h i j k :
  (i < length h)%nat -> (j < length h)%nat ->
  Swap h i j !! k =
    if decide (k = i) then h !! j else if decide (k = j) then h !! i else h !! k.
Proof.
  intros Hi Hj. unfold Heap.Swap.
  destruct (lookup_lt_is_Some_2 h i Hi) as [a Ha].
  destruct (lookup_lt_is_Some_2 h j Hj) as [b Hb].
  rewrite Ha, Hb.
  destruct (decide (k = i)) as [->|Hki].
  - rewrite list_lookup_insert_eq; [done|]. by rewrite length_insert.
  - rewrite list_lookup_insert_ne by done.
    destruct (decide (k = j)) as [->|Hkj].
    + by rewrite list_lookup_insert_eq.
    + by rewrite list_lookup_insert_ne.
Qed.

Lemma Swap_perm h i j : Swap h i j ≡ₚ h.
Proof.
  unfold Heap.Swap. destruct (h !! i) eqn:Hi, (h !! j) eqn:Hj; try done.
  by apply Permutation_insert_swap.
Qed.

Lemma up_S fuel h j :
  up (S fuel) h j =
    if (((j - 1) / 2)%nat =? j)%nat || negb (Heap.LessAt flt feq h j ((j - 1) / 2)%nat)
    then h else up fuel (Swap h ((j - 1) / 2)%nat j) ((j - 1) / 2)%nat.
Proof. reflexivity. Qed.

Lemma up_length fuel h j : length (up fuel h j) = length h.
Proof.
  revert h j. induction fuel as [|fuel IH]; intros h j; [done|].
  rewrite up_S. destruct (_ || _); [done|]. by rewrite IH, Swap_length.
Qed.

Lemma up_perm fuel h j : up fuel h j ≡ₚ h.
Proof.
  revert h j. induction fuel as [|fuel IH]; intros h j; [done|].
  rewrite up_S. destruct (_ || _); [done|]. by rewrite IH, Swap_perm.
Qed.

Lemma up_heap fuel h j :
  (j <= fuel)%nat -> (j < length h)%nat -> upInv h j -> isHeap (up fuel h j).
Proof.
  revert h j. induction fuel as [|fuel IH]; intros h j Hf Hj [I1 I2].
  - assert (j = 0)%nat as -> by lia.
    intros c a b Hc Ha Hb. apply (I1 c a b); [lia|lia|done|done].
  - rewrite up_S. destruct (Nat.eqb_spec ((j - 1) / 2) j) as [E|E]; cbn [orb].
    { assert (j = 0)%nat as -> by (parent_facts; lia).
      intros c a b Hc Ha Hb. apply (I1 c a b); [lia|lia|done|done]. }
    assert (0 < j)%nat as Hj0 by (destruct j; [done|lia]).
    assert ((j - 1) / 2 < j)%nat as Hp by (parent_facts; lia).
    destruct (lookup_lt_is_Some_2 h j Hj) as [x Hx].
    destruct (lookup_lt_is_Some_2 h ((j - 1) / 2)%nat ltac:(lia)) as [p Hp'].
    unfold Heap.LessAt. rewrite Hx, Hp'.
    destruct (Less x p) eqn:Hlt; cbn [negb]; cycle 1.
    { intros c a b Hc Ha Hb. destruct (decide (c = j)) as [->|Hcj].
      - congruence.
      - apply (I1 c a b); [lia|done|done|done]. }
    apply IH; [lia|rewrite Swap_length; lia|].
    assert (Hlk : forall k, Swap h ((j - 1) / 2) j !! k =
      if decide (k = ((j - 1) / 2)%nat) then Some x
      else if decide (k = j) then Some p else h !! k).
    { intros k. rewrite Swap_lookup by lia. rewrite Hx, Hp'. done. }
    split.
    + intros c a b Hc Hcne. rewrite !Hlk.
      destruct (decide (c = ((j - 1) / 2)%nat)) as [Ec|Ec]; [done|].
      destruct (decide (c = j)) as [->|Ecj].
      * rewrite decide_True by done. intros [= <-] [= <-].
        by apply (Less_asym flt feq).
      * destruct (decide (((c - 1) / 2)%nat = ((j - 1) / 2)%nat)) as [Ep|Ep].
        -- (* sibling of j *)
           intros Ha [= <-]. 
           assert (Less a p = false) as Hap.
           { apply (I1 c a p); [lia|done|done|]. by rewrite Ep. }
           destruct (Less a x) eqn:Hax; [|done].
           rewrite (Less_trans flt feq a x p) in Hap; done.
        -- destruct (decide (((c - 1) / 2)%nat = j)) as [Ej|Ej].
           ++ (* child of j *)
              intros Ha [= <-]. apply (I2 c a p); [lia|lia|done|done|done].
           ++ intros Ha Hb. apply (I1 c a b); done.
    + intros c a b Hc Hpj Hcp. rewrite !Hlk.
      destruct (decide (c = ((j - 1) / 2)%nat)) as [Ec|Ec].
      { exfalso. parent_facts. lia. }
      assert (((j - 1) / 2 - 1) / 2 <> (j - 1) / 2)%nat as Hgp by (parent_facts; lia).
      assert (((j - 1) / 2 - 1) / 2 <> j)%nat as Hgp2 by (parent_facts; lia).
      rewrite (decide_False (P := (((j - 1) / 2 - 1) / 2 = (j - 1) / 2)%nat)) by done.
      rewrite (decide_False (P := (((j - 1) / 2 - 1) / 2 = j)%nat)) by done.
      assert (Hpb : forall b, h !! (((j - 1) / 2 - 1) / 2)%nat = Some b -> Less p b = false).
      { intros b' Hb'. apply (I1 ((j - 1) / 2)%nat p b'); [lia|lia|done|done]. }
      destruct (decide (c = j)) as [->|Ecj].
      * intros [= <-] Hb. by apply Hpb.
      * intros Ha Hb.
        assert (Less a p = false) as Hap.
        { apply (I1 c a p); [lia|done|done|]. by rewrite Hcp. }
        eapply (Less_negtrans flt feq); [exact Hap|by apply Hpb].
Qed.

Lemma down_S fuel h i n :
  down (S fuel) h i n =
    if (n <=? 2 * i + 1)%nat then h
    else
      let j := if (2 * i + 1 + 1 <? n)%nat
                  && Heap.LessAt flt feq h (2 * i + 1 + 1) (2 * i + 1)
               then (2 * i + 1 + 1)%nat else (2 * i + 1)%nat in
      if negb (Heap.LessAt flt feq h j i) then h
      else down fuel (Swap h i j) j n.
Proof. reflexivity. Qed.

Lemma down_length fuel h i n : length (down fuel h i n) = length h.
Proof.
  revert h i. induction fuel as [|fuel IH]; intros h i; [done|].
  rewrite down_S. destruct (_ <=? _)%nat; [done|]. cbv zeta.
  destruct (negb _); [done|]. by rewrite IH, Swap_length.
Qed.

Lemma down_perm fuel h i n : down fuel h i n ≡ₚ h.
Proof.
  revert h i. induction fuel as [|fuel IH]; intros h i; [done|].
  rewrite down_S. destruct (_ <=? _)%nat; [done|]. cbv zeta.
  destruct (negb _); [done|]. by rewrite IH, Swap_perm.
Qed.

(** [down(h, i, n)] leaves the slots from [n] on alone. *)
Lemma down_lookup_ge fuel h i n k :
  (n <= length h)%nat -> (i < n)%nat -> (n <= k)%nat ->
  down fuel h i n !! k = h !! k.
Proof.
  revert h i. induction fuel as [|fuel IH]; intros h i Hn Hi Hk; [done|].
  rewrite down_S. destruct (Nat.leb_spec n (2 * i + 1)); [done|]. cbv zeta.
  destruct (negb _); [done|].
  set (j := if _ && _ then _ else _).
  assert (j < n)%nat as Hj.
  { subst j. destruct (Nat.ltb_spec (2 * i + 1 + 1) n); simpl; [|lia].
    destruct (Heap.LessAt _ _ _ _ _); lia. }
  rewrite IH; [|rewrite Swap_length; lia|done|done].
  rewrite Swap_lookup by lia.
  rewrite !decide_False by lia. done.
Qed.

Lemma down_heap fuel h i n :
  (n - i <= fuel)%nat -> (n <= length h)%nat -> downInv h i n ->
  heapUpto n (down fuel h i n).
Proof.
  revert h i. induction fuel as [|fuel IH]; intros h i Hf Hn [D1 D2].
  { intros c a b Hc Ha Hb. apply (D1 c a b); [done| |done|done].
    parent_facts. lia. }
  rewrite down_S. destruct (Nat.leb_spec n (2 * i + 1)) as [Hle|Hlt].
  { intros c a b Hc Ha Hb. apply (D1 c a b); [done| |done|done].
    parent_facts. lia. }
  cbv zeta.
  destruct (lookup_lt_is_Some_2 h i ltac:(lia)) as [x Hx].
  destruct (lookup_lt_is_Some_2 h (2 * i + 1)%nat ltac:(lia)) as [y1 Hy1].
  set (j := if _ && _ then _ else _).
  (* [y], at the chosen child [j], is not above the other child *)
  assert (exists y, h !! j = Some y /\ (i < j < n)%nat /\
            ((j - 1) / 2)%nat = i /\
            forall c a, (0 < c < n)%nat -> ((c - 1) / 2)%nat = i ->
              h !! c = Some a -> Less a y = false) as (y & Hy & Hj & Hjp & Hmin).
  { subst j. destruct (Nat.ltb_spec (2 * i + 1 + 1) n) as [H2|H2]; cbn [andb].
    - destruct (lookup_lt_is_Some_2 h (2 * i + 1 + 1)%nat ltac:(lia)) as [y2 Hy2].
      unfold Heap.LessAt. rewrite Hy2, Hy1.
      destruct (Less y2 y1) eqn:E.
      + exists y2. split; [done|]. split; [lia|]. split; [parent_facts; lia|].
        intros c a Hc Hcp Ha.
        assert (c = 2 * i + 1 \/ c = 2 * i + 1 + 1)%nat as [->| ->]
          by (parent_facts; lia).
        * rewrite Hy1 in Ha. injection Ha as <-. by apply (Less_asym flt feq).
        * rewrite Hy2 in Ha. injection Ha as <-. apply (Less_irrefl flt feq).
      + exists y1. split; [done|]. split; [lia|]. split; [parent_facts; lia|].
        intros c a Hc Hcp Ha.
        assert (c = 2 * i + 1 \/ c = 2 * i + 1 + 1)%nat as [->| ->]
          by (parent_facts; lia).
        * rewrite Hy1 in Ha. injection Ha as <-. apply (Less_irrefl flt feq).
        * rewrite Hy2 in Ha. injection Ha as <-. done.
    - exists y1. split; [done|]. split; [lia|]. split; [parent_facts; lia|].
      intros c a Hc Hcp Ha.
      assert (c = 2 * i + 1)%nat as -> by (parent_facts; lia).
      rewrite Hy1 in Ha. injection Ha as <-. apply (Less_irrefl flt feq). }
  clearbody j.
  unfold Heap.LessAt. rewrite Hy, Hx.
  destruct (Less y x) eqn:Hyx; cbn [negb].
  - (* swap and go on *)
    apply IH; [lia|rewrite Swap_length; lia|].
    assert (Hlk : forall k, Swap h i j !! k =
      if decide (k = i) then Some y
      else if decide (k = j) then Some x else h !! k).
    { intros k. rewrite Swap_lookup by lia. rewrite Hx, Hy. done. }
    split.
    + intros c a b Hc Hcp. rewrite !Hlk.
      destruct (decide (c = i)) as [->|Eci].
      * (* the slot [i] against its own parent *)
        assert (0 < i)%nat by lia.
        rewrite (decide_False (P := (((i - 1) / 2)%nat = i))) by (parent_facts; lia).
        rewrite (decide_False (P := (((i - 1) / 2)%nat = j))) by (parent_facts; lia).
        intros [= <-] Hb. apply (D2 j y b); [lia|done|done|done|done].
      * destruct (decide (c = j)) as [->|Ecj].
        -- rewrite decide_True by done. intros [= <-] [= <-].
           by apply (Less_asym flt feq).
        -- destruct (decide (((c - 1) / 2)%nat = i)) as [Ep|Ep].
           ++ intros Ha [= <-]. by apply (Hmin c a).
           ++ rewrite (decide_False (P := (((c - 1) / 2)%nat = j))) by done.
              intros Ha Hb. by apply (D1 c a b).
    + intros c a b Hc Hj0 Hcp. rewrite !Hlk.
      rewrite (decide_False (P := (c = i))) by (parent_facts; lia).
      rewrite (decide_False (P := (c = j))) by (parent_facts; lia).
      rewrite Hjp, (decide_True (P := (i = i))) by done.
      intros Ha [= <-]. apply (D1 c a y); [done|lia|done|by rewrite Hcp].
  - (* in place *)
    intros c a b Hc Ha Hb.
    destruct (decide (((c - 1) / 2)%nat = i)) as [Ep|Ep].
    + rewrite Ep, Hx in Hb. injection Hb as <-.
      eapply (Less_negtrans flt feq); [by apply (Hmin c a)|done].
    + by apply (D1 c a b).
Qed.

Lemma isHeap_nil : isHeap [].
Proof. intros c a b Hc. simpl in Hc. lia. Qed.

(** The root of a heap is a least element. *)
Lemma root_minimal h r :
  isHeap h -> h !! 0%nat = Some r ->
  forall c a, h !! c = Some a -> Less a r = false.
Proof.
  intros Hh Hr c. induction (lt_wf c) as [c _ IH]. intros a Ha.
  destruct (decide (c = 0%nat)) as [->|Hc].
  { rewrite Hr in Ha. injection Ha as <-. apply (Less_irrefl flt feq). }
  pose proof (lookup_lt_Some _ _ _ Ha) as Hlen.
  assert (((c - 1) / 2) < c)%nat as Hp by (parent_facts; lia).
  destruct (lookup_lt_is_Some_2 h ((c - 1) / 2)%nat ltac:(lia)) as [p Hp'].
  eapply (Less_negtrans flt feq).
  - apply (Hh c a p); [lia|done|done].
  - by apply (IH ((c - 1) / 2)%nat).
Qed.

Lemma Push_length h x : length (Heap.Push flt feq h x) = S (length h).
Proof. unfold Heap.Push. rewrite up_length, length_app. simpl. lia. Qed.

Lemma Push_perm h x : Heap.Push flt feq h x ≡ₚ x :: h.
Proof.
  unfold Heap.Push. rewrite up_perm. by rewrite Permutation_app_comm.
Qed.

Lemma Push_heap h x : isHeap h -> isHeap (Heap.Push flt feq h x).
Proof.
  intros Hh. unfold Heap.Push.
  assert (length (h ++ [x]) - 1 = length h)%nat as ->
    by (rewrite length_app; simpl; lia).
  apply up_heap.
  - rewrite length_app. simpl. lia.
  - rewrite length_app. simpl. lia.
  - split.
    + intros c a b Hc Hne Ha Hb.
      pose proof (lookup_lt_Some _ _ _ Ha) as Hlen.
      rewrite length_app in Hlen. simpl in Hlen.
      assert (((c - 1) / 2) < c)%nat by (parent_facts; lia).
      rewrite lookup_app_l in Ha by lia.
      rewrite lookup_app_l in Hb by lia.
      apply (Hh c a b); [lia|done|done].
    + intros c a b Hc Hj Hcp Ha Hb.
      pose proof (lookup_lt_Some _ _ _ Ha) as Hlen.
      rewrite length_app in Hlen. simpl in Hlen.
      exfalso. parent_facts. lia.
Qed.

Lemma Pop_spec h :
  h <> [] ->
  exists x h',
    Heap.Pop flt feq h = Some (x, h') /\
    h !! 0%nat = Some x /\
    h ≡ₚ x :: h' /\
    (isHeap h -> isHeap h').
Proof.
  intros Hne. destruct h as [|r t]; [done|].
  unfold Heap.Pop. set (h := r :: t). set (n := (length h - 1)%nat).
  assert (length h = S n) as Hlen by (subst n h; simpl; lia).
  set (h1 := Heap.down flt feq n (Swap h 0 n) 0 n).
  assert (length h1 = S n) as Hlen1
    by (subst h1; rewrite down_length, Swap_length; done).
  assert (h1 !! n = Some r) as Hlast.
  { subst h1. destruct (decide (n = 0%nat)) as [E|E].
    - rewrite E. simpl. unfold Heap.Swap. simpl. rewrite E in Hlen.
      destruct t; [done|simpl in Hlen; lia].
    - rewrite down_lookup_ge; [|rewrite Swap_length; lia|lia|lia].
      rewrite Swap_lookup by lia.
      rewrite (decide_False (P := (n = 0%nat))) by done.
      rewrite decide_True by done. done. }
  rewrite last_lookup, Hlen1. simpl. rewrite Hlast.
  exists r, (take n h1). split; [done|]. split; [done|].
  assert (h1 = take n h1 ++ [r]) as Hsplit.
  { rewrite <- (take_drop_middle h1 n r Hlast) at 1.
    rewrite drop_ge by lia. done. }
  split.
  - transitivity h1.
    + subst h1. by rewrite down_perm, Swap_perm.
    + rewrite Hsplit at 1. by rewrite Permutation_app_comm.
  - intros Hh c a b Hc Ha Hb.
    rewrite length_take, Hlen1 in Hc.
    assert (((c - 1) / 2) < c)%nat by (parent_facts; lia).
    rewrite lookup_take_lt in Ha by lia.
    rewrite lookup_take_lt in Hb by lia.
    assert (heapUpto n h1) as Hup; [|apply (Hup c a b); [lia|done|done]].
    subst h1. apply down_heap; [lia|rewrite Swap_length; lia|].
    split; [|lia].
    intros c' a' b' Hc' Hcp'.
    assert (((c' - 1) / 2) < c')%nat by (parent_facts; lia).
    rewrite !Swap_lookup by lia.
    rewrite !decide_False by lia.
    intros Ha' Hb'. apply (Hh c' a' b'); [lia|done|done].
Qed.
End HeapFacts.

(** ** The insertion step keeps the best [k] *)

Lemma filter_all {A} (P : A -> Prop) `{!forall x, Decision (P x)} (l : list A) :
  (forall x, x ∈ l -> P x) -> filter P l = l.
Proof.
  induction l as [|a l IH]; intros HP; [done|].
  rewrite filter_cons_True by (apply HP; by left).
  f_equal. apply IH. intros x Hx. apply HP. by right.
Qed.

Lemma filter_none {A} (P : A -> Prop) `{!forall x, Decision (P x)} (l : list A) :
  (forall x, x ∈ l -> ~ P x) -> filter P l = [].
Proof.
  induction l as [|a l IH]; intros HP; [done|].
  rewrite filter_cons_False by (apply HP; by left).
  apply IH. intros x Hx. apply HP. by right.
Qed.

Section TopK.
Context {F : Type} (flt feq : F -> F -> bool) `{!ScoreOrder flt feq}.
Local Abbreviation Less := (Heap.Less flt feq).
Local Abbreviation offer := (Heap.offer flt feq).
Local Abbreviation isHeap := (isHeap flt feq).
Local Abbreviation sel := (sel flt feq).
Implicit Types h S D X : list (scoredPhoto F).

Lemma sel_nil k : sel k [] [] [].
Proof. split; [done|]. split; [simpl; lia|]. intros s d Hs. by apply elem_of_nil in Hs. Qed.

Lemma sel_short k S D X : sel k S D X -> (length S < k)%nat -> D = [].
Proof.
  intros (Hp & Hl & _) Hlt. apply Permutation_length in Hp.
  rewrite length_app in Hp. destruct D; [done|]. simpl in Hp. lia.
Qed.

Lemma offer_step (k : Z) h D X x :
  0 < k -> isHeap h -> sel (Z.to_nat k) h D X ->
  isHeap (offer k h x) /\ exists D', sel (Z.to_nat k) (offer k h x) D' (x :: X).
Proof.
  intros Hk Hh Hsel. unfold Heap.offer.
  destruct (Z.ltb_spec (Z.of_nat (length h)) k) as [Hlt|Hge].
  - split; [by apply Push_heap|].
    exists []. rewrite (sel_short _ _ _ _ Hsel) in Hsel by lia.
    destruct Hsel as (Hp & Hl & _). rewrite app_nil_r in Hp.
    split; [|split].
    + rewrite app_nil_r, Push_perm by done. by constructor.
    + rewrite Push_length by done. simpl. apply Permutation_length in Hp. lia.
    + intros s d _ Hd. by apply elem_of_nil in Hd.
  - destruct Hsel as (Hp & Hl & Hdom).
    assert (length h = Z.to_nat k) as Hlen by lia.
    destruct h as [|root t] eqn:Eh; [simpl in Hlen; lia|]. rewrite <- Eh in *.
    assert (h !! 0%nat = Some root) as Hroot by (by rewrite Eh).
    assert (Hmin : forall s, s ∈ h -> Less s root = false).
    { intros s Hs. apply list_elem_of_lookup in Hs as [c Hc].
      by apply (root_minimal flt feq h root Hh Hroot c). }
    rewrite (shouldReplace_Less flt feq).
    destruct (Less root x) eqn:Hrx.
    + destruct (Pop_spec flt feq h) as (r & h0 & HPop & Hr & Hperm & Hheap).
      { by rewrite Eh. }
      rewrite HPop. assert (r = root) as -> by congruence.
      split; [apply Push_heap; auto|].
      exists (root :: D). split; [|split].
      * rewrite Push_perm by done. rewrite <- Hp, Hperm. simpl.
        constructor. by rewrite Permutation_middle.
      * rewrite Push_length by done. simpl.
        apply Permutation_length in Hperm. simpl in Hperm.
        apply Permutation_length in Hp. rewrite length_app in Hp. lia.
      * intros s d Hs Hd. rewrite Push_perm in Hs by done.
        assert (Less x root = false) as Hxr by (by apply (Less_asym flt feq)).
        assert (forall s', s' ∈ h0 -> s' ∈ h) as Hin.
        { intros s' Hs'. rewrite Hperm. by right. }
        apply elem_of_cons in Hs as [->|Hs]; apply elem_of_cons in Hd as [->|Hd].
        -- done.
        -- eapply (Less_negtrans flt feq); [exact Hxr|]. apply Hdom; [|done].
           rewrite Eh. by left.
        -- apply Hmin. by apply Hin.
        -- apply Hdom; [by apply Hin|done].
    + split; [done|]. exists (x :: D). split; [|split].
      * rewrite <- Hp. by rewrite <- Permutation_middle.
      * simpl. apply Permutation_length in Hp. rewrite length_app in Hp. lia.
      * intros s d Hs Hd. apply elem_of_cons in Hd as [->|Hd].
        -- eapply (Less_negtrans flt feq); [by apply Hmin|done].
        -- by apply Hdom.
Qed.

(** Offering a whole sequence. *)
Lemma offer_all (k : Z) xs h D X :
  0 < k -> isHeap h -> sel (Z.to_nat k) h D X ->
  isHeap (fold_left (offer k) xs h) /\
  exists D', sel (Z.to_nat k) (fold_left (offer k) xs h) D' (X ++ xs).
Proof.
  intros Hk. revert h D X. induction xs as [|x xs IH]; intros h D X Hh Hsel.
  - simpl. split; [done|]. exists D. by rewrite app_nil_r.
  - simpl. destruct (offer_step k h D X x Hk Hh Hsel) as (Hh' & D' & Hsel').
    destruct (IH _ _ _ Hh' Hsel') as (Hh'' & D'' & Hsel'').
    split; [done|]. exists D''. destruct Hsel'' as (Hp & Hl & Hd).
    split; [|split; [|done]].
    + rewrite Hp. simpl. by rewrite Permutation_middle.
    + rewrite Hl. rewrite !length_app. simpl. f_equal. lia.
Qed.

Lemma offer_all_nil (k : Z) xs :
  0 < k ->
  isHeap (fold_left (offer k) xs []) /\
  exists D, sel (Z.to_nat k) (fold_left (offer k) xs []) D xs.
Proof.
  intros Hk.
  destruct (offer_all k xs [] [] [] Hk (isHeap_nil flt feq) (sel_nil _))
    as (Hh & D & Hs). split; [done|]. by exists D.
Qed.

(** Selecting from [Y] together with a selection of [X] selects from
    [Y ++ X]: what BSP's reduction relies on. *)
Lemma sel_merge (k : nat) S E Y h D X :
  (0 < k)%nat ->
  sel k S E (Y ++ h) -> sel k h D X -> sel k S (E ++ D) (Y ++ X).
Proof.
  intros Hk (Hp & Hl & Hdom) (Hp' & Hl' & Hdom').
  split; [|split].
  - rewrite app_assoc, Hp, <- Hp'. by rewrite app_assoc.
  - rewrite Hl, !length_app, Hl'. lia.
  - intros s d Hs Hd. apply elem_of_app in Hd as [Hd|Hd]; [by apply Hdom|].
    destruct (Less s d) eqn:Hsd; [exfalso|done].
    (* [h] is full, and every element of it is at least [d] *)
    assert (length h = k) as Hfull.
    { apply Permutation_length in Hp'. rewrite length_app in Hp'.
      destruct D; [by apply elem_of_nil in Hd|]. simpl in Hp'. lia. }
    pose (P := fun x : scoredPhoto F => Less x d = false).
    assert (length (filter P (Y ++ h)) >= k)%nat as Hmany.
    { rewrite filter_app, length_app.
      assert (filter P h = h) as ->; [|lia].
      apply filter_all. intros x Hx. unfold P. by apply Hdom'. }
    assert (length (filter P (S ++ E)) < k)%nat as Hfew.
    { rewrite filter_app, length_app.
      assert (filter P E = []) as ->.
      { apply filter_none. intros e He. unfold P.
        intros Hed. pose proof (Hdom s e Hs He) as Hse.
        rewrite (Less_negtrans flt feq s e d Hse Hed) in Hsd. done. }
      simpl. pose proof (length_filter_lt P S s Hs) as Hlt.
      unfold P in Hlt at 1. rewrite Hsd in Hlt. specialize (Hlt ltac:(done)).
      lia. }
    rewrite Hp in Hfew. lia.
Qed.
End TopK.

(** ** What the rankers return *)

Lemma StronglySorted_weaken {A} (R1 R2 : A -> A -> Prop) (l : list A) :
  (forall a b, R1 a b -> R2 a b) -> StronglySorted R1 l -> StronglySorted R2 l.
Proof.
  intros HR. induction 1 as [|a l Hs IH Hf]; constructor; [done|].
  eapply Forall_impl; [exact Hf|]. intros b. apply HR.
Qed.

Section RankerFacts.
Context {F : Type} (flt feq : F -> F -> bool) `{!ScoreOrder flt feq}.
Variable Score : gostring -> PhotoMetadata -> F.
Variable sort_Slice :
  (scoredPhoto F -> scoredPhoto F -> bool) ->
  list (scoredPhoto F) -> list (scoredPhoto F).
Context `{!SortContract sort_Slice}.

Local Abbreviation Less := (Heap.Less flt feq).
Local Abbreviation offer := (Heap.offer flt feq).
Local Abbreviation drain := (Heap.drain flt feq).
Local Abbreviation sortLess := (Heap.sortLess flt feq).
Local Abbreviation isHeap := (isHeap flt feq).
Local Abbreviation sel := (sel flt feq).
Local Abbreviation descending := (descending flt feq).
Local Abbreviation topKOutput := (topKOutput flt feq Score).
Local Abbreviation scored := (Rankers.scored Score).
Local Abbreviation scoreInto := (Rankers.scoreInto flt feq Score).
Local Abbreviation rankedPhotos := (Rankers.rankedPhotos flt feq sort_Slice).
Implicit Types h S D X : list (scoredPhoto F).

Lemma popAll_perm fuel h :
  length h = fuel -> Heap.popAll flt feq fuel h ≡ₚ h.
Proof.
  revert h. induction fuel as [|fuel IH]; intros h Hl.
  - destruct h; [done|simpl in Hl; lia].
  - simpl. destruct (Pop_spec flt feq h) as (x & h' & HPop & _ & Hp & _).
    { intros ->. simpl in Hl. lia. }
    rewrite HPop, Hp. constructor. apply IH.
    apply Permutation_length in Hp. simpl in Hp. lia.
Qed.

Lemma drain_perm h : drain h ≡ₚ h.
Proof. by apply popAll_perm. Qed.

Lemma sorted_spec l :
  sort_Slice sortLess l ≡ₚ l /\ descending (sort_Slice sortLess l).
Proof.
  split; [apply sort_Slice_perm|].
  unfold descending.
  assert (forall a b, Less a b = sortLess b a) as E
    by (intros; by rewrite (sortLess_Less flt feq)).
  eapply (StronglySorted_weaken (fun a b => sortLess b a = false)).
  { intros a b. by rewrite E. }
  apply sort_Slice_sorted.
  - intros x. rewrite (sortLess_Less flt feq). apply (Less_irrefl flt feq).
  - intros x y z. rewrite !(sortLess_Less flt feq). intros H1 H2.
    eapply (Less_trans flt feq); eauto.
  - intros x y z. rewrite !(sortLess_Less flt feq). intros H1 H2.
    eapply (Less_negtrans flt feq); eauto.
Qed.

Lemma sel_perm k S S' D X X' :
  sel k S D X -> S ≡ₚ S' -> X ≡ₚ X' -> sel k S' D X'.
Proof.
  intros (Hp & Hl & Hd) HS HX. split; [|split].
  - by rewrite <- HS, <- HX.
  - by rewrite <- HS, <- HX.
  - intros s d Hs. apply Hd. by rewrite HS.
Qed.

Lemma ranked_front query k photos h D :
  sel (Z.to_nat k) h D (scored query <$> photos) ->
  topKOutput query k photos (photo <$> sort_Slice sortLess (drain h)).
Proof.
  intros Hsel. destruct (sorted_spec (drain h)) as [Hp Hs].
  exists (sort_Slice sortLess (drain h)), D. split; [done|]. split; [done|].
  eapply sel_perm; [exact Hsel| |done]. by rewrite Hp, drain_perm.
Qed.

Lemma ranked_back query k photos h D :
  sel (Z.to_nat k) h D (scored query <$> photos) ->
  topKOutput query k photos (rankedPhotos h).
Proof.
  intros Hsel. unfold Rankers.rankedPhotos.
  destruct (sorted_spec (rev (drain h))) as [Hp Hs].
  exists (sort_Slice sortLess (rev (drain h))), D. split; [done|]. split; [done|].
  eapply sel_perm; [exact Hsel| |done].
  by rewrite Hp, <- Permutation_rev, drain_perm.
Qed.

Lemma scoreInto_fold query k h photos :
  scoreInto query k h photos = fold_left (offer k) (scored query <$> photos) h.
Proof.
  revert h. induction photos as [|p ps IH]; intros h; [done|]. simpl. apply IH.
Qed.

Lemma topKOutput_nil query k : topKOutput query k [] [].
Proof.
  exists [], []. split; [done|]. split; [constructor|]. apply sel_nil.
Qed.

(** The sequential ranker. *)
Lemma Rank_topK query photos k :
  0 < k ->
  topKOutput query k photos (Rankers.Rank flt feq Score sort_Slice query photos k).
Proof.
  intros Hk. unfold Rankers.Rank.
  destruct (Z.leb_spec k 0); [lia|]. simpl.
  destruct photos as [|p ps] eqn:E; [apply topKOutput_nil|]. rewrite <- E.
  assert ((length photos =? 0)%nat = false) as -> by (by rewrite E).
  rewrite scoreInto_fold.
  destruct (offer_all_nil flt feq k (scored query <$> photos) Hk) as (_ & D & Hsel).
  by eapply ranked_front.
Qed.

(** The collector of the pipeline and of the work-stealing ranker,
    fed the scored candidates in any order. *)
Lemma collect_topK query photos k arrival :
  0 < k -> arrival ≡ₚ scored query <$> photos ->
  topKOutput query k photos (rankedPhotos (fold_left (offer k) arrival [])).
Proof.
  intros Hk Hperm.
  destruct (offer_all_nil flt feq k arrival Hk) as (_ & D & Hsel).
  eapply ranked_back. eapply sel_perm; [exact Hsel|done|done].
Qed.
End RankerFacts.

(** *** The chunks of BSP *)

Lemma slice_Some {A} (s : list A) lo hi c :
  slice s lo hi = Some c ->
  0 <= lo <= hi /\ hi <= Z.of_nat (length s) /\
  c = take (Z.to_nat (hi - lo)) (drop (Z.to_nat lo) s).
Proof.
  unfold slice. destruct (Z.leb_spec 0 lo), (Z.leb_spec lo hi),
    (Z.leb_spec hi (Z.of_nat (length s))); simpl; intros [= <-]; lia || (split; [lia|done]).
Qed.

Lemma clampWorkers_range dflt numWorkers n :
  0 < dflt -> (0 < n)%nat ->
  1 <= Rankers.clampWorkers dflt numWorkers n <= Z.of_nat n.
Proof.
  intros Hd Hn. unfold Rankers.clampWorkers.
  destruct (Z.leb_spec numWorkers 0);
    [destruct (Z.gtb_spec dflt (Z.of_nat n))|destruct (Z.gtb_spec numWorkers (Z.of_nat n))]; lia.
Qed.

Lemma ceil_quot n W : 0 <= n -> 0 < W ->
  let cs := (n + W - 1) `quot` W in n <= W * cs /\ 0 <= cs /\ (0 < n -> 0 < cs).
Proof.
  intros Hn HW cs. subst cs. rewrite Z.quot_div_nonneg by lia.
  pose proof (Z.div_mod (n + W - 1) W ltac:(lia)).
  pose proof (Z.mod_pos_bound (n + W - 1) W ltac:(lia)).
  split; [lia|]. split; [apply Z.div_pos; lia|].
  intros. apply Z.div_str_pos. lia.
Qed.

(** The chunks handed to the first [w] workers make up a prefix of
    [photos]. *)
Lemma chunks_prefix (photos : list PhotoMetadata) cs w chunks :
  0 <= cs ->
  Forall2 (fun i c => Rankers.photoChunk photos cs (Z.of_nat i) = Some c)
          (seq 0 w) chunks ->
  concat chunks =
    take (Z.to_nat (Z.min (Z.of_nat w * cs) (Z.of_nat (length photos)))) photos.
Proof.
  intros Hcs. revert chunks. induction w as [|w IH]; intros chunks Hall.
  - apply Forall2_nil_inv_l in Hall as ->.
    replace (Z.to_nat _) with 0%nat by lia. done.
  - rewrite seq_S in Hall. apply Forall2_app_inv_l in Hall
      as (c1 & c2 & H1 & H2 & ->).
    apply Forall2_cons_inv_l in H2 as (c & c3 & Hc & H3 & ->).
    apply Forall2_nil_inv_l in H3 as ->.
    rewrite concat_app, (IH c1 H1). simpl. rewrite app_nil_r.
    simpl in Hc. unfold Rankers.photoChunk in Hc.
    apply slice_Some in Hc as (Hlo & Hhi & ->).
    set (n := Z.of_nat (length photos)) in *.
    set (e := if (Z.of_nat w + 1) * cs >? n then n else (Z.of_nat w + 1) * cs) in *.
    assert (e = Z.min (Z.of_nat (S w) * cs) n) as He.
    { subst e. destruct (Z.gtb_spec ((Z.of_nat w + 1) * cs) n); lia. }
    assert (Z.min (Z.of_nat w * cs) n = Z.of_nat w * cs) as -> by lia.
    rewrite take_take_drop. f_equal. lia.
Qed.

Lemma chunks_cover (photos : list PhotoMetadata) W chunks :
  1 <= W ->
  mapM (fun i => Rankers.photoChunk photos
                   ((Z.of_nat (length photos) + W - 1) `quot` W) (Z.of_nat i))
       (seq 0 (Z.to_nat W)) = Some chunks ->
  concat chunks = photos.
Proof.
  intros HW Hm. apply mapM_Some in Hm.
  destruct (ceil_quot (Z.of_nat (length photos)) W) as (H1 & H2 & _); [lia|lia|].
  rewrite (chunks_prefix _ _ _ _ H2 Hm).
  apply take_ge. rewrite Z2Nat.id by lia. lia.
Qed.

Lemma chunks_defined (photos : list PhotoMetadata) cs W :
  0 <= cs -> 
  (Z.of_nat W - 1) * cs <= Z.of_nat (length photos) ->
  exists chunks,
    mapM (fun i => Rankers.photoChunk photos cs (Z.of_nat i)) (seq 0 W)
      = Some chunks.
Proof.
  intros Hcs Hr.
  assert (forall i, i ∈ seq 0 W ->
            is_Some (Rankers.photoChunk photos cs (Z.of_nat i))) as Hall.
  { intros i Hi. apply elem_of_seq in Hi.
    unfold Rankers.photoChunk, slice.
    set (n := Z.of_nat (length photos)) in *.
    assert (Z.of_nat i * cs <= n) by nia.
    destruct (Z.gtb_spec ((Z.of_nat i + 1) * cs) n).
    - destruct (Z.leb_spec 0 (Z.of_nat i * cs)); [|nia].
      destruct (Z.leb_spec (Z.of_nat i * cs) n); [|lia].
      destruct (Z.leb_spec n n); [|lia]. simpl. eauto.
    - destruct (Z.leb_spec 0 (Z.of_nat i * cs)); [|nia].
      destruct (Z.leb_spec (Z.of_nat i * cs) ((Z.of_nat i + 1) * cs)); [|nia].
      destruct (Z.leb_spec ((Z.of_nat i + 1) * cs) n); [|lia]. simpl. eauto. }
  apply (mapM_is_Some_2 _ (seq 0 W)). by apply Forall_forall.
Qed.

Lemma chunks_undefined (photos : list PhotoMetadata) cs W :
  (0 < W)%nat ->
  Z.of_nat (length photos) < (Z.of_nat W - 1) * cs ->
  mapM (fun i => Rankers.photoChunk photos cs (Z.of_nat i)) (seq 0 W) = None.
Proof.
  intros HW Hr.
  destruct (mapM _ _) as [chunks|] eqn:E; [exfalso|done].
  apply mapM_Some in E.
  assert ((W - 1)%nat ∈ seq 0 W) as Hi by (apply elem_of_seq; lia).
  apply list_elem_of_lookup in Hi as [j Hj].
  destruct (Forall2_lookup_l _ _ _ _ _ E Hj) as (c & _ & Hc).
  unfold Rankers.photoChunk in Hc. apply slice_Some in Hc as (H1 & H2 & _).
  replace (Z.of_nat (W - 1)) with (Z.of_nat W - 1) in * by lia.
  destruct (Z.gtb_spec ((Z.of_nat W - 1 + 1) * cs) (Z.of_nat (length photos))); lia.
Qed.

Section BSPFacts.
Context {F : Type} (flt feq : F -> F -> bool) `{!ScoreOrder flt feq}.
Variable Score : gostring -> PhotoMetadata -> F.
Variable sort_Slice :
  (scoredPhoto F -> scoredPhoto F -> bool) ->
  list (scoredPhoto F) -> list (scoredPhoto F).
Context `{!SortContract sort_Slice}.

Local Abbreviation Less := (Heap.Less flt feq).
Local Abbreviation offer := (Heap.offer flt feq).
Local Abbreviation drain := (Heap.drain flt feq).
Local Abbreviation isHeap := (isHeap flt feq).
Local Abbreviation sel := (sel flt feq).
Local Abbreviation scored := (Rankers.scored Score).
Local Abbreviation scoreInto := (Rankers.scoreInto flt feq Score).
Local Abbreviation topKOutput := (topKOutput flt feq Score).
Local Abbreviation descending := (descending flt feq).
Local Abbreviation tiesAreEqual := (tiesAreEqual Score).
Implicit Types h S D X : list (scoredPhoto F).

(** The reduction, started from any heap [f] that selects from [Y]. *)
Lemma reduce_sel query (k : Z) chunks f E Y :
  0 < k -> isHeap f -> sel (Z.to_nat k) f E Y ->
  let f' := fold_left
      (fun finalHeap localH => fold_left (offer k) (drain localH) finalHeap)
      (scoreInto query k [] <$> chunks) f in
  isHeap f' /\ exists E', sel (Z.to_nat k) f' E' (Y ++ (scored query <$> concat chunks)).
Proof.
  intros Hk. revert f E Y.
  induction chunks as [|c cs IH]; intros f E Y Hf Hsel; simpl.
  - split; [done|]. exists E. by rewrite app_nil_r.
  - set (localH := scoreInto query k [] c).
    destruct (offer_all_nil flt feq k (scored query <$> c) Hk) as (_ & D & HselL).
    rewrite <- (scoreInto_fold flt feq Score) in HselL. fold localH in HselL.
    destruct (offer_all flt feq k (drain localH) f E Y Hk Hf Hsel)
      as (Hf1 & E1 & Hsel1).
    assert (sel (Z.to_nat k) (fold_left (offer k) (drain localH) f) E1 (Y ++ localH))
      as Hsel1'.
    { eapply sel_perm; [exact Hsel1|done|]. by rewrite (drain_perm flt feq). }
    pose proof (sel_merge flt feq (Z.to_nat k) _ _ _ _ _ _ ltac:(lia) Hsel1' HselL)
      as Hm.
    destruct (IH _ _ _ Hf1 Hm) as (Hf2 & E2 & Hsel2).
    split; [done|]. exists E2. by rewrite fmap_app, app_assoc.
Qed.

Lemma RankBSP_degenerate t0 t1 query photos k numWorkers :
  k <= 0 \/ photos = [] ->
  Rankers.RankBSP flt feq Score sort_Slice t0 t1 query photos k numWorkers
    = Some ([], t1 - t0).
Proof.
  intros H. unfold Rankers.RankBSP.
  destruct (Z.leb_spec k 0); [done|]. destruct H as [?| ->]; [lia|done].
Qed.

(** When [RankBSP] returns, it returns a top-[k] list. *)
Lemma RankBSP_topK t0 t1 query photos k numWorkers out dur :
  0 < k ->
  Rankers.RankBSP flt feq Score sort_Slice t0 t1 query photos k numWorkers
    = Some (out, dur) ->
  topKOutput query k photos out /\ dur = t1 - t0.
Proof.
  intros Hk. unfold Rankers.RankBSP.
  destruct (Z.leb_spec k 0); [lia|]. simpl.
  destruct (Nat.eqb_spec (length photos) 0) as [E|E].
  { intros [= <- <-]. destruct photos; [|done]. split; [|done].
    apply topKOutput_nil. }
  pose proof (clampWorkers_range 1 numWorkers (length photos) ltac:(lia) ltac:(lia)) as HW.
  destruct (mapM _ _) as [chunks|] eqn:Hm; simpl; [|done].
  intros [= <- <-]. split; [|done].
  pose proof (chunks_cover photos _ chunks (proj1 HW) Hm) as Hcat.
  unfold Rankers.reduceHeaps.
  destruct (reduce_sel query k chunks [] [] [] Hk (isHeap_nil flt feq) (sel_nil flt feq _))
    as (_ & E' & Hsel).
  simpl in Hsel. rewrite Hcat in Hsel.
  by eapply ranked_back.
Qed.

(** [RankBSP] returns exactly when no slice expression is out of
    range. *)
Lemma RankBSP_returns_iff t0 t1 query photos k numWorkers :
  0 < k -> photos <> [] ->
  is_Some (Rankers.RankBSP flt feq Score sort_Slice t0 t1 query photos k numWorkers)
  <-> chunksInRange (length photos) numWorkers.
Proof.
  intros Hk Hne. unfold Rankers.RankBSP, chunksInRange.
  destruct (Z.leb_spec k 0); [lia|]. simpl.
  destruct (Nat.eqb_spec (length photos) 0) as [E|E].
  { destruct photos; done. }
  pose proof (clampWorkers_range 1 numWorkers (length photos) ltac:(lia) ltac:(lia)) as HW.
  set (W := Rankers.clampWorkers 1 numWorkers (length photos)) in *.
  destruct (ceil_quot (Z.of_nat (length photos)) W) as (H1 & H2 & _); [lia|lia|].
  set (cs := (Z.of_nat (length photos) + W - 1) `quot` W) in *.
  destruct (Z.le_gt_cases ((W - 1) * cs) (Z.of_nat (length photos))) as [Hr|Hr].
  - destruct (chunks_defined photos cs (Z.to_nat W) H2) as [chunks Hc]; [lia|].
    rewrite Hc. simpl. split; [done|eauto].
  - rewrite (chunks_undefined photos cs (Z.to_nat W)) by lia. simpl.
    split; [intros [? ?]; done|lia].
Qed.

(** *** Uniqueness of the top-[k] list *)

Local Instance geq_dec : RelDecision (fun a b : scoredPhoto F => Less a b = false).
Proof. intros a b. apply _. Defined.

Local Instance geq_total : Total (fun a b : scoredPhoto F => Less a b = false).
Proof.
  intros a b. destruct (Less a b) eqn:E; [right|by left].
  by apply (Less_asym flt feq).
Qed.

Local Instance geq_trans : Transitive (fun a b : scoredPhoto F => Less a b = false).
Proof. intros a b c. apply (Less_negtrans flt feq). Qed.

Lemma topKOutput_unique query k photos out1 out2 :
  tiesAreEqual query photos ->
  topKOutput query k photos out1 -> topKOutput query k photos out2 ->
  out1 = out2.
Proof.
  intros Hties (S1 & D1 & -> & Hs1 & Hp1 & Hl1 & Hd1)
               (S2 & D2 & -> & Hs2 & Hp2 & Hl2 & Hd2).
  f_equal.
  set (R := fun a b : scoredPhoto F => Less a b = false) in *.
  assert (S1 ++ merge_sort R D1 = S2 ++ merge_sort R D2) as Heq.
  { apply (StronglySorted_unique_strong R).
    - intros x1 x2 Hx1 Hx2 H12 H21.
      assert (x1 ∈ scored query <$> photos) as Hin1.
      { rewrite <- Hp1. rewrite elem_of_app in Hx1 |- *.
        destruct Hx1 as [?|Hx1]; [by left|right]. by rewrite merge_sort_Permutation in Hx1. }
      assert (x2 ∈ scored query <$> photos) as Hin2.
      { rewrite <- Hp2. rewrite elem_of_app in Hx2 |- *.
        destruct Hx2 as [?|Hx2]; [by left|right]. by rewrite merge_sort_Permutation in Hx2. }
      apply list_elem_of_fmap in Hin1 as (p1 & -> & Hp1').
      apply list_elem_of_fmap in Hin2 as (p2 & -> & Hp2').
      destruct (Less_tied flt feq _ _ H12 H21) as (Hs & Hd & Hi). simpl in *.
      f_equal. by apply Hties.
    - apply StronglySorted_app_2; [|done|apply StronglySorted_merge_sort; apply _].
      intros x1 x2 Hx1 Hx2. rewrite merge_sort_Permutation in Hx2. by apply Hd1.
    - apply StronglySorted_app_2; [|done|apply StronglySorted_merge_sort; apply _].
      intros x1 x2 Hx1 Hx2. rewrite merge_sort_Permutation in Hx2. by apply Hd2.
    - rewrite !merge_sort_Permutation. by rewrite Hp1, Hp2. }
  apply app_inj_1 in Heq as [? _]; [done|lia].
Qed.
End BSPFacts.

(** ** Instances: real scores, insertion sort *)

Global Instance R_ScoreOrder : ScoreOrder Rltb Reqb.
Proof.
  unfold Rltb, Reqb. constructor.
  - intros x y. destruct (Req_dec_T x y); split; congruence.
  - intros x. destruct (Rlt_dec x x); [lra|done].
  - intros x y z. destruct (Rlt_dec x y), (Rlt_dec y z), (Rlt_dec x z); try done. lra.
  - intros x y. destruct (Rlt_dec x y), (Rlt_dec y x); auto. right. left. lra.
Qed.

Global Instance Z_ScoreOrder : ScoreOrder Z.ltb Z.eqb.
Proof.
  constructor.
  - intros x y. apply Z.eqb_eq.
  - intros x. apply Z.ltb_irrefl.
  - intros x y z. rewrite !Z.ltb_lt. lia.
  - intros x y. rewrite !Z.ltb_lt. lia.
Qed.

Section InsertionSort.
Context {F : Type}.
Implicit Types less : scoredPhoto F -> scoredPhoto F -> bool.

Lemma sink_perm less x l : Heap.sink less x l ≡ₚ x :: l.
Proof.
  induction l as [|y l IH]; simpl; [done|].
  destruct (less x y); [|done]. rewrite IH. apply perm_swap.
Qed.

Lemma insertionSort_perm less data : Heap.insertionSort less data ≡ₚ data.
Proof.
  unfold Heap.insertionSort. rewrite <- Permutation_rev.
  assert (forall acc, fold_left (fun sortedRev x => Heap.sink less x sortedRev) data acc
                      ≡ₚ acc ++ data) as H.
  { induction data as [|x data IH]; intros acc; simpl; [by rewrite app_nil_r|].
    rewrite IH, sink_perm. by rewrite <- Permutation_middle. }
  apply (H []).
Qed.

Lemma sink_sorted less x l :
  (forall x, less x x = false) ->
  (forall x y z, less x y = true -> less y z = true -> less x z = true) ->
  (forall x y z, less x y = false -> less y z = false -> less x z = false) ->
  StronglySorted (fun a b => less a b = false) l ->
  StronglySorted (fun a b => less a b = false) (Heap.sink less x l).
Proof.
  intros Hirr Htr Hneg. induction 1 as [|y l Hs IH Hf]; simpl.
  - repeat constructor.
  - destruct (less x y) eqn:E.
    + constructor; [done|].
      rewrite sink_perm. constructor; [|done].
      destruct (less y x) eqn:E2; [|done].
      by rewrite <- (Hirr x), (Htr x y x E E2).
    + constructor; [by constructor|]. constructor; [done|].
      eapply Forall_impl; [exact Hf|]. intros z Hz. simpl in Hz. eauto.
Qed.

Lemma StronglySorted_rev {A} (R : A -> A -> Prop) (l : list A) :
  StronglySorted R l -> StronglySorted (fun a b => R b a) (rev l).
Proof.
  induction 1 as [|a l Hs IH Hf]; simpl; [constructor|].
  apply StronglySorted_app_2; [|done|repeat constructor].
  intros x1 x2 Hx1 Hx2. apply list_elem_of_singleton in Hx2 as ->.
  rewrite Forall_forall in Hf. apply Hf.
  apply list_elem_of_In. apply in_rev. by apply list_elem_of_In.
Qed.

Global Instance insertionSort_contract : SortContract (@Heap.insertionSort F).
Proof.
  constructor.
  - apply insertionSort_perm.
  - intros less data Hirr Htr Hneg. unfold Heap.insertionSort.
    apply (StronglySorted_rev (fun a b => less a b = false)).
    assert (forall acc, StronglySorted (fun a b => less a b = false) acc ->
              StronglySorted (fun a b => less a b = false)
                (fold_left (fun sortedRev x => Heap.sink less x sortedRev) data acc))
      as H.
    { induction data as [|x data IH]; intros acc Hacc; simpl; [done|].
      apply IH. by apply sink_sorted. }
    apply H. constructor.
Qed.
End InsertionSort.

(** Two candidates that tie on score, downloads and id: [Rank] keeps
    them in input order, the back-filling rankers swap them. *)
Section Ties.
Context {F : Type} (flt feq : F -> F -> bool) `{!ScoreOrder flt feq}.
Variable Score : gostring -> PhotoMetadata -> F.






End Ties.

(** ** Work stealing: every run ends, and every task is scored once *)

Lemma concat_insert_perm {A} (l : list (list A)) i x y :
  l !! i = Some x -> concat (<[i:=y]> l) ++ x ≡ₚ concat l ++ y.
Proof.
  revert i. induction l as [|a l IH]; intros [|i] Hl; simpl in *; try done.
  - injection Hl as ->. rewrite <- !app_assoc.
    rewrite (Permutation_app_comm y), <- app_assoc.
    by rewrite (app_assoc x), (Permutation_app_comm x (concat l)), <- app_assoc.
  - rewrite <- !app_assoc. f_equiv. by apply IH.
Qed.

Lemma concat_insert_grow {A} (l : list (list A)) i x y t :
  l !! i = Some x -> y ≡ₚ t :: x -> concat (<[i:=y]> l) ≡ₚ t :: concat l.
Proof.
  intros Hl Hy. pose proof (concat_insert_perm l i x y Hl) as Hp.
  apply (Permutation_app_inv_r x). rewrite Hp, Hy. simpl.
  by rewrite <- Permutation_middle.
Qed.

Lemma concat_insert_shrink {A} (l : list (list A)) i x y t :
  l !! i = Some x -> x ≡ₚ t :: y -> concat l ≡ₚ t :: concat (<[i:=y]> l).
Proof.
  intros Hl Hx. pose proof (concat_insert_perm l i x y Hl) as Hp.
  apply (Permutation_app_inv_r y). rewrite <- Hp, Hx. simpl.
  by rewrite <- Permutation_middle.
Qed.

Lemma perm_move {A} (X X' Y Y' L : list A) t :
  X ≡ₚ t :: X' -> Y' ≡ₚ t :: Y -> X' ++ Y' ++ L ≡ₚ X ++ Y ++ L.
Proof. intros -> ->. simpl. by rewrite <- Permutation_middle. Qed.

Lemma concat_alter_perm {A} (f : list A -> list A) (l : list (list A)) i x :
  l !! i = Some x -> concat (alter f i l) ++ x ≡ₚ concat l ++ f x.
Proof.
  revert i. induction l as [|a l IH]; intros [|i] Hl; simpl in *; try done.
  - injection Hl as ->. rewrite <- !app_assoc.
    rewrite (Permutation_app_comm (f x)), <- app_assoc.
    by rewrite (app_assoc x), (Permutation_app_comm x (concat l)), <- app_assoc.
  - rewrite <- !app_assoc. f_equiv. by apply IH.
Qed.

Lemma sum_insert {A} (f : A -> nat) (l : list A) i x y :
  l !! i = Some x ->
  (sum_list (f <$> <[i:=y]> l) + f x = sum_list (f <$> l) + f y)%nat.
Proof.
  revert i. induction l as [|a l IH]; intros [|i] Hl; simpl in *; try done.
  - injection Hl as ->. unfold fmap in *. lia.
  - specialize (IH i Hl). unfold fmap in *. lia.
Qed.

Lemma PopBottom_Some tasks task rest :
  PopBottom tasks = Some (task, rest) -> tasks = rest ++ [task].
Proof.
  unfold PopBottom. destruct (last tasks) as [t|] eqn:E; [|done].
  intros [= <- <-]. 
  destruct (decide (tasks = [])) as [->|Hne]; [done|].
  destruct (exists_last Hne) as (l & a & ->).
  rewrite last_snoc in E. injection E as ->.
  rewrite length_app. simpl.
  replace (length l + 1 - 1)%nat with (length l) by lia.
  by rewrite take_app_length.
Qed.

Lemma PopBottom_nonempty tasks :
  tasks <> [] -> exists task rest, PopBottom tasks = Some (task, rest).
Proof.
  intros Hne. destruct (exists_last Hne) as (l & a & ->).
  unfold PopBottom. rewrite last_snoc. eauto.
Qed.

Lemma PopTop_Some tasks task rest :
  PopTop tasks = Some (task, rest) -> tasks = task :: rest.
Proof. destruct tasks; simpl; [done|]. by intros [= <- <-]. Qed.

Lemma distribute_perm numWorkers query photos :
  (0 < numWorkers)%nat ->
  concat (distribute numWorkers query photos) ≡ₚ
    (fun p => mkTask p query) <$> photos /\
  length (distribute numWorkers query photos) = numWorkers.
Proof.
  intros HW. unfold distribute.
  assert (forall (ips : list (nat * PhotoMetadata)) ds,
    length ds = numWorkers ->
    let ds' := fold_left
      (fun deques ip =>
         alter (fun d => PushBottom d (mkTask ip.2 query))
               (ip.1 mod numWorkers)%nat deques) ips ds in
    concat ds' ≡ₚ concat ds ++ ((fun ip => mkTask ip.2 query) <$> ips) /\
    length ds' = numWorkers) as Hgen.
  { induction ips as [|[i p] ips IH]; intros ds Hl; simpl.
    - by rewrite app_nil_r.
    - pose proof (Nat.mod_upper_bound i numWorkers ltac:(lia)) as Hlt.
      destruct (lookup_lt_is_Some_2 ds (i mod numWorkers)%nat ltac:(lia)) as [d Hd].
      destruct (IH (alter (fun d => PushBottom d (mkTask p query))
                      (i mod numWorkers)%nat ds)) as [Hp Hl'].
      { by rewrite length_alter. }
      split; [|done]. rewrite Hp.
      rewrite <- Permutation_middle, app_comm_cons.
      apply Permutation_app_tail.
      pose proof (concat_alter_perm
        (fun d => PushBottom d (mkTask p query)) ds _ d Hd) as Hc.
      unfold PushBottom in Hc |- *.
      apply (Permutation_app_inv_r d).
      rewrite Hc. simpl. rewrite (Permutation_app_comm d), app_assoc.
      by rewrite <- Permutation_cons_append. }
  destruct (Hgen (imap (fun i photo => (i, photo)) photos)
                 (replicate numWorkers NewDeque)) as [Hp Hl].
  { by rewrite length_replicate. }
  split; [|done]. rewrite Hp.
  assert (concat (replicate numWorkers NewDeque) = []) as ->.
  { clear. induction numWorkers; [done|]. simpl. done. }
  simpl.
  assert (forall (g : nat -> nat) l,
    (fun ip : nat * PhotoMetadata => mkTask ip.2 query) <$>
      imap (fun i photo => (g i, photo)) l
    = (fun p => mkTask p query) <$> l) as Him.
  { intros g l. revert g. induction l as [|a l IH]; intros g; [done|].
    simpl. f_equal. apply (IH (g ∘ S)). }
  by rewrite (Him (@Datatypes.id nat)).
Qed.

Section WSFacts.
Context {F : Type} (flt feq : F -> F -> bool).
Variable Score : gostring -> PhotoMetadata -> F.
Local Abbreviation state := (@WS.state F).
Local Abbreviation step := (WS.step flt feq Score).
Local Abbreviation worker := WS.worker.
Local Abbreviation inv := (inv flt feq Score).
Implicit Types s : state.
Implicit Types w : worker.

Lemma queued_insert (ds : list (list Task)) i d d' :
  ds !! i = Some d ->
  (length (concat (<[i:=d']> ds)) + length d = length (concat ds) + length d')%nat.
Proof.
  intros H. pose proof (concat_insert_perm ds i d d' H) as Hp.
  apply Permutation_length in Hp. by rewrite !length_app in Hp.
Qed.

(** Every step uses up exactly one unit. *)
Lemma step_measure topK s s' : step topK s s' -> measure s = S (measure s').
Proof.
  unfold measure, queued.
  destruct 1 as [i d task d' s Hw Hd Hpop | i j d task d' s Hw Hdi Hne Hd Hpop
                | i task s Hw | i s Hw | s Hc Hq | i s Hw Hd Hq]; simpl.
  - apply PopBottom_Some in Hpop as ->.
    pose proof (queued_insert _ _ _ d' Hd) as H1. rewrite length_app in H1. simpl in H1.
    pose proof (sum_insert weight _ _ _ (WS.Holding task) Hw) as H2.
    pose proof (sum_insert active _ _ _ (WS.Holding task) Hw) as H3.
    simpl in *. lia.
  - apply PopTop_Some in Hpop as ->.
    pose proof (queued_insert _ _ _ d' Hd) as H1. simpl in H1.
    pose proof (sum_insert weight _ _ _ (WS.Holding task) Hw) as H2.
    pose proof (sum_insert active _ _ _ (WS.Holding task) Hw) as H3.
    simpl in *. lia.
  - pose proof (sum_insert weight _ _ _ WS.Pushed Hw) as H2.
    pose proof (sum_insert active _ _ _ WS.Pushed Hw) as H3.
    simpl in *. lia.
  - pose proof (sum_insert weight _ _ _ WS.Seeking Hw) as H2.
    pose proof (sum_insert active _ _ _ WS.Seeking Hw) as H3.
    simpl in *. lia.
  - rewrite Hq. lia.
  - pose proof (sum_insert weight _ _ _ WS.Exited Hw) as H2.
    pose proof (sum_insert active _ _ _ WS.Exited Hw) as H3.
    simpl in *. lia.
Qed.

(** A run of [n] steps uses up [n] units: no run is longer than the
    measure of its first state. *)
Lemma nsteps_measure topK n s s' :
  nsteps (step topK) n s s' -> (measure s = n + measure s')%nat.
Proof.
  induction 1 as [|n s s1 s' Hstep _ IH]; [done|].
  apply step_measure in Hstep. lia.
Qed.

Lemma held_insert (ws : list worker) i w w' :
  ws !! i = Some w ->
  concat (held <$> <[i:=w']> ws) ++ held w ≡ₚ concat (held <$> ws) ++ held w'.
Proof.
  intros H. rewrite list_fmap_insert. apply concat_insert_perm.
  by rewrite list_lookup_fmap, H.
Qed.

Lemma exited_insert (ws : list worker) i w' :
  w' <> WS.Exited -> WS.Exited ∈ <[i:=w']> ws -> WS.Exited ∈ ws.
Proof.
  intros Hne Hin. apply list_elem_of_lookup in Hin as [j Hj].
  destruct (decide (i = j)) as [->|Hij].
  - destruct (decide (j < length ws)%nat).
    + rewrite list_lookup_insert_eq in Hj by done. congruence.
    + rewrite list_insert_ge in Hj by lia. by apply list_elem_of_lookup_2 in Hj.
  - rewrite list_lookup_insert_ne in Hj by done. by apply list_elem_of_lookup_2 in Hj.
Qed.

Lemma inv_init query photos numWorkers topK :
  (0 < numWorkers)%nat -> photos <> [] ->
  inv ((fun p => mkTask p query) <$> photos) topK
      (WS.init query photos numWorkers).
Proof.
  intros HW Hne. destruct (distribute_perm numWorkers query photos HW) as [Hp Hl].
  assert (forall n (f : worker -> nat), f WS.Seeking = 0%nat ->
            sum_list (f <$> replicate n WS.Seeking) = 0%nat) as Hz.
  { intros n f Hf. induction n as [|n IH]; [done|]. simpl. by rewrite Hf. }
  assert (forall n, concat (held <$> replicate n WS.Seeking) = []) as Hh.
  { intros n. induction n; [done|]. simpl. done. }
  unfold WS.init. constructor; simpl; unfold queued; simpl.
  - by rewrite Hl, length_replicate.
  - by rewrite Hh, app_nil_r.
  - rewrite Hz by done. apply Permutation_length in Hp.
    rewrite length_fmap in Hp. lia.
  - rewrite Hz by done. apply Permutation_length in Hp.
    rewrite !length_fmap in *. lia.
  - done.
  - done.
  - intros Hin. apply list_elem_of_lookup in Hin as [j Hj].
    apply lookup_replicate in Hj as [? _]. done.
  - destruct photos; [done|]. done.
Qed.

Lemma inv_step tasks topK s s' :
  inv tasks topK s -> step topK s s' -> inv tasks topK s'.
Proof.
  intros [Il Ip Ic Id Io Iq Ie Iz].
  unfold queued in *.
  destruct 1 as [i d task d' s Hw Hd Hpop | i j d task d' s Hw Hdi Hne Hd Hpop
                | i task s Hw | i s Hw | s Hc Hq | i s Hw Hd Hq];
    constructor; unfold queued; simpl in *.
  (* pop *)
  - by rewrite !length_insert.
  - apply PopBottom_Some in Hpop as ->. rewrite <- Ip.
    apply (perm_move _ _ _ _ _ task).
    + apply (concat_insert_shrink _ _ _ _ _ Hd). by rewrite Permutation_app_comm.
    + rewrite list_fmap_insert.
      apply (concat_insert_grow _ _ [] _ task); [by rewrite list_lookup_fmap, Hw|done].
  - apply PopBottom_Some in Hpop as ->.
    pose proof (queued_insert _ _ _ d' Hd) as H1. rewrite length_app in H1. simpl in H1.
    pose proof (sum_insert inflight _ _ _ (WS.Holding task) Hw) as H2. simpl in H2.
    lia.
  - apply PopBottom_Some in Hpop as ->.
    pose proof (queued_insert _ _ _ d' Hd) as H1. rewrite length_app in H1. simpl in H1.
    pose proof (sum_insert inflight _ _ _ (WS.Holding task) Hw) as H2. simpl in H2.
    lia.
  - done.
  - done.
  - intros Hin. apply Ie. eapply exited_insert; [|exact Hin]. done.
  - done.
  (* steal *)
  - by rewrite !length_insert.
  - apply PopTop_Some in Hpop as ->. rewrite <- Ip.
    apply (perm_move _ _ _ _ _ task).
    + by apply (concat_insert_shrink _ _ _ _ _ Hd).
    + rewrite list_fmap_insert.
      apply (concat_insert_grow _ _ [] _ task); [by rewrite list_lookup_fmap, Hw|done].
  - apply PopTop_Some in Hpop as ->.
    pose proof (queued_insert _ _ _ d' Hd) as H1. simpl in H1.
    pose proof (sum_insert inflight _ _ _ (WS.Holding task) Hw) as H2. simpl in H2.
    lia.
  - apply PopTop_Some in Hpop as ->.
    pose proof (queued_insert _ _ _ d' Hd) as H1. simpl in H1.
    pose proof (sum_insert inflight _ _ _ (WS.Holding task) Hw) as H2. simpl in H2.
    lia.
  - done.
  - done.
  - intros Hin. apply Ie. eapply exited_insert; [|exact Hin]. done.
  - done.
  (* push *)
  - by rewrite !length_insert.
  - rewrite <- Ip. apply Permutation_app_head.
    rewrite list_fmap_insert.
    rewrite (concat_insert_shrink (held <$> WS.workers s) i [task] [] task);
      [|by rewrite list_lookup_fmap, Hw|done].
    simpl. by rewrite app_assoc, <- Permutation_cons_append.
  - pose proof (sum_insert inflight _ _ _ WS.Pushed Hw) as H2. simpl in H2. lia.
  - pose proof (sum_insert inflight _ _ _ WS.Pushed Hw) as H2. simpl in H2. lia.
  - by rewrite fmap_app, fold_left_app, <- Io.
  - done.
  - intros Hin. apply Ie. eapply exited_insert; [|exact Hin]. done.
  - done.
  (* done *)
  - by rewrite !length_insert.
  - pose proof (held_insert _ _ _ WS.Seeking Hw) as H2. simpl in H2.
    rewrite !app_nil_r in H2. by rewrite H2.
  - pose proof (sum_insert inflight _ _ _ WS.Seeking Hw) as H2. simpl in H2. lia.
  - pose proof (sum_insert inflight _ _ _ WS.Seeking Hw) as H2. simpl in H2. lia.
  - done.
  - intros Hq. specialize (Iq Hq).
    pose proof (sum_insert inflight _ _ _ WS.Seeking Hw) as H2. simpl in H2. lia.
  - intros Hin. apply Ie. eapply exited_insert; [|exact Hin]. done.
  - pose proof (sum_insert inflight _ _ _ WS.Seeking Hw) as H2. simpl in H2.
    rewrite Iz.
    destruct (Z.eqb_spec (WS.tasksWg s) 0), (Z.eqb_spec (WS.tasksWg s - 1) 0); lia.
  (* close *)
  - done.
  - done.
  - done.
  - done.
  - done.
  - done.
  - done.
  - done.
  (* exit *)
  - by rewrite !length_insert.
  - pose proof (held_insert _ _ _ WS.Exited Hw) as H2. simpl in H2.
    rewrite !app_nil_r in H2. by rewrite H2.
  - pose proof (sum_insert inflight _ _ _ WS.Exited Hw) as H2. simpl in H2. lia.
  - pose proof (sum_insert inflight _ _ _ WS.Exited Hw) as H2. simpl in H2. lia.
  - done.
  - done.
  - done.
  - done.
Qed.

Lemma inv_rtc tasks topK s s' :
  inv tasks topK s -> rtc (step topK) s s' -> inv tasks topK s'.
Proof. intros Hi. induction 1; eauto using inv_step. Qed.
End WSFacts.

Section WSRuns.
Context {F : Type} (flt feq : F -> F -> bool).
Variable Score : gostring -> PhotoMetadata -> F.
Local Abbreviation state := (@WS.state F).
Local Abbreviation step := (WS.step flt feq Score).
Local Abbreviation worker := WS.worker.
Local Abbreviation inv := (inv flt feq Score).
Implicit Types s : state.
Implicit Types w : worker.

Local Instance exited_dec w : Decision (w = WS.Exited).
Proof. destruct w; (by left) || (by right). Defined.

Local Instance inflight_dec w : Decision (inflight w = 1%nat).
Proof. apply _. Defined.

Lemma sum_zero {A} (f : A -> nat) (l : list A) :
  (forall x, x ∈ l -> f x = 0%nat) -> sum_list (f <$> l) = 0%nat.
Proof.
  induction l as [|a l IH]; intros Hf; [done|].
  simpl. rewrite (Hf a) by (by left). apply IH. intros x Hx. apply Hf. by right.
Qed.

Lemma concat_nil_iff {A} (l : list (list A)) :
  concat l = [] <-> forall x, x ∈ l -> x = [].
Proof.
  induction l as [|a l IH]; simpl.
  - split; [|done]. intros _ x Hx. by apply elem_of_nil in Hx.
  - split.
    + intros H. apply app_eq_nil in H as [-> H]. intros x Hx.
      apply elem_of_cons in Hx as [->|Hx]; [done|]. by apply IH.
    + intros H. rewrite (H a) by (by left). simpl. apply IH.
      intros x Hx. apply H. by right.
Qed.

(** At the end of a run: nothing queued, nothing in hand. *)
Lemma finished_end tasks topK s :
  inv tasks topK s -> WS.finished s -> WS.workers s <> [] ->
  WS.log s ≡ₚ tasks /\ WS.decrements s = length tasks /\
  WS.tasksWg s = 0 /\ WS.zeroHits s = 1%nat /\ WS.quitSignal s = true.
Proof.
  intros [Il Ip Ic Id Io Iq Ie Iz] Hfin Hne. unfold WS.finished in Hfin.
  rewrite Forall_forall in Hfin.
  assert (WS.Exited ∈ WS.workers s) as Hex.
  { destruct (WS.workers s) as [|w ws] eqn:E; [done|].
    rewrite (Hfin w) by (by left). by left. }
  pose proof (Iq (Ie Hex)) as Hz.
  assert (queued s = 0%nat) as Hq by lia.
  assert (sum_list (inflight <$> WS.workers s) = 0%nat) as Hi by lia.
  assert (concat (WS.deques s) = []) as Hd.
  { unfold queued in Hq. by destruct (concat (WS.deques s)). }
  assert (concat (held <$> WS.workers s) = []) as Hh.
  { apply concat_nil_iff. intros x Hx.
    apply list_elem_of_fmap in Hx as (w & -> & Hw). by rewrite (Hfin w Hw). }
  rewrite Hd, Hh in Ip. simpl in Ip.
  split; [done|]. split; [lia|]. split; [done|].
  split; [by rewrite Iz, Hz|]. by apply Ie.
Qed.

(** No state of a run is stuck before every worker has exited, and
    the step that is enabled is never a steal. *)
Lemma progress tasks topK s :
  inv tasks topK s -> ~ WS.finished s -> exists s', step topK s s'.
Proof.
  intros [Il Ip Ic Id Io Iq Ie Iz] Hnf.
  destruct (decide (Exists (fun w => inflight w = 1%nat) (WS.workers s))) as [Hex|Hnex].
  { apply Exists_exists in Hex as (w & Hw & Hin).
    apply list_elem_of_lookup in Hw as [i Hi].
    destruct w as [|task| |]; try done.
    - eexists. by eapply WS.step_push.
    - eexists. by eapply WS.step_done. }
  assert (forall w, w ∈ WS.workers s -> inflight w = 0%nat) as Hidle.
  { intros w Hw. destruct (decide (inflight w = 1%nat)) as [E|E].
    - exfalso. apply Hnex. apply Exists_exists. eauto.
    - destruct w; simpl in *; done. }
  pose proof (sum_zero inflight _ Hidle) as Hsum.
  destruct (concat (WS.deques s)) as [|t0 rest] eqn:Hcat.
  - (* nothing queued: the counter is at zero *)
    assert (WS.tasksWg s = 0) as Hz.
    { rewrite Ic, Hsum. unfold queued. rewrite Hcat. done. }
    destruct (WS.quitSignal s) eqn:Hq.
    + unfold WS.finished in Hnf. apply not_Forall_Exists in Hnf; [|apply _].
      apply Exists_exists in Hnf as (w & Hw & Hne).
      apply list_elem_of_lookup in Hw as [i Hi].
      pose proof (lookup_lt_Some _ _ _ Hi) as Hlt. rewrite <- Il in Hlt.
      destruct (lookup_lt_is_Some_2 _ _ Hlt) as [d Hd].
      assert (d = []) as ->.
      { apply (proj1 (concat_nil_iff _) Hcat). by eapply list_elem_of_lookup_2. }
      pose proof (Hidle w (list_elem_of_lookup_2 _ _ _ Hi)) as Hw0.
      simpl in Hne. destruct w; try done.
      eexists. by eapply WS.step_exit.
    + eexists. by eapply WS.step_close.
  - (* a deque holds a task: its owner can pop it *)
    assert (exists i d, WS.deques s !! i = Some d /\ d <> []) as (i & d & Hd & Hdne).
    { destruct (decide (Forall (fun d => d = []) (WS.deques s))) as [Hall|Hsome].
      - rewrite Forall_forall in Hall.
        apply concat_nil_iff in Hall. congruence.
      - apply not_Forall_Exists in Hsome; [|apply _].
        apply Exists_exists in Hsome as (d & Hd & Hne). simpl in Hne.
        apply list_elem_of_lookup in Hd as [i Hi]. eauto. }
    pose proof (lookup_lt_Some _ _ _ Hd) as Hlt. rewrite Il in Hlt.
    destruct (lookup_lt_is_Some_2 _ _ Hlt) as [w Hw].
    pose proof (Hidle w (list_elem_of_lookup_2 _ _ _ Hw)) as Hw0.
    destruct (PopBottom_nonempty d Hdne) as (task & d' & Hpop).
    destruct w; try done.
    + eexists. by eapply WS.step_pop.
    + exfalso. pose proof (Iq (Ie (list_elem_of_lookup_2 _ _ _ Hw))) as Hz.
      unfold queued in Ic. rewrite Hcat in Ic. simpl in Ic. lia.
Qed.

(** So a run can always be carried to its end. *)
Lemma run_to_end tasks topK s :
  inv tasks topK s -> exists s', rtc (step topK) s s' /\ WS.finished s'.
Proof.
  remember (measure s) as m eqn:Hm. revert s Hm.
  induction (lt_wf m) as [m _ IH]. intros s -> Hinv.
  destruct (decide (WS.finished s)) as [Hf|Hnf].
  { exists s. split; [apply rtc_refl|done]. }
  destruct (progress tasks topK s Hinv Hnf) as [s1 Hstep].
  pose proof (step_measure flt feq Score topK s s1 Hstep) as Hms.
  destruct (IH (measure s1) ltac:(lia) s1 eq_refl
               (inv_step flt feq Score _ _ _ _ Hinv Hstep)) as (s' & Hrtc & Hf).
  exists s'. split; [|done]. by eapply rtc_l.
Qed.

Lemma measure_init query photos numWorkers :
  (0 < numWorkers)%nat ->
  measure (F:=F) (WS.init query photos numWorkers)
  = (3 * length photos + numWorkers + 1)%nat.
Proof.
  intros HW. unfold measure, queued, WS.init.
  cbn [WS.deques WS.workers WS.quitSignal].
  destruct (distribute_perm numWorkers query photos HW) as [Hp _].
  apply Permutation_length in Hp. rewrite length_fmap in Hp. rewrite Hp.
  assert (forall n, sum_list (weight <$> replicate n WS.Seeking) = 0%nat) as ->.
  { intros n. induction n; [done|]. simpl. done. }
  assert (forall n, sum_list (active <$> replicate n WS.Seeking) = n) as ->.
  { intros n. induction n as [|n IHn]; [done|]. simpl. f_equal. exact IHn. }
  lia.
Qed.
End WSRuns.

(** ** The pipeline: every run ends, and every candidate is collected *)

Lemma perm_shift {A} (X Y Z : list A) x :
  X ++ (Y ++ [x]) ++ Z ≡ₚ (x :: X) ++ Y ++ Z.
Proof.
  simpl. rewrite <- !app_assoc. simpl.
  rewrite <- !Permutation_middle. done.
Qed.

Section PipelineFacts.
Context {F : Type} (flt feq : F -> F -> bool).
Variable Score : gostring -> PhotoMetadata -> F.
Variable sort_Slice :
  (scoredPhoto F -> scoredPhoto F -> bool) ->
  list (scoredPhoto F) -> list (scoredPhoto F).
Local Abbreviation state := (@Pipeline.state F).
Local Abbreviation step := (Pipeline.step flt feq Score sort_Slice).
Local Abbreviation scorer := (@Pipeline.scorer F).
Local Abbreviation scored := (Rankers.scored Score).
Local Abbreviation pinv := (pinv flt feq Score sort_Slice).
Implicit Types s : state.
Implicit Types w : scorer.

Lemma pstep_measure query topK n s s' :
  step query topK n s s' -> pmeasure s = S (pmeasure s').
Proof.
  unfold pmeasure.
  destruct 1 as [p rest s Hs | s Hs Hc | i p rest s Hw Hc | i sp s Hw Hlen
                | i s Hw Hc Hcl | s Hall Hc | sp rest s Hr Hf | s Hr Hc Hf]; simpl.
  - rewrite Hs, length_app. simpl. lia.
  - rewrite Hc. lia.
  - rewrite Hc. simpl.
    pose proof (sum_insert sendWeight _ _ _
      (Pipeline.Sending (mkScored p (Score query p))) Hw) as H2.
    pose proof (sum_insert running _ _ _
      (Pipeline.Sending (mkScored p (Score query p))) Hw) as H3.
    simpl in *. lia.
  - rewrite length_app. simpl.
    pose proof (sum_insert sendWeight _ _ _ (@Pipeline.Receiving F) Hw) as H2.
    pose proof (sum_insert running _ _ _ (@Pipeline.Receiving F) Hw) as H3.
    simpl in *. lia.
  - pose proof (sum_insert sendWeight _ _ _ (@Pipeline.Returned F) Hw) as H2.
    pose proof (sum_insert running _ _ _ (@Pipeline.Returned F) Hw) as H3.
    simpl in *. lia.
  - rewrite Hc. lia.
  - rewrite Hr, Hf. simpl. lia.
  - rewrite Hf. lia.
Qed.

Lemma pinv_init query topK numScorers candidates :
  pinv query topK numScorers candidates (Pipeline.init candidates numScorers).
Proof.
  assert (forall n, concat (sending <$> replicate n (@Pipeline.Receiving F)) = []) as Hh.
  { intros n. induction n; [done|]. simpl. done. }
  constructor; simpl.
  - by rewrite length_replicate.
  - by rewrite Hh, !app_nil_r.
  - done.
  - done.
  - intros Hin. apply list_elem_of_lookup in Hin as [j Hj].
    apply lookup_replicate in Hj as [? _]. done.
  - done.
  - done.
Qed.

Lemma returned_insert (ws : list scorer) i w' :
  w' <> Pipeline.Returned -> Pipeline.Returned ∈ <[i:=w']> ws ->
  Pipeline.Returned ∈ ws.
Proof.
  intros Hne Hin. apply list_elem_of_lookup in Hin as [j Hj].
  destruct (decide (i = j)) as [->|Hij].
  - destruct (decide (j < length ws)%nat).
    + rewrite list_lookup_insert_eq in Hj by done. congruence.
    + rewrite list_insert_ge in Hj by lia. by apply list_elem_of_lookup_2 in Hj.
  - rewrite list_lookup_insert_ne in Hj by done. by apply list_elem_of_lookup_2 in Hj.
Qed.

Lemma all_returned_lookup (ws : list scorer) i w :
  Forall (fun w => w = Pipeline.Returned) ws -> ws !! i = Some w ->
  w = Pipeline.Returned.
Proof.
  intros Hall Hi. rewrite Forall_forall in Hall.
  apply Hall. by eapply list_elem_of_lookup_2.
Qed.

Lemma sending_all_returned (ws : list scorer) :
  Forall (fun w => w = Pipeline.Returned) ws -> concat (sending <$> ws) = [].
Proof. induction 1 as [|w ws -> _ IH]; [done|]. simpl. done. Qed.

Lemma pinv_step query topK n candidates s s' :
  (0 < n)%nat ->
  pinv query topK n candidates s -> step query topK n s s' ->
  pinv query topK n candidates s'.
Proof.
  intros Hn [Il Ip Ih Ic Ir Irc If].
  destruct 1 as [p rest s Hs | s Hs Hc | i p rest s Hw Hc | i sp s Hw Hlen
                | i s Hw Hc Hcl | s Hall Hc | sp rest s Hr Hf | s Hr Hc Hf];
    constructor; simpl in *.
  (* feed *)
  - done.
  - rewrite <- Ip, Hs, fmap_app. apply perm_shift.
  - done.
  - intros Hcl. specialize (Ic Hcl). congruence.
  - intros Hin. destruct (Ir Hin) as [Hcl _]. specialize (Ic Hcl). congruence.
  - done.
  - done.
  (* close photos *)
  - done.
  - done.
  - done.
  - done.
  - intros Hin. destruct (Ir Hin). congruence.
  - done.
  - done.
  (* score *)
  - by rewrite length_insert.
  - rewrite <- Ip, Hc. simpl.
    apply Permutation_app_head.
    rewrite list_fmap_insert.
    rewrite (concat_insert_grow (sending <$> Pipeline.scorers s) i []
               [mkScored p (Score query p)] (mkScored p (Score query p)));
      [|by rewrite list_lookup_fmap, Hw|done].
    simpl. by rewrite <- Permutation_middle.
  - done.
  - done.
  - intros Hin. apply returned_insert in Hin; [|done].
    destruct (Ir Hin). congruence.
  - intros Hrc. specialize (Irc Hrc).
    pose proof (all_returned_lookup _ _ _ Irc Hw). done.
  - done.
  (* send *)
  - by rewrite length_insert.
  - rewrite <- Ip. apply Permutation_app_head, Permutation_app_head.
    rewrite list_fmap_insert.
    rewrite (concat_insert_shrink (sending <$> Pipeline.scorers s) i [sp] [] sp);
      [|by rewrite list_lookup_fmap, Hw|done].
    apply perm_shift.
  - done.
  - done.
  - intros Hin. apply returned_insert in Hin; [|done]. by apply Ir.
  - intros Hrc. specialize (Irc Hrc).
    pose proof (all_returned_lookup _ _ _ Irc Hw). done.
  - done.
  (* return *)
  - by rewrite length_insert.
  - rewrite <- Ip. apply Permutation_app_head, Permutation_app_head.
    apply Permutation_app_tail.
    rewrite list_fmap_insert.
    pose proof (concat_insert_perm (sending <$> Pipeline.scorers s) i [] []) as Hp.
    rewrite !app_nil_r in Hp. apply Hp. by rewrite list_lookup_fmap, Hw.
  - done.
  - done.
  - done.
  - intros Hrc. specialize (Irc Hrc).
    apply Forall_insert; done.
  - done.
  (* close results *)
  - done.
  - done.
  - done.
  - done.
  - done.
  - done.
  - done.
  (* collect *)
  - done.
  - rewrite <- Ip, Hr. apply Permutation_app_head, Permutation_app_head,
      Permutation_app_head. simpl.
    by rewrite app_assoc, <- Permutation_cons_append.
  - by rewrite fold_left_app, <- Ih.
  - done.
  - done.
  - done.
  - intros out Ho. congruence.
  (* final *)
  - done.
  - done.
  - done.
  - done.
  - done.
  - done.
  - intros out [= <-]. split; [done|].
    specialize (Irc Hc).
    assert (Pipeline.Returned ∈ Pipeline.scorers s) as Hin.
    { destruct (Pipeline.scorers s) as [|w ws] eqn:E; [simpl in Il; lia|].
      apply Forall_cons in Irc as [-> _]. by left. }
    destruct (Ir Hin) as [Hcl Hch]. specialize (Ic Hcl).
    rewrite Ic, Hch, Hr, (sending_all_returned _ Irc) in Ip. done.
Qed.

Lemma pinv_rtc query topK n candidates s s' :
  (0 < n)%nat ->
  pinv query topK n candidates s -> rtc (step query topK n) s s' ->
  pinv query topK n candidates s'.
Proof. intros Hn Hi. induction 1; eauto using pinv_step. Qed.
End PipelineFacts.

Section PipelineRuns.
Context {F : Type} (flt feq : F -> F -> bool).
Variable Score : gostring -> PhotoMetadata -> F.
Variable sort_Slice :
  (scoredPhoto F -> scoredPhoto F -> bool) ->
  list (scoredPhoto F) -> list (scoredPhoto F).
Local Abbreviation state := (@Pipeline.state F).
Local Abbreviation step := (Pipeline.step flt feq Score sort_Slice).
Local Abbreviation scorer := (@Pipeline.scorer F).
Local Abbreviation pinv := (pinv flt feq Score sort_Slice).
Implicit Types s : state.
Implicit Types w : scorer.

Local Instance returned_dec w : Decision (w = Pipeline.Returned).
Proof. destruct w; (by left) || (by right). Defined.

(** No state of a run is stuck before the collector has sent its
    result. *)
Lemma pprogress query topK n candidates s :
  (0 < n)%nat ->
  pinv query topK n candidates s -> Pipeline.final s = None ->
  exists s', step query topK n s s'.
Proof.
  intros Hn [Il Ip Ih Ic Ir Irc If] Hfin.
  destruct (Pipeline.resultsCh s) as [|sp rest] eqn:Hres.
  2:{ eexists. by eapply Pipeline.step_collect. }
  destruct (Pipeline.toSend s) as [|p ps] eqn:Hts.
  2:{ eexists. by eapply Pipeline.step_feed. }
  destruct (Pipeline.photosClosed s) eqn:Hpc.
  2:{ eexists. by eapply Pipeline.step_close_photos. }
  destruct (decide (Forall (fun w => w = Pipeline.Returned) (Pipeline.scorers s)))
    as [Hall|Hsome].
  - destruct (Pipeline.resultsClosed s) eqn:Hrc.
    + eexists. by eapply Pipeline.step_final.
    + eexists. by eapply Pipeline.step_close_results.
  - apply not_Forall_Exists in Hsome; [|apply _].
    apply Exists_exists in Hsome as (w & Hw & Hne). simpl in Hne.
    apply list_elem_of_lookup in Hw as [i Hi].
    destruct w as [|sp|]; [| |done].
    + destruct (Pipeline.photosToScoreCh s) as [|p ps] eqn:Hch.
      * eexists. by eapply Pipeline.step_return.
      * eexists. by eapply Pipeline.step_score.
    + eexists. eapply Pipeline.step_send; [done|]. rewrite Hres. simpl. lia.
Qed.

Lemma prun_to_end query topK n candidates s :
  (0 < n)%nat ->
  pinv query topK n candidates s ->
  exists s' out, rtc (step query topK n) s s' /\ Pipeline.final s' = Some out.
Proof.
  intros Hn. remember (pmeasure s) as m eqn:Hm. revert s Hm.
  induction (lt_wf m) as [m _ IH]. intros s -> Hinv.
  destruct (Pipeline.final s) as [out|] eqn:Hf.
  { exists s, out. split; [apply rtc_refl|done]. }
  destruct (pprogress query topK n candidates s Hn Hinv Hf) as [s1 Hstep].
  pose proof (pstep_measure flt feq Score sort_Slice _ _ _ _ _ Hstep) as Hms.
  destruct (IH (pmeasure s1) ltac:(lia) s1 eq_refl
               (pinv_step flt feq Score sort_Slice _ _ _ _ _ _ Hn Hinv Hstep))
    as (s' & out & Hrtc & Hf').
  exists s', out. split; [|done]. by eapply rtc_l.
Qed.
End PipelineRuns.

Section Returns.
Context {F : Type} (flt feq : F -> F -> bool) `{!ScoreOrder flt feq}.
Variable Score : gostring -> PhotoMetadata -> F.
Variable sort_Slice :
  (scoredPhoto F -> scoredPhoto F -> bool) ->
  list (scoredPhoto F) -> list (scoredPhoto F).
Context `{!SortContract sort_Slice}.
Variable NumCPU : Z.
Hypothesis NumCPU_pos : 0 < NumCPU.

Local Abbreviation topKOutput := (topKOutput flt feq Score).
Local Abbreviation scored := (Rankers.scored Score).

Lemma fold_Collector_Push topK l h :
  0 < topK ->
  fold_left (Rankers.Collector_Push flt feq topK) l h
  = fold_left (Heap.offer flt feq topK) l h.
Proof.
  intros Hk. revert h. induction l as [|x l IH]; intros h; [done|].
  simpl. rewrite IH. unfold Rankers.Collector_Push.
  destruct (Z.leb_spec topK 0); [lia|done].
Qed.

Lemma GetRankedPhotos_ranked h :
  Rankers.GetRankedPhotos flt feq sort_Slice h
  = Rankers.rankedPhotos flt feq sort_Slice h.
Proof.
  unfold Rankers.GetRankedPhotos. destruct h as [|x h]; [|done]. simpl.
  unfold Rankers.rankedPhotos. simpl.
  pose proof (sort_Slice_perm (Heap.sortLess flt feq) []) as Hp.
  apply Permutation_nil_r in Hp. by rewrite Hp.
Qed.

(** Whatever [RankScoringPipeline] returns is a top-[k] list. *)
Lemma pipeline_returns_topK query candidates topK numScorers out :
  0 < topK ->
  Pipeline.RankScoringPipeline_returns flt feq Score sort_Slice NumCPU
    query candidates topK numScorers out ->
  topKOutput query topK candidates out.
Proof.
  intros Hk. unfold Pipeline.RankScoringPipeline_returns.
  destruct (Z.leb_spec topK 0); [lia|]. simpl.
  destruct (Nat.eqb_spec (length candidates) 0) as [E|E].
  { intros ->. destruct candidates; [|done]. by apply topKOutput_nil. }
  pose proof (clampWorkers_range NumCPU numScorers (length candidates)
                NumCPU_pos ltac:(lia)) as HW.
  intros (s & Hrun & Hfin).
  assert (0 < Z.to_nat (Rankers.clampWorkers NumCPU numScorers (length candidates)))%nat
    as HWn by lia.
  pose proof (pinv_rtc flt feq Score sort_Slice query topK _ candidates _ _
                HWn (pinv_init flt feq Score sort_Slice _ _ _ _) Hrun)
    as [Il Ip Ih Ic Ir Irc If].
  destruct (If out Hfin) as [-> Hperm]. rewrite Ih.
  by apply collect_topK.
Qed.

(** And it does return. *)
Lemma pipeline_returns query candidates topK numScorers :
  exists out,
    Pipeline.RankScoringPipeline_returns flt feq Score sort_Slice NumCPU
      query candidates topK numScorers out.
Proof.
  unfold Pipeline.RankScoringPipeline_returns.
  destruct ((topK <=? 0) || (length candidates =? 0)%nat) eqn:E; [by exists []|].
  apply orb_false_iff in E as [_ E]. apply Nat.eqb_neq in E.
  pose proof (clampWorkers_range NumCPU numScorers (length candidates)
                NumCPU_pos ltac:(lia)) as HW.
  assert (0 < Z.to_nat (Rankers.clampWorkers NumCPU numScorers (length candidates)))%nat
    as HWn by lia.
  destruct (prun_to_end flt feq Score sort_Slice query topK
              (Z.to_nat (Rankers.clampWorkers NumCPU numScorers (length candidates)))
              candidates _ HWn
              (pinv_init flt feq Score sort_Slice _ _ _ _))
    as (s & out & Hrun & Hf).
  exists out, s. done.
Qed.

Lemma workers_length topK (s s' : @WS.state F) :
  rtc (WS.step flt feq Score topK) s s' ->
  length (WS.workers s') = length (WS.workers s).
Proof.
  induction 1 as [|s1 s2 s3 Hstep _ IH]; [done|].
  rewrite IH. destruct Hstep; simpl; by rewrite ?length_insert.
Qed.

(** Whatever [RankWS] returns is a top-[k] list, with the elapsed
    time. *)
Lemma ws_returns_topK t0 t1 query photos topK numWorkers out dur :
  0 < topK ->
  WS.RankWS_returns flt feq Score sort_Slice NumCPU
    t0 t1 query photos topK numWorkers out dur ->
  topKOutput query topK photos out /\ dur = t1 - t0.
Proof.
  intros Hk [-> Hret]. split; [|done]. revert Hret.
  destruct (Z.leb_spec topK 0); [lia|]. simpl.
  destruct (Nat.eqb_spec (length photos) 0) as [E|E].
  { intros ->. destruct photos; [|done]. by apply topKOutput_nil. }
  pose proof (clampWorkers_range NumCPU numWorkers (length photos)
                NumCPU_pos ltac:(lia)) as HW.
  intros (s & Hrun & Hfin & ->).
  assert (photos <> []) as Hne by (by destruct photos).
  assert (0 < Z.to_nat (Rankers.clampWorkers NumCPU numWorkers (length photos)))%nat
    as HWn by lia.
  pose proof (inv_rtc flt feq Score _ topK _ _
                (inv_init flt feq Score query photos _ topK HWn Hne) Hrun)
    as Hinv.
  assert (WS.workers s <> []) as Hws.
  { destruct Hinv as [Il _ _ _ _ _ _ _].
    assert (length (WS.workers s) =
            Z.to_nat (Rankers.clampWorkers NumCPU numWorkers (length photos))) as Hl.
    { rewrite (workers_length _ _ _ Hrun). simpl. by rewrite length_replicate. }
    intros E'. rewrite E' in Hl. simpl in Hl. lia. }
  destruct (finished_end flt feq Score _ _ _ Hinv Hfin Hws) as (Hlog & _).
  destruct Hinv as [_ _ _ _ Io _ _ _].
  rewrite GetRankedPhotos_ranked, Io, fold_Collector_Push by done.
  apply collect_topK; [done|done|done|].
  rewrite Hlog. by rewrite <- list_fmap_compose.
Qed.

Lemma ws_returns t0 t1 query photos topK numWorkers :
  exists out,
    WS.RankWS_returns flt feq Score sort_Slice NumCPU
      t0 t1 query photos topK numWorkers out (t1 - t0).
Proof.
  unfold WS.RankWS_returns.
  destruct ((topK <=? 0) || (length photos =? 0)%nat) eqn:E; [by exists []|].
  apply orb_false_iff in E as [_ E]. apply Nat.eqb_neq in E.
  pose proof (clampWorkers_range NumCPU numWorkers (length photos)
                NumCPU_pos ltac:(lia)) as HW.
  assert (photos <> []) as Hne by (by destruct photos).
  assert (0 < Z.to_nat (Rankers.clampWorkers NumCPU numWorkers (length photos)))%nat
    as HWn by lia.
  destruct (run_to_end flt feq Score _ topK _
              (inv_init flt feq Score query photos
                 (Z.to_nat (Rankers.clampWorkers NumCPU numWorkers (length photos)))
                 topK HWn Hne))
    as (s & Hrun & Hf).
  eexists. split; [done|]. exists s. done.
Qed.
End Returns.

(** ** The scorer *)

Section ScorerFacts.
Variable IsLetter : N -> bool.
Variable ToLowerRune : N -> N.
Variable StemString : list N -> list N.
Variable loadedSynonymMap : gmap (list N) (list (list N)).

Local Abbreviation tokens :=
  (Tokenizer.getStemmedTokensSet IsLetter ToLowerRune StemString loadedSynonymMap).
Local Abbreviation Score :=
  (Scorer.Score IsLetter ToLowerRune StemString loadedSynonymMap).
Local Abbreviation rawScore :=
  (Scorer.rawScore IsLetter ToLowerRune StemString loadedSynonymMap).
Local Abbreviation normalizationFactor :=
  (Scorer.normalizationFactor IsLetter ToLowerRune StemString loadedSynonymMap).
Local Abbreviation photoOriginalsSet :=
  (Scorer.photoOriginalsSet IsLetter ToLowerRune StemString loadedSynonymMap).
Local Abbreviation scanWords := (Tokenizer.scanWords IsLetter).
Implicit Types Qo Qa P : gset (list N).

Lemma accumulate_from Qo Qa (l : list (list N)) (a : R) :
  fold_left (fun raw t => (raw + Scorer.bonus Qo Qa t)%R) l a
  = (a + Scorer.accumulate Qo Qa l)%R.
Proof.
  unfold Scorer.accumulate. revert a. induction l as [|t l IH]; intros a; simpl.
  - lra.
  - rewrite IH, (IH (0 + _)%R). lra.
Qed.

Lemma accumulate_cons Qo Qa t l :
  Scorer.accumulate Qo Qa (t :: l)
  = (Scorer.bonus Qo Qa t + Scorer.accumulate Qo Qa l)%R.
Proof.
  unfold Scorer.accumulate at 1. simpl. rewrite accumulate_from. lra.
Qed.

(** The order in which Go happens to range over the map does not
    change the sum. *)
Lemma accumulate_perm Qo Qa l1 l2 :
  l1 ≡ₚ l2 -> Scorer.accumulate Qo Qa l1 = Scorer.accumulate Qo Qa l2.
Proof.
  induction 1 as [|x l l' _ IH|x y l|l l' l'' _ IH1 _ IH2].
  - done.
  - by rewrite !accumulate_cons, IH.
  - rewrite !accumulate_cons. lra.
  - congruence.
Qed.

Lemma bonus_nonneg Qo Qa t : (0 <= Scorer.bonus Qo Qa t)%R.
Proof.
  unfold Scorer.bonus, Scorer.originalWordMatchBonus, Scorer.synonymMatchBonus.
  repeat case_decide; lra.
Qed.

(** The sum counts the literal and the synonym-only matches. *)
Lemma accumulate_count Qo Qa l :
  Scorer.accumulate Qo Qa l
  = (10 * INR (length (filter (fun t => t ∈ Qo) l))
     + 3 / 2 * INR (length (filter (fun t => t ∈ Qa ∖ Qo) l)))%R.
Proof.
  induction l as [|t l IH]; [unfold Scorer.accumulate; simpl; lra|].
  rewrite accumulate_cons, IH. rewrite !filter_cons.
  unfold Scorer.bonus, Scorer.originalWordMatchBonus, Scorer.synonymMatchBonus.
  destruct (decide (t ∈ Qo)) as [Ho|Ho].
  - rewrite (decide_False (P := t ∈ Qa ∖ Qo)) by set_solver.
    cbn [length]. rewrite S_INR. lra.
  - destruct (decide (t ∈ Qa)) as [Ha|Ha].
    + rewrite (decide_True (P := t ∈ Qa ∖ Qo)) by set_solver.
      cbn [length]. rewrite S_INR. lra.
    + rewrite (decide_False (P := t ∈ Qa ∖ Qo)) by set_solver. lra.
Qed.

Lemma size_inter_filter P Q :
  size (P ∩ Q) = length (filter (fun t => t ∈ Q) (elements P)).
Proof.
  unfold size, set_size. simpl. apply Permutation_length.
  apply NoDup_Permutation.
  - apply NoDup_elements.
  - apply NoDup_filter, NoDup_elements.
  - intros x. rewrite elem_of_elements, list_elem_of_filter, elem_of_elements.
    set_solver.
Qed.

Lemma rawScore_count query photo :
  let P := photoOriginalsSet photo in
  let Qo := tokens query false in
  let Qa := tokens query true in
  rawScore query photo
  = (10 * INR (size (P ∩ Qo)) + 3 / 2 * INR (size (P ∩ (Qa ∖ Qo))))%R.
Proof.
  intros P Qo Qa. unfold Scorer.rawScore.
  by rewrite accumulate_count, <- !size_inter_filter.
Qed.

Lemma rawScore_zero_iff query photo :
  rawScore query photo = 0%R <->
  photoOriginalsSet photo ∩ (tokens query false ∪ tokens query true) = ∅.
Proof.
  rewrite rawScore_count.
  set (P := photoOriginalsSet photo). set (Qo := tokens query false).
  set (Qa := tokens query true).
  pose proof (pos_INR (size (P ∩ Qo))) as H1.
  pose proof (pos_INR (size (P ∩ (Qa ∖ Qo)))) as H2.
  split.
  - intros H.
    assert (INR (size (P ∩ Qo)) = 0%R) as E1 by lra.
    assert (INR (size (P ∩ (Qa ∖ Qo))) = 0%R) as E2 by lra.
    change 0%R with (INR 0) in E1, E2.
    apply INR_eq in E1, E2. apply size_empty_iff in E1, E2.
    apply leibniz_equiv. set_solver.
  - intros H.
    assert (P ∩ Qo = ∅) as -> by set_solver.
    assert (P ∩ (Qa ∖ Qo) = ∅) as -> by set_solver.
    rewrite size_empty. simpl. lra.
Qed.

Lemma normalizationFactor_bound photo :
  (1 <= size (photoOriginalsSet photo))%nat ->
  (ln 2 <= normalizationFactor photo)%R.
Proof.
  intros Hn. unfold Scorer.normalizationFactor.
  set (n := size (photoOriginalsSet photo)) in *.
  assert (1 <= INR n)%R as Hr.
  { replace 1%R with (INR 1) by done. by apply le_INR. }
  destruct (Req_dec (1 + INR n) 2) as [->|Hne]; [lra|].
  left. apply ln_increasing; lra.
Qed.

(** The fallback branch of [Score] is dead: once the raw score is not
    zero the photo has a token and the logarithm is well above the
    threshold. *)
Lemma score_normalized query photo :
  rawScore query photo <> 0%R ->
  (1 <= size (photoOriginalsSet photo))%nat /\
  (ln 2 <= normalizationFactor photo)%R /\
  ~ (normalizationFactor photo <= 1 / 1000000)%R /\
  Score query photo = (rawScore query photo / normalizationFactor photo)%R.
Proof.
  intros Hraw.
  assert (1 <= size (photoOriginalsSet photo))%nat as Hn.
  { destruct (size (photoOriginalsSet photo)) eqn:E; [|lia].
    exfalso. apply Hraw. apply rawScore_zero_iff.
    apply size_empty_iff in E. apply leibniz_equiv in E. rewrite E. set_solver. }
  pose proof (normalizationFactor_bound photo Hn) as Hln.
  pose proof ln_lt_2 as H2.
  assert (~ (normalizationFactor photo <= 1 / 1000000)%R) as Hnf by lra.
  split; [done|]. split; [done|]. split; [done|].
  unfold Scorer.Score.
  rewrite decide_False by lia.
  destruct (Req_dec_T _ _) as [E|_]; [done|].
  destruct (Rle_dec _ _) as [E|_]; [done|]. done.
Qed.

(** [Score] in closed form, over the token set of the text the
    program builds. *)
Lemma Score_closed_form query photo :
  let P := photoOriginalsSet photo in
  let Qo := tokens query false in
  let Qa := tokens query true in
  Score query photo =
  if decide (P ∩ (Qo ∪ Qa) = ∅) then 0%R
  else ((10 * INR (size (P ∩ Qo)) + 3 / 2 * INR (size (P ∩ (Qa ∖ Qo))))
        / ln (1 + INR (size P)))%R.
Proof.
  cbv zeta.
  destruct (decide (photoOriginalsSet photo ∩
                      (tokens query false ∪ tokens query true) = ∅)) as [E|E].
  - unfold Scorer.Score. case_decide; [done|].
    destruct (Req_dec_T _ _) as [_|Hne]; [done|].
    exfalso. apply Hne. by apply rawScore_zero_iff.
  - assert (rawScore query photo <> 0%R) as Hraw.
    { intros H. by apply rawScore_zero_iff in H. }
    destruct (score_normalized query photo Hraw) as (_ & _ & _ & ->).
    by rewrite rawScore_count.
Qed.

(** *** The photo text *)

Lemma scanWords_trailing run x c :
  IsLetter c = false -> scanWords run (x ++ [c]) = scanWords run x.
Proof.
  intros Hc. revert run. induction x as [|r x IH]; intros run; simpl.
  - rewrite Hc. by rewrite app_nil_r.
  - destruct (IsLetter r); by rewrite IH.
Qed.

(** A character after the text that is no letter adds no token. *)
Lemma tokens_trailing x c expand :
  IsLetter (ToLowerRune c) = false -> x <> [] ->
  tokens (x ++ [c]) expand = tokens x expand.
Proof.
  intros Hc Hx. unfold Tokenizer.getStemmedTokensSet.
  assert (isEmpty (x ++ [c]) = false) as -> by (by destruct x).
  assert (isEmpty x = false) as -> by (by destruct x).
  cbv zeta. unfold Tokenizer.FindAllString, Tokenizer.ToLower.
  rewrite fmap_app.
  change (ToLowerRune <$> [c]) with [ToLowerRune c].
  by rewrite (scanWords_trailing [] _ _ Hc).
Qed.

Lemma writeField_nonempty f : f <> [] -> Scorer.writeField f = f ++ str " ".
Proof. by destruct f. Qed.

Lemma writeFields_Join (fs : list (list N)) :
  let ne := filter (fun f => f <> []) fs in
  concat (Scorer.writeField <$> fs)
  = stringsJoin ne (str " ") ++ (if decide (ne = []) then [] else str " ").
Proof.
  induction fs as [|f fs IH]; [done|]. cbv zeta in *.
  rewrite fmap_cons, filter_cons. cbn [concat]. rewrite IH. clear IH.
  destruct (decide (f <> [])) as [Hf|Hf].
  - rewrite writeField_nonempty by done.
    rewrite (decide_False (P := _ :: _ = [])) by done.
    destruct (filter _ fs) as [|g gs] eqn:E.
    + rewrite decide_True by done. cbn [stringsJoin]. by rewrite !app_nil_r.
    + rewrite decide_False by done.
      change (stringsJoin (f :: g :: gs) (str " "))
        with (f ++ str " " ++ stringsJoin (g :: gs) (str " ")).
      by rewrite <- !app_assoc.
  - assert (f = []) as -> by (by destruct f; [|destruct Hf]). done.
Qed.

Lemma Join_nil_iff (ws : list (list N)) sep :
  Forall (fun w => w <> []) ws -> stringsJoin ws sep = [] <-> ws = [].
Proof.
  intros Hws. split; [|by intros ->].
  destruct ws as [|w ws]; [done|]. apply Forall_cons in Hws as [Hw _].
  destruct ws; cbn [stringsJoin]; [done|]. by destruct w.
Qed.

(** The text the program builds is the document's text with a space
    after the last field. *)
Lemma photoText_trailing photo :
  Scorer.photoText photo
  = photoText_spec photo
    ++ (if decide (photoText_spec photo = []) then [] else str " ").
Proof.
  unfold photoText_spec.
  set (fs := [PhotoDescription photo; AiDescription photo;
              PhotoLocationCountry photo; PhotoLocationCity photo]).
  assert (Scorer.photoText photo = concat (Scorer.writeField <$> fs)) as ->.
  { unfold Scorer.photoText, fs. cbn [fmap list_fmap concat].
    by rewrite app_nil_r. }
  rewrite writeFields_Join. cbv zeta. f_equal.
  assert (Forall (fun w : list N => w <> []) (filter (fun f => f <> []) fs)) as Hne.
  { apply Forall_forall. intros w Hw. by apply list_elem_of_filter in Hw as [? _]. }
  pose proof (Join_nil_iff _ (str " ") Hne) as Hiff.
  destruct (decide (filter _ fs = [])) as [E|E].
  - rewrite decide_True; [done|]. by apply Hiff.
  - rewrite decide_False; [done|]. intros H. by apply E, Hiff.
Qed.

(** So, the space being no letter, both texts have the same tokens. *)
Lemma photoOriginalsSet_spec photo :
  IsLetter (ToLowerRune 32%N) = false ->
  photoOriginalsSet photo = tokens (photoText_spec photo) false.
Proof.
  intros Hsp. unfold Scorer.photoOriginalsSet. rewrite photoText_trailing.
  case_decide as E.
  - by rewrite app_nil_r.
  - by apply tokens_trailing.
Qed.

Lemma Score_meets_spec query photo :
  IsLetter (ToLowerRune 32%N) = false ->
  Score query photo
  = Score_spec IsLetter ToLowerRune StemString loadedSynonymMap query photo.
Proof.
  intros Hsp. rewrite Score_closed_form. unfold Score_spec.
  cbv zeta. by rewrite <- !photoOriginalsSet_spec.
Qed.
End ScorerFacts.

(** ** The tokenizer *)

Section TokenizerFacts.
Variable IsLetter : N -> bool.
Variable ToLowerRune : N -> N.
Variable StemString : list N -> list N.
Variable loadedSynonymMap : gmap (list N) (list (list N)).

Local Abbreviation tokens :=
  (Tokenizer.getStemmedTokensSet IsLetter ToLowerRune StemString loadedSynonymMap).
Local Abbreviation addWord :=
  (Tokenizer.addWord StemString loadedSynonymMap).
Local Abbreviation addSynonyms := (Tokenizer.addSynonyms StemString).
Local Abbreviation scanWords := (Tokenizer.scanWords IsLetter).
Local Abbreviation FindAllString := (Tokenizer.FindAllString IsLetter).
Local Abbreviation ToLower := (Tokenizer.ToLower ToLowerRune).
Local Abbreviation keep := Tokenizer.keep.
Local Abbreviation maximalRun := (maximalRun IsLetter).
Local Abbreviation contributes := (contributes StemString loadedSynonymMap).

Lemma keep_true word :
  keep word = true <-> isStopword word = false /\ (1 < len word)%nat.
Proof.
  unfold Tokenizer.keep. rewrite andb_true_iff, negb_true_iff, Nat.ltb_lt. done.
Qed.

Lemma keep_false word :
  keep word = false <-> isStopword word = true \/ (len word <= 1)%nat.
Proof.
  unfold Tokenizer.keep. rewrite andb_false_iff, negb_false_iff, Nat.ltb_ge. done.
Qed.

Lemma scanWords_maximal run s w :
  Forall (fun r => IsLetter r = true) run ->
  w ∈ scanWords run s -> maximalRun (rev run ++ s) w.
Proof.
  revert run. induction s as [|r s IH]; intros run Hrun Hw; simpl in Hw.
  - destruct run as [|a run']; simpl in Hw; [by apply elem_of_nil in Hw|].
    apply list_elem_of_singleton in Hw as ->.
    exists [], []. rewrite !app_nil_r. simpl.
    split; [done|]. split.
    { intros E. apply (f_equal length) in E. rewrite length_app in E. simpl in E. lia. }
    split; [|by split; left].
    apply Forall_forall. intros x Hx. rewrite Forall_forall in Hrun. apply Hrun.
    apply list_elem_of_In in Hx. apply list_elem_of_In. by apply (in_rev (a :: run')).
  - destruct (IsLetter r) eqn:Hr.
    + specialize (IH (r :: run) ltac:(by constructor) Hw).
      simpl in IH. by rewrite <- app_assoc in IH.
    + apply elem_of_app in Hw as [Hw|Hw].
      * destruct run as [|a run']; simpl in Hw; [by apply elem_of_nil in Hw|].
        apply list_elem_of_singleton in Hw as ->.
        exists [], (r :: s). simpl. split; [done|]. split.
        { intros E. apply (f_equal length) in E. rewrite length_app in E. simpl in E. lia. }
        split; [|split; [by left|right; eauto]].
        apply Forall_forall. intros x Hx. rewrite Forall_forall in Hrun. apply Hrun.
        apply list_elem_of_In in Hx. apply list_elem_of_In. by apply (in_rev (a :: run')).
      * destruct (IH [] ltac:(constructor) Hw) as (pre & post & E & Hne & Hl & Hpre & Hpost).
        simpl in E. exists (rev run ++ r :: pre), post.
        split; [rewrite E; by rewrite <- !app_assoc|].
        split; [done|]. split; [done|]. split; [|done].
        right. destruct Hpre as [->|(c & Hc & Hcl)].
        -- exists r. split; [|done]. by rewrite last_app.
        -- exists c. split; [|done]. rewrite last_app, last_cons, Hc. done.
Qed.

Lemma FindAllString_maximal x w : w ∈ FindAllString x -> maximalRun x w.
Proof. intros H. by apply (scanWords_maximal [] x w). Qed.

Lemma addSynonyms_elem acc synonyms t :
  t ∈ addSynonyms acc synonyms <->
  t ∈ acc \/ exists syn, syn ∈ synonyms /\ keep syn = true /\ t = StemString syn.
Proof.
  unfold Tokenizer.addSynonyms. revert acc.
  induction synonyms as [|syn synonyms IH]; intros acc; cbn [fold_left].
  - split; [by left|]. intros [?|(syn & H & _)]; [done|]. by apply elem_of_nil in H.
  - rewrite IH. destruct (keep syn) eqn:Hk.
    + rewrite elem_of_union, elem_of_singleton. split.
      * intros [[->|?]|(syn' & H1 & H2 & H3)]; [right|by left|right].
        -- exists syn. split; [by left|done].
        -- exists syn'. split; [by right|done].
      * intros [?|(syn' & H1 & H2 & H3)]; [by left; right|].
        apply elem_of_cons in H1 as [->|H1]; [by left; left|].
        right. eauto.
    + split.
      * intros [?|(syn' & H1 & H2 & H3)]; [by left|right].
        exists syn'. split; [by right|done].
      * intros [?|(syn' & H1 & H2 & H3)]; [by left|].
        apply elem_of_cons in H1 as [->|H1]; [congruence|].
        right. eauto.
Qed.

Lemma addWord_elem expand acc word t :
  t ∈ addWord expand acc word <->
  t ∈ acc \/ (keep word = true /\ contributes expand word t).
Proof.
  unfold Tokenizer.addWord, contributes.
  destruct (keep word) eqn:Hk; [|naive_solver].
  destruct expand.
  - destruct (loadedSynonymMap !! word) as [synonyms|] eqn:Hs.
    + rewrite addSynonyms_elem, elem_of_union, elem_of_singleton.
      split.
      * intros [[->|?]|(syn & H1 & H2 & ->)]; [naive_solver|naive_solver|].
        apply keep_true in H2 as [??]. right. split; [done|]. right.
        split; [done|]. exists synonyms, syn. done.
      * intros [?|[_ [->|[_ (syns & syn & E & H1 & H2 & H3 & ->)]]]];
          [naive_solver|naive_solver|].
        injection E as <-. right. exists syn. rewrite keep_true. done.
    + rewrite elem_of_union, elem_of_singleton. naive_solver.
  - rewrite elem_of_union, elem_of_singleton. naive_solver.
Qed.

Lemma fold_addWord_elem expand words acc t :
  t ∈ fold_left (addWord expand) words acc <->
  t ∈ acc \/ exists word, word ∈ words /\ keep word = true /\
                          contributes expand word t.
Proof.
  revert acc. induction words as [|w words IH]; intros acc; cbn [fold_left].
  - split; [by left|]. intros [?|(w & H & _)]; [done|]. by apply elem_of_nil in H.
  - rewrite IH, addWord_elem. split.
    + intros [[?|[??]]|(w' & H1 & H2 & H3)]; [by left|right|right].
      * exists w. split; [by left|done].
      * exists w'. split; [by right|done].
    + intros [?|(w' & H1 & H2 & H3)]; [by left; left|].
      apply elem_of_cons in H1 as [->|H1]; [left; right; done|].
      right. eauto.
Qed.

(** Where a token comes from. *)
Lemma tokens_elem s expand t :
  t ∈ tokens s expand <->
  exists word, word ∈ FindAllString (ToLower s) /\ keep word = true /\
               contributes expand word t.
Proof.
  unfold Tokenizer.getStemmedTokensSet. destruct s as [|r s]; cbn [isEmpty].
  - split; [intros H; by apply elem_of_empty in H|].
    intros (w & H & _). by apply elem_of_nil in H.
  - rewrite fold_addWord_elem. split; [|by right].
    intros [H|H]; [by apply elem_of_empty in H|done].
Qed.

(** The expanded token set holds the plain one. *)
Lemma tokens_expand_subseteq s : tokens s false ⊆ tokens s true.
Proof.
  intros t. rewrite !tokens_elem. intros (w & H1 & H2 & [->|[? _]]); [|done].
  exists w. split; [done|]. split; [done|]. by left.
Qed.
End TokenizerFacts.

Section JoinFacts.
Variable IsLetter : N -> bool.
Variable ToLowerRune : N -> N.
Variable StemString : list N -> list N.
Variable loadedSynonymMap : gmap (list N) (list (list N)).

Local Abbreviation tokens :=
  (Tokenizer.getStemmedTokensSet IsLetter ToLowerRune StemString loadedSynonymMap).
Local Abbreviation scanWords := (Tokenizer.scanWords IsLetter).
Local Abbreviation FindAllString := (Tokenizer.FindAllString IsLetter).
Local Abbreviation ToLower := (Tokenizer.ToLower ToLowerRune).
Local Abbreviation keep := Tokenizer.keep.
Local Abbreviation selfStemmed := (selfStemmed IsLetter ToLowerRune StemString).

Lemma scanWords_letters run w rest :
  Forall (fun r => IsLetter r = true) w ->
  scanWords run (w ++ rest) = scanWords (rev w ++ run) rest.
Proof.
  revert run. induction w as [|r w IH]; intros run Hw; [done|].
  apply Forall_cons in Hw as [Hr Hw]. cbn [app Tokenizer.scanWords].
  rewrite Hr, IH by done. simpl. by rewrite <- app_assoc.
Qed.

Lemma flush_rev w : w <> [] -> Tokenizer.flush (rev w) = [w].
Proof.
  intros Hne. unfold Tokenizer.flush.
  destruct (rev w) eqn:E.
  - apply (f_equal (@rev N)) in E. rewrite rev_involutive in E. done.
  - by rewrite <- E, rev_involutive.
Qed.

Lemma FindAllString_Join words c :
  IsLetter c = false ->
  (forall w, w ∈ words -> w <> [] /\ Forall (fun r => IsLetter r = true) w) ->
  FindAllString (stringsJoin words [c]) = words.
Proof.
  intros Hc. unfold Tokenizer.FindAllString.
  induction words as [|w words IH]; intros Hall; [done|].
  destruct (Hall w ltac:(by left)) as [Hne Hl].
  destruct words as [|w' words].
  - cbn [stringsJoin]. rewrite <- (app_nil_r w) at 1.
    rewrite scanWords_letters by done. cbn [Tokenizer.scanWords].
    rewrite app_nil_r. by apply flush_rev.
  - change (stringsJoin (w :: w' :: words) [c]) with (w ++ c :: stringsJoin (w' :: words) [c]).
    rewrite scanWords_letters by done. cbn [Tokenizer.scanWords].
    rewrite Hc, app_nil_r, flush_rev by done.
    cbn [app]. f_equal. apply IH. intros x Hx. apply Hall. by right.
Qed.

Lemma ToLower_Join words sep :
  (forall w, w ∈ words -> ToLower w = w) ->
  ToLower (stringsJoin words sep) = stringsJoin words (ToLower sep).
Proof.
  unfold Tokenizer.ToLower.
  induction words as [|w words IH]; intros Hall; [done|].
  destruct words as [|w' words].
  - cbn [stringsJoin]. apply Hall. by left.
  - change (stringsJoin (w :: w' :: words) sep) with (w ++ sep ++ stringsJoin (w' :: words) sep).
    change (stringsJoin (w :: w' :: words) (ToLowerRune <$> sep))
      with (w ++ (ToLowerRune <$> sep) ++ stringsJoin (w' :: words) (ToLowerRune <$> sep)).
    rewrite !fmap_app. rewrite IH by (intros x Hx; apply Hall; by right).
    f_equal. apply Hall. by left.
Qed.

Lemma len_pos_nonempty (t : list N) : (1 < len t)%nat -> t <> [].
Proof. intros H ->. simpl in H. lia. Qed.

(** Tokenizing the joined tokens gives the tokens back, when each of
    them reads back as itself. *)
Lemma tokens_of_Join s order :
  let T := tokens s true in
  order ≡ₚ elements T ->
  (forall t, t ∈ T -> selfStemmed t) ->
  IsLetter (ToLowerRune 32%N) = false ->
  T ⊆ tokens (stringsJoin order (str " ")) true.
Proof.
  intros T Hperm Hself Hsp t Ht.
  assert (forall x, x ∈ order -> selfStemmed x) as Hord.
  { intros x Hx. apply Hself. rewrite Hperm in Hx. by apply elem_of_elements in Hx. }
  assert (t ∈ order) as Hto.
  { rewrite Hperm. by apply elem_of_elements. }
  apply (tokens_elem IsLetter ToLowerRune StemString loadedSynonymMap).
  exists t. destruct (Hord t Hto) as (Hst & Hsw & Hlen & Hl & Hlow).
  split; [|split].
  - rewrite ToLower_Join by (intros w Hw; apply (Hord w Hw)).
    change (ToLower (str " ")) with [ToLowerRune 32%N].
    rewrite FindAllString_Join; [done|done|].
    intros w Hw. destruct (Hord w Hw) as (_ & _ & Hlen' & Hl' & _).
    split; [by apply len_pos_nonempty|done].
  - by apply keep_true.
  - left. done.
Qed.
End JoinFacts.

(** * The properties of the design document *)

Section RankOrderFacts.
Context {F : Type} (flt feq : F -> F -> bool) `{!ScoreOrder flt feq}.
Variable Score : gostring -> PhotoMetadata -> F.
Local Abbreviation Less := (Heap.Less flt feq).
Local Abbreviation scored := (Rankers.scored Score).
Local Abbreviation topKOutput := (topKOutput flt feq Score).

Lemma Less_outranks query a b :
  Less (scored query a) (scored query b) = true <-> outranks flt Score query b a.
Proof.
  rewrite (Less_true flt feq). unfold outranks, Rankers.scored. simpl.
  intuition (try lia; try congruence).
Qed.

Lemma StronglySorted_lookup {A} (R : A -> A -> Prop) (l : list A) i j a b :
  StronglySorted R l -> (i < j)%nat ->
  l !! i = Some a -> l !! j = Some b -> R a b.
Proof.
  intros Hs. revert i j. induction Hs as [|x l Hs IH Hf]; intros i j Hij Ha Hb.
  - done.
  - destruct j as [|j]; [lia|]. destruct i as [|i]; simpl in *.
    + injection Ha as ->. rewrite Forall_forall in Hf. apply Hf.
      by eapply list_elem_of_lookup_2.
    + apply (IH i j); [lia|done|done].
Qed.

Lemma topKOutput_scored query k photos S D :
  sel flt feq (Z.to_nat k) S D (scored query <$> photos) ->
  forall s, s ∈ S ++ D -> s = scored query (photo s).
Proof.
  intros (Hp & _ & _) s Hs. rewrite Hp in Hs.
  apply list_elem_of_fmap in Hs as (p & -> & _). done.
Qed.

Lemma photo_scored query (photos : list PhotoMetadata) :
  photo <$> (scored query <$> photos) = photos.
Proof. induction photos as [|p ps IH]; [done|]. rewrite !fmap_cons, IH. done. Qed.

Lemma topKOutput_bestK query k photos out :
  topKOutput query k photos out -> bestK flt Score query k photos out.
Proof.
  intros (S & D & -> & Hdesc & Hsel).
  pose proof (topKOutput_scored query k photos S D Hsel) as Hsc.
  destruct Hsel as (Hp & Hl & Hdom).
  exists (photo <$> D). split; [|split].
  - by rewrite <- fmap_app, Hp, photo_scored.
  - by rewrite length_fmap, Hl, length_fmap.
  - intros p d Hp' Hd'.
    apply list_elem_of_fmap in Hp' as (s & -> & Hs).
    apply list_elem_of_fmap in Hd' as (e & -> & He).
    rewrite <- Less_outranks.
    rewrite <- (Hsc s) by (apply elem_of_app; by left).
    rewrite <- (Hsc e) by (apply elem_of_app; by right).
    by rewrite (Hdom s e Hs He).
Qed.

Lemma topKOutput_rankSorted query k photos out :
  topKOutput query k photos out -> rankSorted flt Score query out.
Proof.
  intros (S & D & -> & Hdesc & Hsel) i j a b Hij Ha Hb.
  pose proof (topKOutput_scored query k photos S D Hsel) as Hsc.
  rewrite list_lookup_fmap in Ha, Hb.
  destruct (S !! i) as [sa|] eqn:Hsa; [|done].
  destruct (S !! j) as [sb|] eqn:Hsb; [|done].
  simpl in Ha, Hb. injection Ha as <-. injection Hb as <-.
  pose proof (StronglySorted_lookup _ S i j sa sb Hdesc Hij Hsa Hsb) as Hless.
  simpl in Hless.
  rewrite (Hsc sa) in Hless
    by (apply elem_of_app; left; by eapply list_elem_of_lookup_2).
  rewrite (Hsc sb) in Hless
    by (apply elem_of_app; left; by eapply list_elem_of_lookup_2).
  assert (~ outranks flt Score query (photo sb) (photo sa)) as Hno.
  { rewrite <- Less_outranks. by rewrite Hless. }
  unfold outranks in Hno.
  split; [by destruct (flt _ _); [exfalso; apply Hno; by left|]|].
  intros Heq. split.
  - destruct (Z.le_gt_cases (StatsDownloads (photo sb)) (StatsDownloads (photo sa)));
      [done|]. exfalso. apply Hno. right. split; [done|]. left. lia.
  - intros Hd. destruct (strlt _ _) eqn:E; [|done].
    exfalso. apply Hno. right. split; [done|]. right. split; [done|]. done.
Qed.

Lemma rankSorted_nil query : rankSorted flt Score query [].
Proof. intros i j a b _ Ha. done. Qed.

End RankOrderFacts.

Section RankingClaims.
Context {F : Type} (flt feq : F -> F -> bool) `{!ScoreOrder flt feq}.
Variable Score : gostring -> PhotoMetadata -> F.
Variable sort_Slice :
  (scoredPhoto F -> scoredPhoto F -> bool) ->
  list (scoredPhoto F) -> list (scoredPhoto F).
Context `{!SortContract sort_Slice}.
(** [runtime.NumCPU()] is positive. *)
Variable NumCPU : Z.
Hypothesis NumCPU_pos : 0 < NumCPU.

Local Abbreviation Less := (Heap.Less flt feq).
Local Abbreviation scored := (Rankers.scored Score).
Local Abbreviation topKOutput := (topKOutput flt feq Score).
Local Abbreviation tiesAreEqual := (tiesAreEqual Score).
Local Abbreviation outranks := (outranks flt Score).
Local Abbreviation bestK := (bestK flt Score).
Local Abbreviation rankSorted := (rankSorted flt Score).
Local Abbreviation Rank := (Rankers.Rank flt feq Score sort_Slice).
Local Abbreviation RankBSP := (Rankers.RankBSP flt feq Score sort_Slice).
Local Abbreviation RankScoringPipeline_returns :=
  (Pipeline.RankScoringPipeline_returns flt feq Score sort_Slice NumCPU).
Local Abbreviation RankWS_returns :=
  (WS.RankWS_returns flt feq Score sort_Slice NumCPU).

Lemma Rank_degenerate query photos k :
  k <= 0 \/ photos = [] -> Rank query photos k = [].
Proof.
  intros H. unfold Rankers.Rank.
  destruct (Z.leb_spec k 0); [done|]. destruct H as [?| ->]; [lia|done].
Qed.

Lemma pipeline_degenerate query photos k numScorers out :
  k <= 0 \/ photos = [] ->
  RankScoringPipeline_returns query photos k numScorers out <-> out = [].
Proof.
  intros H. unfold Pipeline.RankScoringPipeline_returns.
  destruct (Z.leb_spec k 0); [done|]. destruct H as [?| ->]; [lia|done].
Qed.

Lemma ws_degenerate t0 t1 query photos k numWorkers out dur :
  k <= 0 \/ photos = [] ->
  RankWS_returns t0 t1 query photos k numWorkers out dur
  <-> out = [] /\ dur = t1 - t0.
Proof.
  intros H. unfold WS.RankWS_returns.
  destruct (Z.leb_spec k 0); [tauto|]. destruct H as [?| ->]; [lia|]. simpl. tauto.
Qed.

Lemma degenerate_dec (photos : list PhotoMetadata) k :
  (k <= 0 \/ photos = []) \/ (0 < k /\ photos <> []).
Proof. destruct photos; [left; by right|]. destruct (Z.le_gt_cases k 0); [left; by left|right]. split; [lia|done]. Qed.

(** When a slice expression is out of range, [RankBSP] panics. *)
Lemma RankBSP_panics t0 t1 query photos k numWorkers :
  0 < k -> photos <> [] -> ~ chunksInRange (length photos) numWorkers ->
  RankBSP t0 t1 query photos k numWorkers = None.
Proof.
  intros Hk Hne Hr.
  destruct (RankBSP t0 t1 query photos k numWorkers) eqn:E; [|done].
  exfalso. apply Hr.
  apply (RankBSP_returns_iff flt feq Score sort_Slice t0 t1 query photos k
           numWorkers Hk Hne).
  rewrite E. eauto.
Qed.


(** With its slice expressions in range, or with nothing to rank,
    [RankBSP] returns a result. *)
Lemma RankBSP_returns t0 t1 query photos k numWorkers :
  chunksInRange (length photos) numWorkers ->
  exists out,
    RankBSP t0 t1 query photos k numWorkers = Some (out, t1 - t0).
Proof.
  intros Hr. destruct (degenerate_dec photos k) as [Hdeg|[Hk Hne]].
  - exists []. by apply RankBSP_degenerate.
  - apply (RankBSP_returns_iff flt feq Score sort_Slice t0 t1 query photos k
             numWorkers Hk Hne) in Hr as [[out dur] E].
    destruct (RankBSP_topK flt feq Score sort_Slice _ _ _ _ _ _ _ _ Hk E)
      as [_ ->].
    by exists out.
Qed.

(** C3. For [k > 0], what a ranker returns is the [min(k, |photos|)]
    best candidates: together with the photos it leaves out it makes
    up the candidates, and no photo left out outranks (higher score,
    then more downloads, then smaller id) a photo it holds.  [Rank]
    returns such a list; so does [RankBSP] whenever its slice
    expressions are in range, and it returns nothing else;
    [RankScoringPipeline] and [RankWS] each have a run that returns,
    and every run of theirs returns such a list. *)
Theorem C3_topk_correctness t0 t1 query photos k numWorkers numScorers :
  0 < k ->
  bestK query k photos (Rank query photos k) /\
  (chunksInRange (length photos) numWorkers ->
   exists out,
     RankBSP t0 t1 query photos k numWorkers = Some (out, t1 - t0) /\
     bestK query k photos out) /\
  (forall out dur,
     RankBSP t0 t1 query photos k numWorkers = Some (out, dur) ->
     bestK query k photos out) /\
  ((exists out, RankScoringPipeline_returns query photos k numScorers out) /\
   forall out,
     RankScoringPipeline_returns query photos k numScorers out ->
     bestK query k photos out) /\
  ((exists out, RankWS_returns t0 t1 query photos k numWorkers out (t1 - t0)) /\
   forall out dur,
     RankWS_returns t0 t1 query photos k numWorkers out dur ->
     bestK query k photos out).
Proof.
  intros Hk.
  assert (forall out dur,
            RankBSP t0 t1 query photos k numWorkers = Some (out, dur) ->
            bestK query k photos out) as Hbsp.
  { intros out dur E. apply (topKOutput_bestK flt feq Score).
    by destruct (RankBSP_topK flt feq Score sort_Slice _ _ _ _ _ _ _ _ Hk E). }
  split; [|split; [|split; [|split]]].
  - apply (topKOutput_bestK flt feq Score). by apply Rank_topK.
  - intros Hr.
    destruct (RankBSP_returns t0 t1 query photos k numWorkers Hr) as [out E].
    exists out. split; [done|]. by apply (Hbsp out (t1 - t0)).
  - exact Hbsp.
  - split.
    + apply (pipeline_returns flt feq Score sort_Slice NumCPU NumCPU_pos).
    + intros out Hret. apply (topKOutput_bestK flt feq Score).
      by apply (pipeline_returns_topK flt feq Score sort_Slice NumCPU NumCPU_pos
                  query photos k numScorers).
  - split.
    + apply (ws_returns flt feq Score sort_Slice NumCPU NumCPU_pos).
    + intros out dur Hret. apply (topKOutput_bestK flt feq Score).
      by destruct (ws_returns_topK flt feq Score sort_Slice NumCPU NumCPU_pos
                     t0 t1 query photos k numWorkers out dur Hk Hret).
Qed.

(** C4. What a ranker returns is in rank order: the score never goes
    up along the list; between photos of equal score the downloads
    never go up; between photos of equal score and downloads the id
    never goes down.  [Rank] returns such a list; so does [RankBSP]
    whenever its slice expressions are in range, and it returns
    nothing else; [RankScoringPipeline] and [RankWS] each have a run
    that returns, and every run of theirs returns such a list. *)
Theorem C4_output_ordering t0 t1 query photos k numWorkers numScorers :
  rankSorted query (Rank query photos k) /\
  (chunksInRange (length photos) numWorkers ->
   exists out,
     RankBSP t0 t1 query photos k numWorkers = Some (out, t1 - t0) /\
     rankSorted query out) /\
  (forall out dur,
     RankBSP t0 t1 query photos k numWorkers = Some (out, dur) ->
     rankSorted query out) /\
  ((exists out, RankScoringPipeline_returns query photos k numScorers out) /\
   forall out,
     RankScoringPipeline_returns query photos k numScorers out ->
     rankSorted query out) /\
  ((exists out, RankWS_returns t0 t1 query photos k numWorkers out (t1 - t0)) /\
   forall out dur,
     RankWS_returns t0 t1 query photos k numWorkers out dur ->
     rankSorted query out).
Proof.
  assert (forall out dur,
            RankBSP t0 t1 query photos k numWorkers = Some (out, dur) ->
            rankSorted query out) as Hbsp.
  { intros out dur.
    destruct (degenerate_dec photos k) as [Hdeg|[Hk Hne]].
    - rewrite (RankBSP_degenerate flt feq Score sort_Slice t0 t1 query photos k
                 numWorkers Hdeg).
      intros [= <- _]. apply (rankSorted_nil flt Score).
    - intros E. apply (topKOutput_rankSorted flt feq Score query k photos).
      by destruct (RankBSP_topK flt feq Score sort_Slice _ _ _ _ _ _ _ _ Hk E). }
  split; [|split; [|split; [|split]]].
  - destruct (degenerate_dec photos k) as [Hdeg|[Hk Hne]].
    + rewrite (Rank_degenerate query photos k Hdeg).
      apply (rankSorted_nil flt Score).
    + apply (topKOutput_rankSorted flt feq Score query k photos).
      by apply Rank_topK.
  - intros Hr.
    destruct (RankBSP_returns t0 t1 query photos k numWorkers Hr) as [out E].
    exists out. split; [done|]. by apply (Hbsp out (t1 - t0)).
  - exact Hbsp.
  - split.
    + apply (pipeline_returns flt feq Score sort_Slice NumCPU NumCPU_pos).
    + intros out Hret.
      destruct (degenerate_dec photos k) as [Hdeg|[Hk Hne]].
      * apply pipeline_degenerate in Hret as ->; [|done].
        apply (rankSorted_nil flt Score).
      * apply (topKOutput_rankSorted flt feq Score query k photos).
        by apply (pipeline_returns_topK flt feq Score sort_Slice NumCPU
                    NumCPU_pos query photos k numScorers).
  - split.
    + apply (ws_returns flt feq Score sort_Slice NumCPU NumCPU_pos).
    + intros out dur Hret.
      destruct (degenerate_dec photos k) as [Hdeg|[Hk Hne]].
      * apply ws_degenerate in Hret as [-> _]; [|done].
        apply (rankSorted_nil flt Score).
      * apply (topKOutput_rankSorted flt feq Score query k photos).
        by destruct (ws_returns_topK flt feq Score sort_Slice NumCPU NumCPU_pos
                       t0 t1 query photos k numWorkers out dur Hk Hret).
Qed.

(** C7 (as amended). With [k <= 0] or no candidates every ranker
    returns an empty result and no error; [RankBSP] and [RankWS]
    report the time that went by between their two clock readings. *)
Theorem C7_degenerate_inputs t0 t1 query photos k numWorkers numScorers :
  k <= 0 \/ photos = [] ->
  Rank query photos k = [] /\
  RankBSP t0 t1 query photos k numWorkers = Some ([], t1 - t0) /\
  (forall out,
     RankScoringPipeline_returns query photos k numScorers out <-> out = []) /\
  (forall out dur,
     RankWS_returns t0 t1 query photos k numWorkers out dur
     <-> out = [] /\ dur = t1 - t0).
Proof.
  intros Hdeg. split; [|split; [|split]].
  - by apply Rank_degenerate.
  - by apply RankBSP_degenerate.
  - intros out. by apply pipeline_degenerate.
  - intros out dur. by apply ws_degenerate.
Qed.
End RankingClaims.

Section WSClaim.
Context {F : Type} (flt feq : F -> F -> bool).
Variable Score : gostring -> PhotoMetadata -> F.
Local Abbreviation step := (WS.step flt feq Score).
Local Abbreviation inv := (inv flt feq Score).

Lemma step_counter topK (s s' : @WS.state F) :
  step topK s s' -> WS.tasksWg s' <= WS.tasksWg s.
Proof. destruct 1; simpl; lia. Qed.

Lemma measure_finished tasks topK (s : @WS.state F) :
  inv tasks topK s -> WS.finished s -> WS.workers s <> [] -> measure s = 0%nat.
Proof.
  intros Hinv Hfin Hne.
  destruct (finished_end flt feq Score _ _ _ Hinv Hfin Hne) as (_ & _ & Hz & _ & Hq).
  destruct Hinv as [_ _ Ic _ _ _ _ _].
  unfold WS.finished in Hfin. rewrite Forall_forall in Hfin.
  unfold measure. rewrite Hq.
  rewrite (sum_zero weight) by (intros w Hw; by rewrite (Hfin w Hw)).
  rewrite (sum_zero active) by (intros w Hw; by rewrite (Hfin w Hw)).
  lia.
Qed.

(** C9. Work stealing over [N] tasks and any number of workers.
    Every run is finite: it has at most [3N + W + 1] steps, no state
    short of the end is stuck, and a run that reaches the end (all
    workers exited) has exactly that many.  Two pops from one deque,
    from either end, never give the same slot.  Throughout a run the
    tasks in the deques, in hand and pushed make up the task list,
    the counter is [N] less the number of decrements and never goes
    up, it has hit zero once exactly when it is zero, and no worker
    exits before that.  At the end every task has been pushed once,
    [N] decrements were made and zero was hit once. *)
Theorem C9_ws_liveness query photos numWorkers topK :
  photos <> [] -> (0 < numWorkers)%nat ->
  let tasks := (fun p => mkTask p query) <$> photos in
  let N := length photos in
  let s0 : @WS.state F := WS.init query photos numWorkers in
  (forall n s, nsteps (step topK) n s0 s ->
     (n <= 3 * N + numWorkers + 1)%nat /\
     (WS.finished s -> n = (3 * N + numWorkers + 1)%nat)) /\
  (forall s, rtc (step topK) s0 s -> ~ WS.finished s ->
     exists s', step topK s s') /\
  (exists s, rtc (step topK) s0 s /\ WS.finished s) /\
  (forall d t1 d1 t2 d2,
     PopTop d = Some (t1, d1) -> PopBottom d1 = Some (t2, d2) ->
     d = t1 :: d2 ++ [t2]) /\
  (forall d t1 d1 t2 d2,
     PopBottom d = Some (t1, d1) -> PopTop d1 = Some (t2, d2) ->
     d = t2 :: d2 ++ [t1]) /\
  (forall s, rtc (step topK) s0 s ->
     concat (WS.deques s) ++ concat (held <$> WS.workers s) ++ WS.log s
       ≡ₚ tasks /\
     WS.tasksWg s = Z.of_nat N - Z.of_nat (WS.decrements s) /\
     0 <= WS.tasksWg s /\
     WS.zeroHits s = (if WS.tasksWg s =? 0 then 1%nat else 0%nat) /\
     (WS.Exited ∈ WS.workers s -> WS.tasksWg s = 0) /\
     (forall s', step topK s s' -> WS.tasksWg s' <= WS.tasksWg s)) /\
  (forall s, rtc (step topK) s0 s -> WS.finished s ->
     WS.log s ≡ₚ tasks /\ WS.decrements s = N /\
     WS.zeroHits s = 1%nat /\ WS.tasksWg s = 0).
Proof.
  intros Hne HW tasks N s0.
  pose proof (inv_init flt feq Score query photos numWorkers topK HW Hne) as Hinit.
  fold tasks s0 in Hinit.
  assert (forall s, rtc (step topK) s0 s -> inv tasks topK s) as Hreach.
  { intros s Hrun. by eapply inv_rtc. }
  assert (forall s, rtc (step topK) s0 s -> WS.workers s <> []) as Hws.
  { intros s Hrun Hnil.
    pose proof (workers_length flt feq Score topK s0 s Hrun) as Hl.
    rewrite Hnil in Hl. simpl in Hl. rewrite length_replicate in Hl. lia. }
  split; [|split; [|split; [|split; [|split; [|split]]]]].
  - intros n s Hn.
    pose proof (nsteps_measure flt feq Score topK n s0 s Hn) as Hm.
    unfold s0 in Hm at 1. rewrite measure_init in Hm by done. fold N in Hm.
    split; [lia|]. intros Hfin.
    apply rtc_nsteps_2 in Hn.
    rewrite (measure_finished tasks topK s (Hreach s Hn) Hfin (Hws s Hn)) in Hm.
    lia.
  - intros s Hrun Hnf. by apply (progress flt feq Score tasks topK s (Hreach s Hrun)).
  - exact (run_to_end flt feq Score tasks topK s0 Hinit).
  - intros d t1 d1 t2 d2 H1 H2.
    apply PopTop_Some in H1 as ->. by apply PopBottom_Some in H2 as ->.
  - intros d t1 d1 t2 d2 H1 H2.
    apply PopBottom_Some in H1 as ->. by apply PopTop_Some in H2 as ->.
  - intros s Hrun. destruct (Hreach s Hrun) as [Il Ip Ic Id Io Iq Ie Iz].
    split; [done|]. split; [unfold tasks in Id; rewrite length_fmap in Id; lia|].
    split; [lia|]. split; [done|]. split; [auto|].
    intros s'. apply step_counter.
  - intros s Hrun Hfin.
    destruct (finished_end flt feq Score tasks topK s (Hreach s Hrun) Hfin (Hws s Hrun))
      as (Hlog & Hd & Hz & Hh & _).
    unfold tasks in Hd. rewrite length_fmap in Hd. done.
Qed.
End WSClaim.

Section TextClaims.
Variable IsLetter : rune -> bool.
Variable ToLowerRune : rune -> rune.
Variable StemString : gostring -> gostring.
Variable loadedSynonymMap : gmap gostring (list gostring).

Local Abbreviation getStemmedTokensSet :=
  (Tokenizer.getStemmedTokensSet IsLetter ToLowerRune StemString loadedSynonymMap).
Local Abbreviation Tokens :=
  (Tokenizer.Tokens IsLetter ToLowerRune StemString loadedSynonymMap).
Local Abbreviation addWord := (Tokenizer.addWord StemString loadedSynonymMap).
Local Abbreviation addSynonyms := (Tokenizer.addSynonyms StemString).
Local Abbreviation ToLower := (Tokenizer.ToLower ToLowerRune).
Local Abbreviation maximalRun := (maximalRun IsLetter).
Local Abbreviation contributes := (contributes StemString loadedSynonymMap).
Local Abbreviation selfStemmed := (selfStemmed IsLetter ToLowerRune StemString).
Local Abbreviation Score :=
  (Scorer.Score IsLetter ToLowerRune StemString loadedSynonymMap).
Local Abbreviation rawScore :=
  (Scorer.rawScore IsLetter ToLowerRune StemString loadedSynonymMap).
Local Abbreviation normalizationFactor :=
  (Scorer.normalizationFactor IsLetter ToLowerRune StemString loadedSynonymMap).
Local Abbreviation photoOriginalsSet :=
  (Scorer.photoOriginalsSet IsLetter ToLowerRune StemString loadedSynonymMap).

(** C2. The space being no letter, [Score] is the score of the
    design document, [Score_spec]: 0 when no token of the photo text
    is a query token, in particular when the text has no token;
    otherwise [raw / ln (1 + n)] with [n] the number of distinct
    photo tokens and [raw] ten times the number of photo tokens among
    the plain query tokens plus 1.5 times the number of those only
    among the expanded ones.  The photo text of the document is the
    description, the AI description, the country and the city, in
    this order, those that are not empty, separated by spaces; the
    text the program tokenizes is that text followed by one more
    space.  [raw] is what the loop adds up, in whatever order it
    visits the tokens. *)
Theorem C2_score_formula query photo :
  (IsLetter (ToLowerRune 32%N) = false ->
   Score query photo
   = Score_spec IsLetter ToLowerRune StemString loadedSynonymMap query photo) /\
  Scorer.photoText photo
  = photoText_spec photo
    ++ (if decide (photoText_spec photo = []) then [] else str " ") /\
  (photoOriginalsSet photo = ∅ -> Score query photo = 0%R) /\
  (forall order,
     order ≡ₚ elements (photoOriginalsSet photo) ->
     Scorer.accumulate (getStemmedTokensSet query false)
       (getStemmedTokensSet query true) order
     = (10 * INR (size (photoOriginalsSet photo ∩ getStemmedTokensSet query false))
        + 3 / 2 * INR (size (photoOriginalsSet photo ∩
             (getStemmedTokensSet query true ∖ getStemmedTokensSet query false))))%R).
Proof.
  split; [apply Score_meets_spec|]. split; [apply photoText_trailing|]. split.
  - intros E. unfold Scorer.Score. rewrite E, size_empty. by rewrite decide_True.
  - intros order Hperm.
    rewrite (accumulate_perm _ _ _ _ Hperm).
    apply (rawScore_count IsLetter ToLowerRune StemString loadedSynonymMap).
Qed.


(** What the filter of the tokenizer does, lengths being counted in
    bytes.  Every token is the stem of a maximal run of letters of
    the lower-cased input that is not a stopword and is longer than
    one byte, or, under expansion, the stem of one of that run's
    synonyms that is not a stopword and is longer than one byte.  A
    surface word that is a stopword or at most one byte long adds
    nothing to the token set; so a word made of one one-byte letter
    never does. *)
Theorem tokenizer_filter_by_bytes :
  (forall s expand t,
     t ∈ getStemmedTokensSet s expand ->
     exists word,
       maximalRun (ToLower s) word /\
       isStopword word = false /\ (1 < len word)%nat /\
       contributes expand word t) /\
  (forall expand setT word,
     isStopword word = true \/ (len word <= 1)%nat ->
     addWord expand setT word = setT) /\
  (forall expand setT r,
     (r < 0x80)%N -> addWord expand setT [r] = setT) /\
  (forall setT synonyms t,
     t ∈ addSynonyms setT synonyms <->
     t ∈ setT \/
     exists syn, syn ∈ synonyms /\ isStopword syn = false /\
                 (1 < len syn)%nat /\ t = StemString syn).
Proof.
  assert (forall expand setT word,
            isStopword word = true \/ (len word <= 1)%nat ->
            addWord expand setT word = setT) as Hdrop.
  { intros expand setT word H. apply keep_false in H.
    unfold Tokenizer.addWord. by rewrite H. }
  split; [|split; [|split]].
  - intros s expand t Ht.
    apply (tokens_elem IsLetter ToLowerRune StemString loadedSynonymMap) in Ht
      as (word & Hw & Hk & Hc).
    apply keep_true in Hk as [Hs Hl].
    exists word. split; [by apply FindAllString_maximal|done].
  - exact Hdrop.
  - intros expand setT r Hr. apply Hdrop. right.
    unfold len, RuneLen. apply N.ltb_lt in Hr. rewrite Hr. lia.
  - intros setT synonyms t. rewrite addSynonyms_elem.
    split; (intros [?|(syn & H1 & H2 & H3)]; [by left|right]; exists syn).
    + apply keep_true in H2. tauto.
    + destruct H3 as [? ?]. rewrite keep_true. tauto.
Qed.

(** C8 (as amended). When every token of [s] reads back as itself
    (its own stem, not a stopword, made of lower-case letters only
    and longer than one byte), the tokens of [Tokens s] joined by
    spaces, in whatever order the slice comes, include every token
    of [s]. *)
Theorem C8_tokenizer_idempotence s order :
  order ≡ₚ Tokens s ->
  (forall t, t ∈ getStemmedTokensSet s true -> selfStemmed t) ->
  IsLetter (ToLowerRune 32%N) = false ->
  getStemmedTokensSet s true
    ⊆ getStemmedTokensSet (stringsJoin order (str " ")) true.
Proof.
  intros Hperm Hself Hsp.
  by apply (tokens_of_Join IsLetter ToLowerRune StemString loadedSynonymMap).
Qed.
End TextClaims.

(** * The properties at concrete inputs *)

Lemma NumCPU8_pos : 0 < 8.
Proof. reflexivity. Qed.



Lemma scenarioS1_ties query : tiesAreEqual demoScore query scenarioS1.
Proof.
  intros p1 p2 H1 H2 _ _ Hid. unfold scenarioS1 in H1, H2.
  repeat (apply elem_of_cons in H1 as [->|H1]);
    try (by apply elem_of_nil in H1);
    repeat (apply elem_of_cons in H2 as [->|H2]);
    try (by apply elem_of_nil in H2);
    try reflexivity; vm_compute in Hid; discriminate Hid.
Qed.

Lemma chunksInRange_3_2 : chunksInRange 3 2.
Proof. vm_compute. discriminate. Qed.



(** C3 at scenario S1, with two workers. *)
Lemma C3_witness :
  0 < 2 /\
  bestK Rltb demoScore (str "foo") 2 scenarioS1
    (Rankers.Rank Rltb Reqb demoScore Heap.insertionSort (str "foo") scenarioS1 2) /\
  exists out,
    Rankers.RankBSP Rltb Reqb demoScore Heap.insertionSort 0 7
      (str "foo") scenarioS1 2 2 = Some (out, 7) /\
    bestK Rltb demoScore (str "foo") 2 scenarioS1 out.
Proof.
  pose proof (C3_topk_correctness Rltb Reqb demoScore Heap.insertionSort
                8 NumCPU8_pos 0 7 (str "foo") scenarioS1 2 2 2 eq_refl) as H.
  split; [reflexivity|]. split; [exact (proj1 H)|].
  exact (proj1 (proj2 H) chunksInRange_3_2).
Defined.

(** C4 at scenario S1, with two workers. *)
Lemma C4_witness :
  rankSorted Rltb demoScore (str "foo")
    (Rankers.Rank Rltb Reqb demoScore Heap.insertionSort (str "foo") scenarioS1 2) /\
  exists out,
    Rankers.RankBSP Rltb Reqb demoScore Heap.insertionSort 0 7
      (str "foo") scenarioS1 2 2 = Some (out, 7) /\
    rankSorted Rltb demoScore (str "foo") out.
Proof.
  pose proof (C4_output_ordering Rltb Reqb demoScore Heap.insertionSort
                8 NumCPU8_pos 0 7 (str "foo") scenarioS1 2 2 2) as H.
  split; [exact (proj1 H)|].
  exact (proj1 (proj2 H) chunksInRange_3_2).
Defined.

Lemma chunksInRange_5_4 : ~ chunksInRange 5 4.
Proof. vm_compute. intros H. by apply H. Qed.

(** C5, the input on which the code fails: five candidates and four
    workers.  The chunk size is 2, the fourth worker's slice is
    [photos[6:5]], and [RankBSP] panics instead of returning one
    photo. *)
Lemma C5_bsp_slice_out_of_range :
  Rankers.RankBSP Rltb Reqb demoScore Heap.insertionSort 0 0
    (str "foo") fivePhotos 1 4 = None
  /\ Rankers.photoChunk fivePhotos 2 3 = None
  /\ length (Rankers.Rank Rltb Reqb demoScore Heap.insertionSort
               (str "foo") fivePhotos 1) = 1%nat.
Proof.
  split; [|split].
  - apply (RankBSP_panics Rltb Reqb demoScore Heap.insertionSort);
      [reflexivity|discriminate|exact chunksInRange_5_4].
  - reflexivity.
  - destruct (topKOutput_bestK Rltb Reqb demoScore (str "foo") 1 fivePhotos _
                (Rank_topK Rltb Reqb demoScore Heap.insertionSort
                   (str "foo") fivePhotos 1 eq_refl)) as (ex & _ & Hl & _).
    exact Hl.
Qed.

(** C7 with no candidates. *)
Lemma C7_witness :
  Rankers.Rank Rltb Reqb demoScore Heap.insertionSort (str "q") [] 5 = [] /\
  Rankers.RankBSP Rltb Reqb demoScore Heap.insertionSort 100 105 (str "q") [] 5 2
    = Some ([], 5).
Proof.
  pose proof (C7_degenerate_inputs Rltb Reqb demoScore Heap.insertionSort 8
                100 105 (str "q") [] 5 2 2 (or_intror eq_refl)) as H.
  split; [exact (proj1 H)|exact (proj1 (proj2 H))].
Defined.

(** Against C7 as stated: the duration reported on an empty candidate
    list is the time between the two clock readings, here 5 and not
    zero. *)
Lemma C7_counterexample :
  Rankers.RankBSP Rltb Reqb demoScore Heap.insertionSort 100 105 (str "q") [] 5 2
  <> Some ([], 0).
Proof.
  rewrite (RankBSP_degenerate Rltb Reqb demoScore Heap.insertionSort
             100 105 (str "q") [] 5 2 (or_intror eq_refl)).
  discriminate.
Qed.

(** C9 at scenario S1 with two workers: a run to the end exists. *)
Lemma C9_witness :
  scenarioS1 <> [] /\ (0 < 2)%nat /\
  exists s : @WS.state R,
    rtc (WS.step Rltb Reqb demoScore 2) (WS.init (str "foo") scenarioS1 2) s /\
    WS.finished s.
Proof.
  split; [discriminate|]. split; [lia|].
  exact (proj1 (proj2 (proj2
    (C9_ws_liveness Rltb Reqb demoScore (str "foo") scenarioS1 2 2
       ltac:(discriminate) ltac:(lia))))).
Defined.

(** C2 at photo A of scenario S1 and the query "foo". *)
Lemma C2_witness :
  latin1IsLetter (latin1ToLower 32%N) = false /\
  demoScore (str "foo") photoA
  = Score_spec latin1IsLetter latin1ToLower ingStem demoSynonyms
      (str "foo") photoA.
Proof.
  split; [reflexivity|].
  exact (proj1 (C2_score_formula latin1IsLetter latin1ToLower ingStem
                  demoSynonyms (str "foo") photoA) eq_refl).
Defined.



(** At "Hello, the World": the token "hello" comes from a maximal
    run of letters. *)
Lemma tokenizer_filter_hello :
  str "hello" ∈ demoTokens (str "Hello, the World") false /\
  exists word,
    maximalRun latin1IsLetter
      (Tokenizer.ToLower latin1ToLower (str "Hello, the World")) word /\
    isStopword word = false /\ (1 < len word)%nat /\
    contributes ingStem demoSynonyms false word (str "hello").
Proof.
  assert (str "hello" ∈ demoTokens (str "Hello, the World") false) as Hin.
  { apply (bool_decide_unpack _). vm_compute. exact I. }
  split; [exact Hin|].
  exact (proj1 (tokenizer_filter_by_bytes latin1IsLetter latin1ToLower ingStem
                  demoSynonyms)
           (str "Hello, the World") false (str "hello") Hin).
Defined.

(** C6, the input on which the code fails: the word "é".  It is a
    single letter, U+00E9, and a surface word of its own; its UTF-8
    encoding has two bytes, so it passes [len(word) > 1] and gives a
    token, where the single letter "e" gives none. *)
Lemma C6_single_letter_kept :
  Tokenizer.FindAllString latin1IsLetter
    (Tokenizer.ToLower latin1ToLower [233%N]) = [[233%N]] /\
  length [233%N] = 1%nat /\ len [233%N] = 2%nat /\
  demoTokens [233%N] false = {[ [233%N] ]} /\
  demoTokens (str "e") false = ∅.
Proof.
  split; [reflexivity|]. split; [reflexivity|]. split; [reflexivity|].
  split; vm_compute; reflexivity.
Qed.

Lemma cat_dog_elements :
  elements (demoTokens (str "cat dog") true) = [str "cat"; str "dog"].
Proof. vm_compute. reflexivity. Qed.

Lemma cat_dog_selfStemmed t :
  t ∈ demoTokens (str "cat dog") true ->
  selfStemmed latin1IsLetter latin1ToLower ingStem t.
Proof.
  intros Ht. apply elem_of_elements in Ht. rewrite cat_dog_elements in Ht.
  apply elem_of_cons in Ht as [->|Ht];
    [|apply elem_of_cons in Ht as [->|Ht]; [|by apply elem_of_nil in Ht]];
    (split; [vm_compute; reflexivity|];
     split; [vm_compute; reflexivity|];
     split; [vm_compute; lia|];
     split; [repeat constructor|vm_compute; reflexivity]).
Qed.

(** C8 at "cat dog". *)
Lemma C8_witness :
  demoTokens (str "cat dog") true
  ⊆ demoTokens
      (stringsJoin
         (Tokenizer.Tokens latin1IsLetter latin1ToLower ingStem demoSynonyms
            (str "cat dog"))
         (str " ")) true.
Proof.
  exact (C8_tokenizer_idempotence latin1IsLetter latin1ToLower ingStem demoSynonyms
           (str "cat dog") _ (Permutation_refl _) cat_dog_selfStemmed eq_refl).
Defined.

(** Against C8 as stated: the only token of "oing" is "o", which is
    its own stem and no stopword; joined and tokenized again it is
    dropped for its length, and the token set comes back empty. *)
Lemma C8_counterexample :
  let T := demoTokens (str "oing") true in
  (forall t, t ∈ T -> ingStem t = t /\ isStopword t = false) /\
  ~ (T ⊆ demoTokens
           (stringsJoin
              (Tokenizer.Tokens latin1IsLetter latin1ToLower ingStem demoSynonyms
                 (str "oing"))
              (str " ")) true).
Proof.
  assert (demoTokens (str "oing") true = {[ str "o" ]}) as E.
  { vm_compute. reflexivity. }
  assert (Tokenizer.Tokens latin1IsLetter latin1ToLower ingStem demoSynonyms
            (str "oing") = [str "o"]) as E2.
  { vm_compute. reflexivity. }
  assert (demoTokens (str "o") true = ∅) as E3.
  { vm_compute. reflexivity. }
  cbv zeta. rewrite E, E2. split.
  - intros t Ht. apply elem_of_singleton in Ht as ->.
    split; vm_compute; reflexivity.
  - change (stringsJoin [str "o"] (str " ")) with (str "o"). rewrite E3.
    intros H. specialize (H (str "o")).
    apply elem_of_empty in H; [done|]. by apply elem_of_singleton.
Qed.

(** * Further properties of the code *)

(** ** The deque and the distribution of tasks *)

Lemma PopBottom_snoc tasks task : PopBottom (tasks ++ [task]) = Some (task, tasks).
Proof.
  unfold PopBottom. rewrite last_snoc, length_app. simpl.
  replace (length tasks + 1 - 1)%nat with (length tasks) by lia.
  by rewrite take_app_length.
Qed.

(** X1. A deque is a stack for its owner and a queue for thieves:
    pushing tasks appends them in order; [PopBottom] after a
    [PushBottom] gives back the task pushed and the deque as it was;
    [PopTop] after a [PushBottom] takes the oldest task and leaves the
    new one at the bottom. *)
Theorem deque_owner_lifo_thief_fifo tasks pushed task :
  fold_left PushBottom pushed tasks = tasks ++ pushed /\
  PopBottom (PushBottom tasks task) = Some (task, tasks) /\
  PopTop (PushBottom tasks task)
    = Some (match tasks with
            | [] => (task, [])
            | oldest :: rest => (oldest, PushBottom rest task)
            end).
Proof.
  split; [|split].
  - revert tasks. induction pushed as [|t ts IH]; intros tasks; simpl.
    + by rewrite app_nil_r.
    + rewrite IH. unfold PushBottom. by rewrite <- app_assoc.
  - apply PopBottom_snoc.
  - by destruct tasks.
Qed.


(** X3. The pops fail exactly on the empty deque, which is where
    [IsEmpty] holds and [Size] is 0; a pop that succeeds takes one
    task of the deque and leaves the others, so [Size] goes down by
    one; [PushBottom] makes it go up by one; a new deque is empty. *)
Theorem deque_empty_and_size tasks :
  (PopBottom tasks = None <-> Deque.IsEmpty tasks = true) /\
  (PopTop tasks = None <-> Deque.IsEmpty tasks = true) /\
  (Deque.IsEmpty tasks = true <-> Deque.Size tasks = 0) /\
  (forall task rest,
     PopBottom tasks = Some (task, rest) \/ PopTop tasks = Some (task, rest) ->
     Deque.Size rest = Deque.Size tasks - 1 /\ task ∈ tasks /\ rest ⊆+ tasks) /\
  (forall task, Deque.Size (PushBottom tasks task) = Deque.Size tasks + 1) /\
  Deque.IsEmpty NewDeque = true.
Proof.
  unfold Deque.IsEmpty, Deque.Size.
  split; [|split; [|split; [|split; [|split]]]].
  - destruct tasks as [|t ts] using rev_ind; [done|].
    rewrite PopBottom_snoc, length_app. simpl. split; [done|].
    intros H. apply Nat.eqb_eq in H. lia.
  - by destruct tasks.
  - rewrite Nat.eqb_eq. lia.
  - intros task rest [H|H].
    + apply PopBottom_Some in H. subst. rewrite length_app. simpl.
      split; [lia|]. split; [set_solver|]. by apply submseteq_inserts_r.
    + apply PopTop_Some in H. subst. simpl.
      split; [lia|]. split; [set_solver|]. by apply submseteq_cons.
  - intros task. unfold PushBottom. rewrite length_app. simpl. lia.
  - reflexivity.
Qed.

Lemma distribute_snoc W q photos p :
  distribute W q (photos ++ [p]) =
  alter (fun d => PushBottom d (mkTask p q)) (length photos mod W)%nat
        (distribute W q photos).
Proof.
  unfold distribute. rewrite imap_app, fold_left_app. simpl.
  by rewrite Nat.add_0_r.
Qed.

Lemma stride_snoc {A} W j (l : list A) x :
  stride W j (l ++ [x]) =
  stride W j l ++ (if decide ((length l mod W)%nat = j) then [x] else []).
Proof.
  unfold stride. rewrite imap_app, filter_app, fmap_app. f_equal.
  simpl. rewrite Nat.add_0_r.
  rewrite filter_cons. simpl. by destruct (decide _).
Qed.

Lemma distribute_length W q photos : length (distribute W q photos) = W.
Proof.
  induction photos as [|p photos IH] using rev_ind.
  - unfold distribute. simpl. by rewrite length_replicate.
  - by rewrite distribute_snoc, length_alter.
Qed.

Lemma distribute_lookup W q photos j :
  (j < W)%nat ->
  distribute W q photos !! j
  = Some ((fun p => mkTask p q) <$> stride W j photos).
Proof.
  intros Hj. induction photos as [|p photos IH] using rev_ind.
  - unfold distribute. simpl. by rewrite lookup_replicate_2 by done.
  - rewrite distribute_snoc, stride_snoc.
    case_decide as E.
    + rewrite E, list_lookup_alter_eq, IH. simpl.
      unfold PushBottom. by rewrite fmap_app.
    + rewrite list_lookup_alter_ne, IH by done. by rewrite app_nil_r.
Qed.

Lemma stride_count_step (N W j : nat) :
  (j < W)%nat ->
  ((N + 1 + W - 1 - j) / W =
   (N + W - 1 - j) / W + (if decide (N mod W = j) then 1 else 0))%nat.
Proof.
  intros Hj.
  assert (W <> 0)%nat as HW by lia.
  pose proof (Nat.div_mod_eq N W) as HN.
  pose proof (Nat.mod_upper_bound N W HW) as HNm.
  set (a := (N / W)%nat) in *. set (r := (N mod W)%nat) in *.
  destruct (decide (r = j)) as [E|E].
  - replace (N + 1 + W - 1 - j)%nat with (0 + (a + 1) * W)%nat by nia.
    replace (N + W - 1 - j)%nat with ((W - 1) + a * W)%nat by nia.
    rewrite !Nat.div_add by done.
    rewrite !Nat.div_small by lia. lia.
  - destruct (decide (r < j)%nat).
    + replace (N + 1 + W - 1 - j)%nat with ((r + W - j) + a * W)%nat by nia.
      replace (N + W - 1 - j)%nat with ((r + W - 1 - j) + a * W)%nat by nia.
      rewrite !Nat.div_add by done.
      rewrite !Nat.div_small by lia. lia.
    + replace (N + 1 + W - 1 - j)%nat with ((r - j) + (a + 1) * W)%nat by nia.
      replace (N + W - 1 - j)%nat with ((r - 1 - j) + (a + 1) * W)%nat by nia.
      rewrite !Nat.div_add by done.
      rewrite !Nat.div_small by lia. lia.
Qed.

Lemma stride_length {A} W j (l : list A) :
  (j < W)%nat ->
  length (stride W j l) = ((length l + W - 1 - j) / W)%nat.
Proof.
  intros Hj. induction l as [|x l IH] using rev_ind.
  - unfold stride. simpl. rewrite Nat.div_small; lia.
  - rewrite stride_snoc, !length_app, IH. simpl.
    rewrite stride_count_step by done.
    by destruct (decide _).
Qed.

Lemma div_gt_iff (x W i : nat) :
  (0 < W)%nat -> (i < x / W <-> (i + 1) * W <= x)%nat.
Proof.
  intros HW. split.
  - intros H. pose proof (Nat.div_mod_eq x W). nia.
  - intros H. apply Nat.div_le_lower_bound; lia.
Qed.

Lemma stride_lookup {A} W j (l : list A) i :
  (j < W)%nat -> stride W j l !! i = l !! (j + i * W)%nat.
Proof.
  intros Hj. induction l as [|x l IH] using rev_ind.
  - unfold stride. simpl. by rewrite !lookup_nil.
  - rewrite stride_snoc.
    pose proof (stride_length W j l Hj) as HL.
    assert (i < length (stride W j l) <-> j + i * W < length l)%nat as Hlt.
    { rewrite HL, div_gt_iff by lia. lia. }
    destruct (decide (i < length (stride W j l))%nat) as [Hi|Hi].
    + rewrite !lookup_app_l by tauto. done.
    + assert (length l <= j + i * W)%nat as Hge by lia.
      rewrite (lookup_app_r l) by done.
      rewrite lookup_app_r by lia.
      case_decide as E.
      * pose proof (Nat.div_mod_eq (length l) W) as HN.
        rewrite E in HN.
        assert (length (stride W j l) = length l / W)%nat as HL2.
        { rewrite HL, HN at 1.
          replace (W * (length l / W) + j + W - 1 - j)%nat
            with ((W - 1) + (length l / W) * W)%nat by lia.
          rewrite Nat.div_add by lia. rewrite Nat.div_small by lia. lia. }
        destruct (decide (i = length l / W)%nat) as [->|Hne].
        -- rewrite HL2, Nat.sub_diag.
           replace (j + length l / W * W - length l)%nat with 0%nat by lia.
           done.
        -- assert (length l / W < i)%nat by lia.
           rewrite !lookup_ge_None_2; [done| |]; simpl; nia.
      * rewrite lookup_nil. symmetry. apply lookup_ge_None_2. simpl.
        assert (j + i * W <> length l)%nat; [|lia].
        intros Heq. apply E. rewrite <- Heq.
        rewrite Nat.Div0.mod_add. by apply Nat.mod_small.
Qed.

(** X4. The distribution loop of [RankWS] is round-robin: deque [j]
    receives the tasks of the photos [j], [j + W], [j + 2W], ..., in
    this order; the deques' sizes are between [N / W] and [N / W]
    rounded up; and with no more workers than photos no deque starts
    out empty. *)
Theorem distribute_round_robin numWorkers queryString photos j :
  (j < numWorkers)%nat ->
  exists d,
    distribute numWorkers queryString photos !! j = Some d /\
    (forall i, d !! i =
       (fun p => mkTask p queryString) <$> photos !! (j + i * numWorkers)%nat) /\
    (length photos / numWorkers <= length d
     <= (length photos + numWorkers - 1) / numWorkers)%nat /\
    (numWorkers <= length photos -> d <> [])%nat.
Proof.
  intros Hj. eexists. split; [by apply distribute_lookup|].
  assert (length ((fun p => mkTask p queryString) <$> stride numWorkers j photos)
          = ((length photos + numWorkers - 1 - j) / numWorkers)%nat) as HL.
  { by rewrite length_fmap, stride_length. }
  assert (length photos / numWorkers
          <= (length photos + numWorkers - 1 - j) / numWorkers)%nat as Hlo.
  { apply Nat.Div0.div_le_mono. lia. }
  split; [|split].
  - intros i. by rewrite list_lookup_fmap, stride_lookup.
  - rewrite HL. split; [done|]. apply Nat.Div0.div_le_mono. lia.
  - intros HW E. rewrite E in HL. simpl in HL.
    assert (1 <= length photos / numWorkers)%nat; [|lia].
    apply Nat.div_le_lower_bound; lia.
Qed.

Lemma distribute_round_robin_witness :
  exists d,
    distribute 2 (str "q") scenarioS1 !! 0%nat = Some d /\
    d = [mkTask photoA (str "q"); mkTask photoC (str "q")].
Proof.
  destruct (distribute_round_robin 2 (str "q") scenarioS1 0 ltac:(lia))
    as (d & Hd & _).
  exists d. split; [exact Hd|].
  vm_compute in Hd. by injection Hd as <-.
Defined.

(** ** The barrier *)

Lemma arrivals_snoc b gs g :
  Barrier.arrivals b (gs ++ [g]) = Barrier.arrive (Barrier.arrivals b gs) g.
Proof. unfold Barrier.arrivals. by rewrite fold_left_app. Qed.

(** After any number of arrivals the barrier has let through the
    complete rounds and holds the rest. *)
Lemma arrivals_rounds n b0 gs :
  Barrier.New n = Some b0 ->
  let m := Z.of_nat (length gs) in
  let full := Z.to_nat (n * (m `div` n)) in
  Barrier.arrivals b0 gs
  = (Barrier.mkBarrier n (m `mod` n) (drop full gs), take full gs).
Proof.
  unfold Barrier.New. destruct (Z.leb_spec n 0) as [|Hn]; [done|].
  intros [= <-]. induction gs as [|g gs IH] using rev_ind.
  - simpl. rewrite Z.mod_0_l, Z.div_0_l by lia. rewrite Z.mul_0_r. done.
  - rewrite arrivals_snoc. cbv zeta in IH. rewrite IH. clear IH.
    unfold Barrier.arrive, Barrier.Wait. simpl. rewrite length_app. simpl.
    set (m := Z.of_nat (length gs)).
    replace (Z.of_nat (length gs + 1)) with (m + 1) by lia.
    pose proof (Z.div_mod m n ltac:(lia)) as Hm.
    pose proof (Z.mod_pos_bound m n Hn) as Hr.
    assert (0 <= m `div` n) as Hq by (apply Z.div_pos; lia).
    assert (n * (m `div` n) <= m) as Hle by lia.
    assert (Z.to_nat (n * (m `div` n)) <= length gs)%nat as Hle' by lia.
    destruct (Z.ltb_spec (m `mod` n + 1) n) as [Hlt|Hge].
    + assert ((m + 1) `div` n = m `div` n /\ (m + 1) `mod` n = m `mod` n + 1)
        as [-> ->].
      { assert (m + 1 = n * (m `div` n) + (m `mod` n + 1)) as E by lia.
        split; symmetry.
        - apply (Z.div_unique (m + 1) n (m `div` n) (m `mod` n + 1));
            [left; lia|exact E].
        - apply (Z.mod_unique (m + 1) n (m `div` n) (m `mod` n + 1));
            [left; lia|exact E]. }
      rewrite app_nil_r. f_equal.
      * f_equal. by rewrite drop_app_le.
      * by rewrite take_app_le.
    + assert ((m + 1) `div` n = m `div` n + 1 /\ (m + 1) `mod` n = 0)
        as [-> ->].
      { assert (m + 1 = n * (m `div` n + 1) + 0) as E by lia.
        split; symmetry.
        - apply (Z.div_unique (m + 1) n (m `div` n + 1) 0); [left; lia|exact E].
        - apply (Z.mod_unique (m + 1) n (m `div` n + 1) 0); [left; lia|exact E]. }
      assert (Z.to_nat (n * (m `div` n + 1)) = length (gs ++ [g])) as ->.
      { rewrite length_app. simpl. lia. }
      rewrite drop_all, (take_ge (gs ++ [g])) by lia.
      f_equal. rewrite app_assoc. by rewrite take_drop.
Qed.

(** X5. The barrier lets goroutines through in full rounds only.
    After any sequence [gs] of calls to [Wait] on [New(n)], the
    counter is [|gs| mod n] and stays within [0, n); the callers of
    the complete rounds have returned, in arrival order, and those of
    the round under way are parked; so nobody returns before the
    [n]th arrival, and at the [n]th everybody does and the barrier is
    back in its initial state, ready for reuse. *)
Theorem barrier_releases_in_full_rounds n b0 gs b passed :
  Barrier.New n = Some b0 ->
  Barrier.arrivals b0 gs = (b, passed) ->
  let m := Z.of_nat (length gs) in
  0 <= Barrier.count b < n /\
  Barrier.count b = m `mod` n /\
  passed ++ Barrier.parked b = gs /\
  Z.of_nat (length passed) = n * (m `div` n) /\
  (m < n -> passed = []) /\
  (m = n -> passed = gs /\ b = b0).
Proof.
  intros HN Harr. pose proof HN as HN'.
  unfold Barrier.New in HN'. destruct (Z.leb_spec n 0) as [|Hn]; [done|].
  injection HN' as <-.
  rewrite (arrivals_rounds n _ gs HN) in Harr. cbv zeta in Harr.
  injection Harr as <- <-. cbv zeta. simpl.
  set (m := Z.of_nat (length gs)).
  pose proof (Z.div_mod m n ltac:(lia)) as Hm.
  pose proof (Z.mod_pos_bound m n Hn) as Hr.
  assert (0 <= m `div` n) as Hq by (apply Z.div_pos; lia).
  split; [done|]. split; [done|]. split; [apply take_drop|].
  split; [rewrite length_take; lia|]. split.
  - intros Hlt. rewrite Z.div_small by lia. by rewrite Z.mul_0_r.
  - intros E. rewrite E, Z.div_same, Z.mod_same by lia.
    rewrite Z.mul_1_r. rewrite <- E. unfold m.
    rewrite Nat2Z.id, take_ge, drop_all by done. done.
Qed.

Lemma barrier_releases_in_full_rounds_witness :
  Barrier.arrivals (Barrier.mkBarrier 3 0 []) [0; 1]%nat
    = (Barrier.mkBarrier 3 2 [0; 1]%nat, []) /\
  Barrier.arrivals (Barrier.mkBarrier 3 0 []) [2; 0; 1]%nat
    = (Barrier.mkBarrier 3 0 [], [2; 0; 1]%nat).
Proof.
  split.
  - destruct (barrier_releases_in_full_rounds 3 _ [0; 1]%nat _ _
                eq_refl eq_refl) as (_ & _ & _ & _ & _ & _).
    reflexivity.
  - destruct (barrier_releases_in_full_rounds 3 _ [2; 0; 1]%nat _ _
                eq_refl eq_refl) as (_ & _ & _ & _ & _ & H).
    reflexivity.
Defined.


(** ** The heap, the collector and [Rank] *)

Section HeapExtras.
Context {F : Type} (flt feq : F -> F -> bool) `{!ScoreOrder flt feq}.
Local Abbreviation Less := (Heap.Less flt feq).
Local Abbreviation isHeap := (isHeap flt feq).
Implicit Types h : list (scoredPhoto F).

(** X7. [photoHeap.Less] is a strict weak order (irreflexive,
    transitive, and so is being not less); two elements are
    incomparable exactly when they agree on score, downloads and id.
    The replacement test spelled out at each insertion site is
    [Less root sp], and the closure given to [sort.Slice] is [Less]
    with its arguments swapped. *)
Theorem photoHeap_comparators_agree :
  (forall a, Less a a = false) /\
  (forall a b c, Less a b = true -> Less b c = true -> Less a c = true) /\
  (forall a b c, Less a b = false -> Less b c = false -> Less a c = false) /\
  (forall a b,
     Less a b = false /\ Less b a = false <->
     score a = score b /\
     StatsDownloads (photo a) = StatsDownloads (photo b) /\
     PhotoID (photo a) = PhotoID (photo b)) /\
  (forall sp root, Heap.shouldReplace flt feq sp root = Less root sp) /\
  (forall a b, Heap.sortLess flt feq a b = Less b a).
Proof.
  split; [apply (Less_irrefl flt feq)|].
  split; [apply (Less_trans flt feq)|].
  split; [apply (Less_negtrans flt feq)|].
  split; [apply (Less_tied_iff flt feq)|].
  split; [apply (shouldReplace_Less flt feq)|apply (sortLess_Less flt feq)].
Qed.

(** X8. [heap.Push] and [heap.Pop] on a [photoHeap] in heap order:
    [Push] keeps the heap order and adds just the element pushed;
    [Pop] fails on the empty heap (Go panics) and otherwise removes
    one element, than which none in the heap is less, and leaves the
    others in heap order. *)
Theorem heap_Push_Pop h x :
  isHeap h ->
  (isHeap (Heap.Push flt feq h x) /\ Heap.Push flt feq h x ≡ₚ x :: h) /\
  (h = [] -> Heap.Pop flt feq h = None) /\
  (h <> [] ->
   exists m h',
     Heap.Pop flt feq h = Some (m, h') /\
     h ≡ₚ m :: h' /\ isHeap h' /\
     forall y, y ∈ h -> Less y m = false).
Proof.
  intros Hh. split; [|split].
  - split; [by apply Push_heap|apply Push_perm].
  - by intros ->.
  - intros Hne.
    destruct (Pop_spec flt feq h Hne) as (m & h' & HP & H0 & Hperm & Hheap).
    exists m, h'. split; [done|]. split; [done|]. split; [by apply Hheap|].
    intros y Hy. apply list_elem_of_lookup in Hy as [c Hc].
    by apply (root_minimal flt feq h m Hh H0 c).
Qed.



(** X10. The collector never holds more than [topK] results:
    after any sequence of [Push] calls on a new collector the heap
    has [min(topK, pushes)] elements, all of them among those pushed,
    and is in heap order; with [topK <= 0] it stays empty. *)
Theorem Collector_holds_at_most_topK (topK : Z) log :
  let h := fold_left (Rankers.Collector_Push flt feq topK) log [] in
  length h = Nat.min (Z.to_nat topK) (length log) /\
  isHeap h /\ h ⊆+ log /\
  (topK <= 0 -> h = []).
Proof.
  cbv zeta. destruct (Z.le_gt_cases topK 0) as [Hk|Hk].
  - assert (fold_left (Rankers.Collector_Push flt feq topK) log [] = []) as ->.
    { induction log as [|x log IH]; [done|]. simpl.
      unfold Rankers.Collector_Push at 2.
      destruct (Z.leb_spec topK 0); [done|lia]. }
    split; [simpl; lia|]. split; [apply isHeap_nil|].
    split; [apply submseteq_nil_l|done].
  - rewrite (fold_Collector_Push flt feq topK log []) by lia.
    destruct (offer_all_nil flt feq topK log ltac:(lia))
      as [Hheap (D & Hperm & Hlen & _)].
    split; [done|]. split; [done|]. split; [|lia].
    etrans; [|apply Permutation_submseteq, Hperm]. by apply submseteq_inserts_r.
Qed.
End HeapExtras.

Section RankExtras.
Context {F : Type} (flt feq : F -> F -> bool) `{!ScoreOrder flt feq}.
Variable Score : gostring -> PhotoMetadata -> F.
Variable sort_Slice :
  (scoredPhoto F -> scoredPhoto F -> bool) ->
  list (scoredPhoto F) -> list (scoredPhoto F).
Context `{!SortContract sort_Slice}.
Variable NumCPU : Z.
Hypothesis NumCPU_pos : 0 < NumCPU.

Local Abbreviation Less := (Heap.Less flt feq).
Local Abbreviation scored := (Rankers.scored Score).
Local Abbreviation topKOutput := (topKOutput flt feq Score).
Local Abbreviation tiesAreEqual := (tiesAreEqual Score).
Local Abbreviation Rank := (Rankers.Rank flt feq Score sort_Slice).
Local Abbreviation RankBSP := (Rankers.RankBSP flt feq Score sort_Slice).
Local Abbreviation RankScoringPipeline_returns :=
  (Pipeline.RankScoringPipeline_returns flt feq Score sort_Slice NumCPU).
Local Abbreviation RankWS_returns :=
  (WS.RankWS_returns flt feq Score sort_Slice NumCPU).

Lemma topKOutput_perm query k photos photos' out :
  photos ≡ₚ photos' ->
  topKOutput query k photos out -> topKOutput query k photos' out.
Proof.
  intros Hp (S & D & -> & Hdesc & Hsel).
  exists S, D. split; [done|]. split; [done|].
  apply (sel_perm flt feq _ S S D (scored query <$> photos)); [done|done|].
  by rewrite Hp.
Qed.

Lemma tiesAreEqual_perm query photos photos' :
  photos ≡ₚ photos' -> tiesAreEqual query photos -> tiesAreEqual query photos'.
Proof.
  intros Hp Ht p1 p2 H1 H2. apply Ht; by rewrite Hp.
Qed.

(** X11. [Rank] does not depend on the order of the candidate
    list, provided a tie on score, downloads and id only joins equal
    records. *)
Theorem Rank_order_independent query photos photos' k :
  tiesAreEqual query photos ->
  photos ≡ₚ photos' ->
  Rank query photos' k = Rank query photos k.
Proof.
  intros Hties Hp.
  destruct (Z.le_gt_cases k 0) as [Hk|Hk].
  - unfold Rankers.Rank. by destruct (Z.leb_spec k 0); [|lia].
  - apply (topKOutput_unique flt feq Score query k photos); [done| |].
    + apply (topKOutput_perm query k photos'); [done|].
      by apply (Rank_topK flt feq Score sort_Slice).
    + by apply (Rank_topK flt feq Score sort_Slice).
Qed.

(** X12. The best [k] are the first [k] of the best [k']: for
    [0 < k <= k'], [Rank] at [k] returns the first [k] photos of what
    it returns at [k'] (under the same proviso on ties). *)
Theorem Rank_prefix query photos k k' :
  tiesAreEqual query photos ->
  0 < k <= k' ->
  Rank query photos k = take (Z.to_nat k) (Rank query photos k').
Proof.
  intros Hties [Hk Hkk].
  apply (topKOutput_unique flt feq Score query k photos); [done| |].
  { by apply (Rank_topK flt feq Score sort_Slice). }
  destruct (Rank_topK flt feq Score sort_Slice query photos k' ltac:(lia))
    as (S & D & -> & Hdesc & Hperm & Hlen & Hdom).
  exists (take (Z.to_nat k) S), (drop (Z.to_nat k) S ++ D).
  rewrite <- (take_drop (Z.to_nat k) S) in Hdesc.
  split; [by rewrite fmap_take|]. split; [|split; [|split]].
  - by apply StronglySorted_app_1_l in Hdesc.
  - by rewrite app_assoc, take_drop.
  - rewrite length_take, Hlen. lia.
  - intros s d Hs Hd. apply elem_of_app in Hd as [Hd|Hd].
    + by apply (StronglySorted_app_1_elem_of _ _ _ s d Hdesc).
    + apply Hdom; [|done]. by apply elem_of_take in Hs as (? & ?%list_elem_of_lookup_2 & _).
Qed.

(** X13. For [k > 0], whatever a ranker returns is made of
    candidates, each as often at most as it occurs among them, has
    at most [k] photos (the sanity warning of [cmd/bench] never
    fires) and is not empty when there are candidates (the "no good
    matches" branch of [cmd/finder] is only reached with
    [topk <= 0]). *)
Theorem rankers_return_candidates t0 t1 query photos k numWorkers numScorers out :
  0 < k ->
  out = Rank query photos k \/
  (exists dur, RankBSP t0 t1 query photos k numWorkers = Some (out, dur)) \/
  RankScoringPipeline_returns query photos k numScorers out \/
  (exists dur, RankWS_returns t0 t1 query photos k numWorkers out dur) ->
  out ⊆+ photos /\
  (length out <= Z.to_nat k)%nat /\
  (photos <> [] -> out <> []).
Proof.
  intros Hk Hout.
  assert (topKOutput query k photos out) as (S & D & -> & _ & Hperm & Hlen & _).
  { destruct Hout as [->|[[dur E]|[Hret|[dur Hret]]]].
    - by apply (Rank_topK flt feq Score sort_Slice).
    - by destruct (RankBSP_topK flt feq Score sort_Slice _ _ _ _ _ _ _ _ Hk E).
    - by apply (pipeline_returns_topK flt feq Score sort_Slice NumCPU NumCPU_pos
                  query photos k numScorers).
    - by destruct (ws_returns_topK flt feq Score sort_Slice NumCPU NumCPU_pos
                     t0 t1 query photos k numWorkers _ dur Hk Hret). }
  rewrite length_fmap in Hlen. split; [|split].
  - rewrite <- (photo_scored Score query photos).
    apply fmap_submseteq. etrans; [|apply Permutation_submseteq, Hperm].
    by apply submseteq_inserts_r.
  - rewrite length_fmap. lia.
  - intros Hne E. apply fmap_nil_inv in E. rewrite E in Hlen. simpl in Hlen.
    destruct photos; [done|]. simpl in Hlen. lia.
Qed.
End RankExtras.

(** ** The tokenizer and the scorer *)

Section TextExtras.
Variable IsLetter : rune -> bool.
Variable ToLowerRune : rune -> rune.
Variable StemString : gostring -> gostring.
Variable loadedSynonymMap : gmap gostring (list gostring).

Local Abbreviation tokens :=
  (Tokenizer.getStemmedTokensSet IsLetter ToLowerRune StemString loadedSynonymMap).
Local Abbreviation Tokens :=
  (Tokenizer.Tokens IsLetter ToLowerRune StemString loadedSynonymMap).
Local Abbreviation scanWords := (Tokenizer.scanWords IsLetter).
Local Abbreviation FindAllString := (Tokenizer.FindAllString IsLetter).
Local Abbreviation ToLower := (Tokenizer.ToLower ToLowerRune).
Local Abbreviation addWord := (Tokenizer.addWord StemString loadedSynonymMap).
Local Abbreviation Score :=
  (Scorer.Score IsLetter ToLowerRune StemString loadedSynonymMap).
Local Abbreviation rawScore :=
  (Scorer.rawScore IsLetter ToLowerRune StemString loadedSynonymMap).
Local Abbreviation photoOriginalsSet :=
  (Scorer.photoOriginalsSet IsLetter ToLowerRune StemString loadedSynonymMap).

Lemma scanWords_split run a c b :
  IsLetter c = false ->
  scanWords run (a ++ c :: b) = scanWords run a ++ scanWords [] b.
Proof.
  intros Hc. revert run. induction a as [|r a IH]; intros run; simpl.
  - by rewrite Hc.
  - destruct (IsLetter r); rewrite IH; [done|by rewrite app_assoc].
Qed.

Lemma tokens_fold s expand :
  tokens s expand = fold_left (addWord expand) (FindAllString (ToLower s)) ∅.
Proof. unfold Tokenizer.getStemmedTokensSet. by destruct s. Qed.

Lemma tokens_app_sep a b c expand :
  IsLetter (ToLowerRune c) = false ->
  tokens (a ++ c :: b) expand = tokens a expand ∪ tokens b expand.
Proof.
  intros Hc. rewrite !tokens_fold.
  unfold Tokenizer.FindAllString, Tokenizer.ToLower.
  rewrite fmap_app, fmap_cons, (scanWords_split _ _ _ _ Hc).
  apply set_eq. intros t.
  rewrite elem_of_union,
    !(fold_addWord_elem StemString loadedSynonymMap).
  setoid_rewrite elem_of_app. set_solver.
Qed.

Lemma tokens_writeField f rest expand :
  IsLetter (ToLowerRune 32%N) = false ->
  tokens (Scorer.writeField f ++ rest) expand
  = tokens f expand ∪ tokens rest expand.
Proof.
  intros Hsp. destruct f as [|r f].
  - simpl. rewrite (tokens_fold [] expand). simpl. set_solver.
  - change (Scorer.writeField (r :: f)) with ((r :: f) ++ [32%N]).
    rewrite <- app_assoc. by apply tokens_app_sep.
Qed.

(** X14. The space being no letter, a separator that is no letter
    splits the tokens: the tokens of [a ++ c :: b] are those of [a]
    and those of [b]; so the token set [Score] computes for a photo
    is the union of the token sets of its description, AI
    description, country and city, and no word runs across two
    fields. *)
Theorem photo_tokens_are_field_tokens photo :
  IsLetter (ToLowerRune 32%N) = false ->
  (forall a b c expand,
     IsLetter (ToLowerRune c) = false ->
     tokens (a ++ c :: b) expand = tokens a expand ∪ tokens b expand) /\
  photoOriginalsSet photo
  = tokens (PhotoDescription photo) false
    ∪ tokens (AiDescription photo) false
    ∪ tokens (PhotoLocationCountry photo) false
    ∪ tokens (PhotoLocationCity photo) false.
Proof.
  intros Hsp. split; [apply tokens_app_sep|].
  unfold Scorer.photoOriginalsSet, Scorer.photoText.
  rewrite !tokens_writeField by done.
  rewrite <- (app_nil_r (Scorer.writeField (PhotoLocationCity photo))).
  rewrite tokens_writeField by done.
  rewrite (tokens_fold [] false). simpl. set_solver.
Qed.

(** X15. [Score] is never negative, and it is zero exactly when
    the photo shares no token with the expanded query; in particular
    a query without tokens (empty, or stopwords and single letters
    only) scores every photo 0. *)
Theorem Score_zero_iff query photo :
  (0 <= Score query photo)%R /\
  (Score query photo = 0%R <->
   photoOriginalsSet photo ∩ tokens query true = ∅) /\
  (tokens query true = ∅ -> Score query photo = 0%R).
Proof.
  pose proof (tokens_expand_subseteq IsLetter ToLowerRune StemString
                loadedSynonymMap query) as Hsub.
  pose proof (Score_closed_form IsLetter ToLowerRune StemString
                loadedSynonymMap query photo) as HS. cbv zeta in HS.
  assert (photoOriginalsSet photo ∩ (tokens query false ∪ tokens query true) = ∅
          <-> photoOriginalsSet photo ∩ tokens query true = ∅) as Hiff.
  { split; intros H; apply leibniz_equiv; set_solver. }
  assert (Score query photo = 0%R <->
          photoOriginalsSet photo ∩ tokens query true = ∅) as Hz.
  { rewrite <- Hiff. split.
    - intros E. destruct (decide (photoOriginalsSet photo ∩
                            (tokens query false ∪ tokens query true) = ∅))
        as [|Hne]; [done|exfalso].
      assert (rawScore query photo <> 0%R) as Hraw.
      { intros H. by apply (rawScore_zero_iff IsLetter ToLowerRune StemString
                              loadedSynonymMap) in H. }
      destruct (score_normalized IsLetter ToLowerRune StemString
                  loadedSynonymMap query photo Hraw) as (_ & Hln & _ & HSc).
      rewrite HSc in E. pose proof ln_lt_2 as H2.
      apply Hraw. apply (Rmult_eq_reg_r (/ Scorer.normalizationFactor IsLetter
                   ToLowerRune StemString loadedSynonymMap photo)).
      + rewrite Rmult_0_l. exact E.
      + apply Rinv_neq_0_compat. lra.
    - intros E. rewrite HS. by rewrite decide_True. }
  split; [|split; [exact Hz|]].
  - rewrite HS. case_decide; [lra|].
    apply Rmult_le_pos.
    + pose proof (pos_INR (size (photoOriginalsSet photo ∩ tokens query false))).
      pose proof (pos_INR (size (photoOriginalsSet photo ∩
                                   (tokens query true ∖ tokens query false)))).
      lra.
    + apply Rlt_le, Rinv_0_lt_compat.
      rewrite <- ln_1. apply ln_increasing; [lra|].
      assert (size (photoOriginalsSet photo) <> 0%nat) as Hn.
      { intros E0. apply size_empty_iff in E0. set_solver. }
      pose proof (lt_0_INR (size (photoOriginalsSet photo)) ltac:(lia)). lra.
  - intros E. apply Hz. rewrite E. set_solver.
Qed.

Lemma ToLower_idem s :
  (forall r, ToLowerRune (ToLowerRune r) = ToLowerRune r) ->
  ToLower (ToLower s) = ToLower s.
Proof.
  intros Hid. unfold Tokenizer.ToLower. rewrite <- list_fmap_compose.
  apply list_fmap_ext. intros _ r _. apply Hid.
Qed.

(** X16. Lower-casing being idempotent, the tokenizer and the
    scorer do not see the case of their input: a string and its
    lower-case form have the same tokens, and a query and its
    lower-case form give every photo the same score. *)
Theorem tokenizer_case_insensitive s expand query photo :
  (forall r, ToLowerRune (ToLowerRune r) = ToLowerRune r) ->
  tokens (ToLower s) expand = tokens s expand /\
  Score (ToLower query) photo = Score query photo.
Proof.
  intros Hid.
  assert (forall s e, tokens (ToLower s) e = tokens s e) as Ht.
  { intros s' e. by rewrite !tokens_fold, ToLower_idem. }
  split; [apply Ht|].
  unfold Scorer.Score, Scorer.rawScore. by rewrite !Ht.
Qed.
End TextExtras.

(** ** The pipeline *)

Section PipelineExtras.
Context {F : Type} (flt feq : F -> F -> bool).
Variable Score : gostring -> PhotoMetadata -> F.
Variable sort_Slice :
  (scoredPhoto F -> scoredPhoto F -> bool) ->
  list (scoredPhoto F) -> list (scoredPhoto F).

Local Abbreviation pstep := (Pipeline.step flt feq Score sort_Slice).
Local Abbreviation pinv := (pinv flt feq Score sort_Slice).

Lemma nsteps_pmeasure query topK n m (s s' : @Pipeline.state F) :
  nsteps (pstep query topK n) m s s' -> (pmeasure s = m + pmeasure s')%nat.
Proof.
  induction 1 as [|m s1 s2 s3 Hstep _ IH]; [done|].
  apply (pstep_measure flt feq Score sort_Slice) in Hstep. lia.
Qed.

Lemma pmeasure_init (candidates : list PhotoMetadata) n :
  pmeasure (F:=F) (Pipeline.init candidates n)
  = (4 * length candidates + n + 3)%nat.
Proof.
  unfold pmeasure, Pipeline.init.
  cbn [Pipeline.toSend Pipeline.photosToScoreCh Pipeline.scorers
       Pipeline.resultsCh Pipeline.photosClosed Pipeline.resultsClosed
       Pipeline.final].
  assert (forall k, sum_list (sendWeight <$> replicate k (@Pipeline.Receiving F))
                    = 0%nat) as ->.
  { intros k. induction k; [done|]. simpl. done. }
  assert (forall k, sum_list (running <$> replicate k (@Pipeline.Receiving F))
                    = k) as ->.
  { intros k. induction k as [|k IHk]; [done|]. simpl. f_equal. exact IHk. }
  simpl. lia.
Qed.

Lemma buffer_step query topK n (s s' : @Pipeline.state F) :
  pstep query topK n s s' ->
  (length (Pipeline.resultsCh s) <= n * 2)%nat ->
  (length (Pipeline.resultsCh s') <= n * 2)%nat.
Proof.
  intros Hstep Hb. inversion Hstep; subst; simpl; try done.
  - rewrite length_app. simpl. lia.
  - match goal with H : Pipeline.resultsCh _ = _ :: _ |- _ =>
      rewrite H in Hb; simpl in Hb end. lia.
Qed.

Lemma buffer_rtc query topK n (s s' : @Pipeline.state F) :
  rtc (pstep query topK n) s s' ->
  (length (Pipeline.resultsCh s) <= n * 2)%nat ->
  (length (Pipeline.resultsCh s') <= n * 2)%nat.
Proof.
  induction 1 as [|s1 s2 s3 Hstep _ IH]; [done|].
  intros Hb. apply IH. by apply (buffer_step query topK n s1 s2).
Qed.

(** X17. The scoring pipeline over [N] candidates and [S >= 1]
    scorers.  Every run has at most [4N + S + 3] steps; no state
    that has not produced the final result is stuck (no deadlock);
    a run that produces it exists.  Throughout, [resultsCh] holds at
    most [2S] values, and the candidates still to be fed, in
    [photosToScoreCh], in a scorer's hands, in [resultsCh] and
    received by the collector make up the candidates, each scored
    once; when the result is out the collector has received them
    all. *)
Theorem pipeline_liveness query candidates topK numScorers :
  (0 < numScorers)%nat ->
  let s0 : @Pipeline.state F := Pipeline.init candidates numScorers in
  let N := length candidates in
  (forall m s, nsteps (pstep query topK numScorers) m s0 s ->
     (m <= 4 * N + numScorers + 3)%nat) /\
  (forall s, rtc (pstep query topK numScorers) s0 s ->
     Pipeline.final s = None ->
     exists s', pstep query topK numScorers s s') /\
  (exists s out, rtc (pstep query topK numScorers) s0 s /\
     Pipeline.final s = Some out) /\
  (forall s, rtc (pstep query topK numScorers) s0 s ->
     (length (Pipeline.resultsCh s) <= numScorers * 2)%nat /\
     (Rankers.scored Score query <$> Pipeline.toSend s)
     ++ (Rankers.scored Score query <$> Pipeline.photosToScoreCh s)
     ++ concat (sending <$> Pipeline.scorers s)
     ++ Pipeline.resultsCh s ++ Pipeline.received s
     ≡ₚ Rankers.scored Score query <$> candidates /\
     (is_Some (Pipeline.final s) ->
      Pipeline.received s ≡ₚ Rankers.scored Score query <$> candidates)).
Proof.
  intros Hn s0 N.
  pose proof (pinv_init flt feq Score sort_Slice query topK numScorers candidates)
    as Hinv0.
  split; [|split; [|split]].
  - intros m s Hrun.
    pose proof (nsteps_pmeasure _ _ _ _ _ _ Hrun) as Hm.
    unfold s0 in Hm. rewrite pmeasure_init in Hm. fold N in Hm. lia.
  - intros s Hrun Hfin.
    apply (pprogress flt feq Score sort_Slice query topK numScorers candidates);
      [done| |done].
    by apply (pinv_rtc flt feq Score sort_Slice query topK numScorers candidates
                s0 s Hn Hinv0).
  - destruct (prun_to_end flt feq Score sort_Slice query topK numScorers
                candidates s0 Hn Hinv0) as (s & out & Hrun & Hout).
    by exists s, out.
  - intros s Hrun.
    assert (pinv query topK numScorers candidates s) as Hinv.
    { by apply (pinv_rtc flt feq Score sort_Slice query topK numScorers candidates
                  s0 s Hn Hinv0). }
    split; [|split].
    + apply (buffer_rtc query topK numScorers s0 s Hrun). simpl. lia.
    + apply (pinv_perm _ _ _ _ _ _ _ _ _ Hinv).
    + intros [out Hout].
      by destruct (pinv_final _ _ _ _ _ _ _ _ _ Hinv out Hout).
Qed.
End PipelineExtras.

(** ** The chunks of [RankBSP] *)

Lemma chunksInRange_safe (n : nat) numWorkers :
  (0 < n)%nat ->
  let N := Z.of_nat n in
  numWorkers <= 1 \/ N <= numWorkers \/
  (numWorkers - 1) * (numWorkers - 1) <= N \/ N `mod` numWorkers = 0 ->
  chunksInRange n numWorkers.
Proof.
  intros Hn N Hsafe. unfold chunksInRange, Rankers.clampWorkers. fold N.
  assert (0 < N) as HN by lia.
  destruct (Z.leb_spec numWorkers 0) as [H0|H0].
  { destruct (Z.gtb_spec 1 N); [lia|]. lia. }
  destruct (Z.gtb_spec numWorkers N) as [HgN|HleN].
  { rewrite Z.quot_div_nonneg by lia.
    replace (N + N - 1) with (1 * N + (N - 1)) by lia.
    rewrite Z.div_add_l by lia. rewrite Z.div_small by lia. lia. }
  rewrite Z.quot_div_nonneg by lia.
  set (W := numWorkers) in *.
  pose proof (Z.div_mod (N + W - 1) W ltac:(lia)) as Hdm.
  pose proof (Z.mod_pos_bound (N + W - 1) W ltac:(lia)) as Hr.
  set (cs := (N + W - 1) `div` W) in *.
  destruct Hsafe as [H1|[HN'|[Hsq|Hdiv]]].
  - assert (W = 1) as -> by lia. lia.
  - assert (W = N) as HWN by lia.
    assert (cs = 1); [|nia].
    unfold cs. rewrite HWN.
    replace (N + N - 1) with (1 * N + (N - 1)) by lia.
    rewrite Z.div_add_l by lia. rewrite Z.div_small by lia. lia.
  - assert (W - 1 <= cs) by nia. nia.
  - pose proof (Z.div_mod N W ltac:(lia)) as HNdm. rewrite Hdiv in HNdm.
    assert (cs = N `div` W); [|nia].
    unfold cs. rewrite HNdm at 1.
    replace (W * (N `div` W) + 0 + W - 1) with ((N `div` W) * W + (W - 1)) by lia.
    rewrite Z.div_add_l by lia. rewrite (Z.div_small (W - 1)) by lia. lia.
Qed.

Section BSPExtras.
Context {F : Type} (flt feq : F -> F -> bool) `{!ScoreOrder flt feq}.
Variable Score : gostring -> PhotoMetadata -> F.
Variable sort_Slice :
  (scoredPhoto F -> scoredPhoto F -> bool) ->
  list (scoredPhoto F) -> list (scoredPhoto F).
Context `{!SortContract sort_Slice}.
Local Abbreviation RankBSP := (Rankers.RankBSP flt feq Score sort_Slice).

(** X18. Worker counts with which [RankBSP] always returns: at
    most one worker, at least as many workers as photos, a worker
    count [W] with [(W - 1)^2 <= N], or one that divides [N].  And
    whenever the slice expressions are all in range, the chunks, in
    worker order, make up the photo list, one chunk per worker. *)
Theorem RankBSP_safe_worker_counts t0 t1 query photos k numWorkers :
  let N := Z.of_nat (length photos) in
  let W := Rankers.clampWorkers 1 numWorkers (length photos) in
  (numWorkers <= 1 \/ N <= numWorkers \/
   (numWorkers - 1) * (numWorkers - 1) <= N \/ N `mod` numWorkers = 0 ->
   exists out, RankBSP t0 t1 query photos k numWorkers = Some (out, t1 - t0)) /\
  (forall chunks,
     mapM (fun i => Rankers.photoChunk photos ((N + W - 1) `quot` W) (Z.of_nat i))
          (seq 0 (Z.to_nat W)) = Some chunks ->
     photos <> [] ->
     concat chunks = photos /\ Z.of_nat (length chunks) = W).
Proof.
  intros N W. split.
  - intros Hsafe. destruct (decide (photos = [])) as [E|Hne].
    + exists []. apply RankBSP_degenerate. by right.
    + assert (chunksInRange (length photos) numWorkers) as Hr.
      { apply chunksInRange_safe; [|exact Hsafe].
        destruct photos; [done|simpl; lia]. }
      destruct (Z.le_gt_cases k 0) as [Hk|Hk].
      { exists []. apply RankBSP_degenerate. by left. }
      apply (RankBSP_returns_iff flt feq Score sort_Slice t0 t1 query photos k
               numWorkers Hk Hne) in Hr as [[out dur] Hout].
      destruct (RankBSP_topK flt feq Score sort_Slice _ _ _ _ _ _ _ _ Hk Hout)
        as [_ ->].
      by exists out.
  - intros chunks Hc Hne.
    assert (1 <= W <= N) as HW.
    { apply clampWorkers_range; [lia|]. destruct photos; [done|simpl; lia]. }
    split; [apply (chunks_cover photos W chunks); [lia|exact Hc]|].
    apply length_mapM in Hc. rewrite length_seq in Hc. lia.
Qed.
End BSPExtras.

(** ** The synonym table *)

Lemma fold_appendSynonyms_lookup (order : list (list N * list (list N)))
    (m : gmap (list N) (list (list N))) key :
  NoDup (order.*1) ->
  fold_left appendSynonyms order m !! key
  = match (list_to_map order : gmap (list N) (list (list N))) !! key with
    | Some values => Some (default [] (m !! key) ++ values)
    | None => m !! key
    end.
Proof.
  revert m. induction order as [|[k v] order IH]; intros m Hnd.
  - simpl. by rewrite lookup_empty.
  - apply NoDup_cons in Hnd as [Hk Hnd]. simpl. rewrite IH by done.
    unfold appendSynonyms. simpl.
    destruct (decide (key = k)) as [->|Hne].
    + rewrite lookup_insert_eq.
      rewrite (not_elem_of_list_to_map_1 _ k Hk). by rewrite lookup_insert_eq.
    + assert (k <> key) as Hne' by done.
      by rewrite !lookup_insert_ne by done.
Qed.

Lemma fold_appendSynonyms_map (order : list (list N * list (list N)))
    (M m : gmap (list N) (list (list N))) (key : list N) :
  order ≡ₚ map_to_list M ->
  fold_left appendSynonyms order m !! key
  = match M !! key with
    | Some values => Some (default [] (m !! key) ++ values)
    | None => m !! key
    end.
Proof.
  intros Hp.
  assert (NoDup (order.*1)) as Hnd.
  { rewrite Hp. apply NoDup_fst_map_to_list. }
  rewrite fold_appendSynonyms_lookup by done.
  by rewrite (list_to_map_proper _ _ Hnd Hp), list_to_map_to_list.
Qed.

(** X19. Loading the synonym table: in whatever orders the two
    range loops visit the two maps, the table ends up with, for each
    key, the synonyms of the base map followed by those of the GloVe
    map; a key of one map only keeps that map's list, and no other
    key is present. *)
Theorem mergeSynonyms_appends_per_key
    (baseSynonyms gloveSynonyms : gmap (list N) (list (list N)))
    (baseOrder gloveOrder : list (list N * list (list N))) (key : list N) :
  baseOrder ≡ₚ map_to_list baseSynonyms ->
  gloveOrder ≡ₚ map_to_list gloveSynonyms ->
  mergeSynonyms baseOrder gloveOrder !! key
  = match baseSynonyms !! key, gloveSynonyms !! key with
    | Some b, Some g => Some (b ++ g)
    | Some b, None => Some b
    | None, Some g => Some g
    | None, None => None
    end.
Proof.
  intros Hb Hg. unfold mergeSynonyms.
  rewrite (fold_appendSynonyms_map _ gloveSynonyms _ key Hg).
  rewrite (fold_appendSynonyms_map _ baseSynonyms _ key Hb).
  rewrite lookup_empty.
  by destruct (baseSynonyms !! key), (gloveSynonyms !! key).
Qed.

(** ** At concrete inputs *)

(** X4 at scenario S1 with two workers, deque 0. *)
Lemma distribute_round_robin_S1 :
  exists d,
    distribute 2 (str "q") scenarioS1 !! 0%nat = Some d /\
    (forall i, d !! i =
       (fun p => mkTask p (str "q")) <$> scenarioS1 !! (0 + i * 2)%nat) /\
    (length scenarioS1 / 2 <= length d <= (length scenarioS1 + 2 - 1) / 2)%nat /\
    (2 <= length scenarioS1 -> d <> [])%nat.
Proof. exact (distribute_round_robin 2 (str "q") scenarioS1 0 ltac:(lia)). Defined.

(** X5 at three arrivals on a barrier for three. *)
Lemma barrier_three_arrivals :
  let b0 := Barrier.mkBarrier 3 0 [] in
  let gs := [2; 0; 1]%nat in
  let m := Z.of_nat (length gs) in
  0 <= Barrier.count b0 < 3 /\
  Barrier.count b0 = m `mod` 3 /\
  gs ++ Barrier.parked b0 = gs /\
  Z.of_nat (length gs) = 3 * (m `div` 3) /\
  (m < 3 -> gs = []) /\
  (m = 3 -> gs = gs /\ b0 = b0).
Proof.
  exact (barrier_releases_in_full_rounds 3 (Barrier.mkBarrier 3 0 [])
           [2; 0; 1]%nat (Barrier.mkBarrier 3 0 []) [2; 0; 1]%nat
           eq_refl eq_refl).
Defined.


(** X7 with integer scores. *)
Lemma photoHeap_comparators_agree_Z :
  Heap.shouldReplace Z.ltb Z.eqb (mkScored photoA 1) (mkScored photoB 10)
  = Heap.Less Z.ltb Z.eqb (mkScored photoB 10) (mkScored photoA 1).
Proof.
  exact (proj1 (proj2 (proj2 (proj2 (proj2
           (photoHeap_comparators_agree Z.ltb Z.eqb)))))
           (mkScored photoA 1) (mkScored photoB 10)).
Defined.

Lemma isHeap_singleton {F} (flt feq : F -> F -> bool) (x : scoredPhoto F) :
  isHeap flt feq [x].
Proof. intros c a b Hc. simpl in Hc. lia. Qed.

(** X8 at a heap of one element, with integer scores. *)
Lemma heap_Push_Pop_singleton :
  let h := [mkScored photoB 10] in
  let x := mkScored photoA 1 in
  (isHeap Z.ltb Z.eqb (Heap.Push Z.ltb Z.eqb h x) /\
   Heap.Push Z.ltb Z.eqb h x ≡ₚ x :: h) /\
  (h = [] -> Heap.Pop Z.ltb Z.eqb h = None) /\
  (h <> [] ->
   exists m h',
     Heap.Pop Z.ltb Z.eqb h = Some (m, h') /\
     h ≡ₚ m :: h' /\ isHeap Z.ltb Z.eqb h' /\
     forall y, y ∈ h -> Heap.Less Z.ltb Z.eqb y m = false).
Proof.
  exact (heap_Push_Pop Z.ltb Z.eqb [mkScored photoB 10] (mkScored photoA 1)
           (isHeap_singleton Z.ltb Z.eqb _)).
Defined.


(** X10 at scenario S1 scored by downloads, [topK = 2]. *)
Lemma Collector_holds_at_most_topK_S1 :
  let log := Rankers.scored downloadsScore (str "q") <$> scenarioS1 in
  let h := fold_left (Rankers.Collector_Push Z.ltb Z.eqb 2) log [] in
  length h = Nat.min (Z.to_nat 2) (length log) /\
  isHeap Z.ltb Z.eqb h /\ h ⊆+ log /\ (2 <= 0 -> h = []).
Proof.
  exact (Collector_holds_at_most_topK Z.ltb Z.eqb 2
           (Rankers.scored downloadsScore (str "q") <$> scenarioS1)).
Defined.

(** X11 at scenario S1 with its first two photos swapped. *)
Lemma Rank_order_independent_S1 :
  Rankers.Rank Rltb Reqb demoScore Heap.insertionSort (str "foo")
    [photoB; photoA; photoC] 2
  = Rankers.Rank Rltb Reqb demoScore Heap.insertionSort (str "foo") scenarioS1 2.
Proof.
  exact (Rank_order_independent Rltb Reqb demoScore Heap.insertionSort
           (str "foo") scenarioS1 [photoB; photoA; photoC] 2
           (scenarioS1_ties (str "foo")) (perm_swap photoB photoA [photoC])).
Defined.

(** X12 at scenario S1, [k = 1] and [k' = 3]. *)
Lemma Rank_prefix_S1 :
  Rankers.Rank Rltb Reqb demoScore Heap.insertionSort (str "foo") scenarioS1 1
  = take (Z.to_nat 1)
      (Rankers.Rank Rltb Reqb demoScore Heap.insertionSort (str "foo")
         scenarioS1 3).
Proof.
  apply (Rank_prefix Rltb Reqb demoScore Heap.insertionSort
           (str "foo") scenarioS1 1 3 (scenarioS1_ties (str "foo"))).
  lia.
Defined.

(** X13 at scenario S1, for [Rank]. *)
Lemma rankers_return_candidates_S1 :
  let out := Rankers.Rank Rltb Reqb demoScore Heap.insertionSort (str "foo")
               scenarioS1 2 in
  out ⊆+ scenarioS1 /\ (length out <= Z.to_nat 2)%nat /\
  (scenarioS1 <> [] -> out <> []).
Proof.
  exact (rankers_return_candidates Rltb Reqb demoScore Heap.insertionSort
           8 NumCPU8_pos 0 7 (str "foo") scenarioS1 2 2 2 _ eq_refl
           (or_introl eq_refl)).
Defined.

(** X14 at photo A. *)
Lemma photo_tokens_are_field_tokens_A :
  Scorer.photoOriginalsSet latin1IsLetter latin1ToLower ingStem demoSynonyms photoA
  = demoTokens (PhotoDescription photoA) false
    ∪ demoTokens (AiDescription photoA) false
    ∪ demoTokens (PhotoLocationCountry photoA) false
    ∪ demoTokens (PhotoLocationCity photoA) false.
Proof.
  exact (proj2 (photo_tokens_are_field_tokens latin1IsLetter latin1ToLower
                  ingStem demoSynonyms photoA eq_refl)).
Defined.

Lemma latin1ToLower_idem r : latin1ToLower (latin1ToLower r) = latin1ToLower r.
Proof.
  unfold latin1ToLower.
  destruct (inRange 65 90 r || inRange 192 214 r || inRange 216 222 r) eqn:E;
    [|by rewrite E].
  assert (inRange 65 90 (r + 32) || inRange 192 214 (r + 32)
          || inRange 216 222 (r + 32) = false) as ->; [|done].
  apply not_true_is_false. intros H.
  unfold inRange in *.
  rewrite !orb_true_iff, !andb_true_iff, !N.leb_le in E, H. lia.
Qed.

(** X16 over the Latin-1 tables. *)
Lemma tokenizer_case_insensitive_foo :
  demoTokens (Tokenizer.ToLower latin1ToLower (str "Foo BAR")) true
  = demoTokens (str "Foo BAR") true /\
  demoScore (Tokenizer.ToLower latin1ToLower (str "FOO")) photoA
  = demoScore (str "FOO") photoA.
Proof.
  exact (tokenizer_case_insensitive latin1IsLetter latin1ToLower ingStem
           demoSynonyms (str "Foo BAR") true (str "FOO") photoA
           latin1ToLower_idem).
Defined.

(** X19 at the two-entry table, merged with itself. *)
Lemma mergeSynonyms_demo :
  mergeSynonyms (map_to_list demoSynonyms) (map_to_list demoSynonyms)
    !! str "big"
  = match demoSynonyms !! str "big", demoSynonyms !! str "big" with
    | Some b, Some g => Some (b ++ g)
    | Some b, None => Some b
    | None, Some g => Some g
    | None, None => None
    end.
Proof.
  exact (mergeSynonyms_appends_per_key demoSynonyms demoSynonyms _ _
           (str "big") (Permutation_refl _) (Permutation_refl _)).
Defined.

(** X17 at scenario S1 with two scorers: a run to the end exists. *)
Lemma pipeline_liveness_S1 :
  exists (s : @Pipeline.state Z) out,
    rtc (Pipeline.step Z.ltb Z.eqb downloadsScore Heap.insertionSort
           (str "q") 2 2) (Pipeline.init scenarioS1 2) s /\
    Pipeline.final s = Some out.
Proof.
  exact (proj1 (proj2 (proj2
    (pipeline_liveness Z.ltb Z.eqb downloadsScore Heap.insertionSort
       (str "q") scenarioS1 2 2 ltac:(lia))))).
Defined.

(** X18 at scenario S1 with one worker. *)
Lemma RankBSP_safe_worker_counts_S1 :
  exists out,
    Rankers.RankBSP Rltb Reqb demoScore Heap.insertionSort 0 7
      (str "foo") scenarioS1 2 1 = Some (out, 7 - 0).
Proof.
  apply (proj1 (RankBSP_safe_worker_counts Rltb Reqb demoScore
                  Heap.insertionSort 0 7 (str "foo") scenarioS1 2 1)).
  left. lia.
Defined.
